(** * palette-swap: a shallow embedding of the colour-remapping engine

    The repository holds two implementations of [paletteSwap]:
    - [src/palette-swap.ts], which works on pixels packed into 32-bit words
      (module [Packed] below);
    - a second file that keys its tables by hex strings and converts through
      HSL (module [HexKeyed] below).

    JavaScript numbers are IEEE-754 binary64 values; they are embedded as
    Rocq's primitive [float]s, which have the same semantics.  Numbers that
    the code only ever uses as integers (typed-array elements, results of the
    bit operators) are embedded as [Z] with the wrap-around written out. *)

From Stdlib Require Import ZArith Lia Ascii String Floats HexadecimalString DecimalString.
From stdpp Require Import gmap strings list.

Local Open Scope Z_scope.

(** ** JavaScript primitives used by the sources *)

Module JS.

(** [ToInt32] and [ToUint32] on a mathematical integer. *)
Definition int32 (z : Z) : Z := (z + 2 ^ 31) mod 2 ^ 32 - 2 ^ 31.
Definition uint32 (z : Z) : Z := z mod 2 ^ 32.

(** The integer obtained by dropping the fraction of a finite number
    (0 for NaN and the infinities, as the conversions to integers do). *)
Definition trunc (x : float) : Z :=
  match Prim2SF x with
  | S754_finite s m e =>
      let mag := if 0 <=? e then Z.shiftl (Zpos m) e else Z.shiftr (Zpos m) (- e) in
      if s then - mag else mag
  | _ => 0
  end.

Definition ToInt32 (x : float) : Z := int32 (trunc x).

(** The number nearest to an integer (round to nearest, ties to even;
    infinity on overflow). Exact below 2^53. *)
Definition Z2F (z : Z) : float := SF2Prim (binary_normalize prec emax z 0 false).

(** [x << n], [x >> n], [x | y] and [x & y] on operands that are already
    integers. *)
Definition shl (x n : Z) : Z := int32 (Z.shiftl (int32 x) n).
Definition sar (x n : Z) : Z := Z.shiftr (int32 x) n.
Definition bor (x y : Z) : Z := Z.lor (int32 x) (int32 y).
Definition band (x y : Z) : Z := Z.land (int32 x) (int32 y).

(** Truthiness of a number: everything but 0, -0 and NaN. *)
Definition truthy (x : float) : bool :=
  negb (PrimFloat.is_nan x || PrimFloat.eqb x 0%float).

(** [Math.min] and [Math.max] of two numbers. *)
Definition min2 (x y : float) : float :=
  if PrimFloat.is_nan x then x else if PrimFloat.is_nan y then y
  else if PrimFloat.ltb x y then x else if PrimFloat.ltb y x then y
  else if PrimFloat.Leibniz.eqb x PrimFloat.neg_zero then x else y.
Definition max2 (x y : float) : float :=
  if PrimFloat.is_nan x then x else if PrimFloat.is_nan y then y
  else if PrimFloat.ltb y x then x else if PrimFloat.ltb x y then y
  else if PrimFloat.Leibniz.eqb x PrimFloat.neg_zero then y else x.
Definition Math_min (x y z : float) : float := min2 (min2 x y) z.
Definition Math_max (x y z : float) : float := max2 (max2 x y) z.

(** [Math.round] on a finite number: the nearest integer, ties towards
    +infinity, computed exactly as [floor (x + 1/2)]. *)
Definition Math_round (x : float) : Z :=
  match Prim2SF x with
  | S754_finite s m e =>
      if 0 <=? e then (if s then - Z.shiftl (Zpos m) e else Z.shiftl (Zpos m) e)
      else
        let v := if s then Zneg m else Zpos m in
        Z.shiftr (2 * v + Z.shiftl 1 (- e)) (1 - e)
  | _ => 0
  end.

(** [n.toString(16)] on an integer. *)
Definition toString16 (z : Z) : string :=
  let digits := HexadecimalString.NilZero.string_of_uint (N.to_hex_uint (Z.abs_N z)) in
  if z <? 0 then String "-"%char digits else digits.

(** [Math.round(x).toString(16)]. *)
Definition roundToString16 (x : float) : string :=
  if PrimFloat.is_nan x then "NaN"
  else if PrimFloat.is_infinity x
       then (if PrimFloat.ltb x 0%float then "-Infinity" else "Infinity")
       else toString16 (Math_round x).

(** [n.toString()] on an integer below 10^21 in size. *)
Definition toString10 (z : Z) : string :=
  DecimalString.NilZero.string_of_int (Z.to_int z).

(** [s.padStart(2, '0')]. *)
Definition padStart2 (s : string) : string :=
  match s with
  | EmptyString => "00"
  | String c EmptyString => String "0"%char s
  | _ => s
  end.

(** [s.slice(1)]. *)
Definition slice1 (s : string) : string :=
  match s with
  | EmptyString => EmptyString
  | String _ r => r
  end.

(** [parts.join(', ')]. *)
Fixpoint join (parts : list string) : string :=
  match parts with
  | [] => ""
  | [p] => p
  | p :: ps => p +:+ ", " +:+ join ps
  end.

Definition hexDigitValue (c : ascii) : option Z :=
  let n := Z.of_N (N_of_ascii c) in
  if (48 <=? n) && (n <=? 57) then Some (n - 48)
  else if (97 <=? n) && (n <=? 102) then Some (n - 87)
  else if (65 <=? n) && (n <=? 70) then Some (n - 55)
  else None.

(** White space that [parseInt] skips (the 8-bit part of it). *)
Definition isWhiteSpace (c : ascii) : bool :=
  let n := Z.of_N (N_of_ascii c) in
  ((9 <=? n) && (n <=? 13)) || (n =? 32) || (n =? 160).

Fixpoint trimStart (s : string) : string :=
  match s with
  | String c r => if isWhiteSpace c then trimStart r else s
  | EmptyString => s
  end.

(** The longest prefix of hex digits, read as an integer; [None] when the
    prefix is empty. *)
Fixpoint parseDigits (s : string) (acc : option Z) : option Z :=
  match s with
  | String c r =>
      match hexDigitValue c with
      | Some d => parseDigits r (Some (16 * default 0 acc + d))
      | None => acc
      end
  | EmptyString => acc
  end.

Definition strip0x (s : string) : string :=
  match s with
  | String "0"%char (String "x"%char r) => r
  | String "0"%char (String "X"%char r) => r
  | _ => s
  end.

(** [Number.parseInt(s, 16)]. *)
Definition parseInt16 (s : string) : float :=
  let s := trimStart s in
  let '(neg, s) :=
    match s with
    | String "-"%char r => (true, r)
    | String "+"%char r => (false, r)
    | _ => (false, s)
    end in
  match parseDigits (strip0x s) None with
  | None => PrimFloat.nan
  | Some n => if neg then PrimFloat.opp (Z2F n) else Z2F n
  end.

(** The class [\w] of regular expressions. *)
Definition isWord (c : ascii) : bool :=
  let n := Z.of_N (N_of_ascii c) in
  ((48 <=? n) && (n <=? 57)) || ((65 <=? n) && (n <=? 90))
  || ((97 <=? n) && (n <=? 122)) || (n =? 95).

(** [s.match(/\w\w/g)]: the successive non-overlapping pairs of word
    characters, leftmost first; the empty list stands for [null]. *)
Fixpoint matchWW (s : string) : list string :=
  match s with
  | String c1 tl =>
      match tl with
      | String c2 rest =>
          if isWord c1 && isWord c2
          then String c1 (String c2 EmptyString) :: matchWW rest
          else matchWW tl
      | EmptyString => []
      end
  | EmptyString => []
  end.

(** Storing a number into a [Uint8ClampedArray]: NaN becomes 0, the value
    is clamped to [0, 255] and rounded to the nearest integer, ties to
    even. *)
Definition ToUint8Clamp (x : float) : Z :=
  if PrimFloat.is_nan x then 0
  else if PrimFloat.leb x 0%float then 0
  else if PrimFloat.leb 255%float x then 255
  else
    let f := trunc x in
    let d := PrimFloat.sub x (Z2F f) in
    if PrimFloat.ltb d 0.5%float then f
    else if PrimFloat.ltb 0.5%float d then f + 1
    else if Z.even f then f else f + 1.

(** A [Set] built from a sequence: elements in first-seen order, later
    duplicates dropped. *)
Definition setFrom {A} `{EqDecision A} (l : list A) : list A :=
  foldl (fun acc x => if decide (x ∈ acc) then acc else acc ++ [x]) [] l.

(** [v[i] = x] on an array of numbers: an index past the end extends the
    array, leaving holes ([None]) in between. *)
Definition arraySet (v : list (option Z)) (i : nat) (x : Z) : list (option Z) :=
  if decide (i < length v)%nat then <[i := Some x]> v
  else v ++ replicate (i - length v) None ++ [Some x].

(** [v?.[i]]: [None] stands for [undefined] (no array, a hole, or an index
    past the end). *)
Definition arrayGet (v : option (list (option Z))) (i : nat) : option Z :=
  v ≫= fun l => l !! i ≫= id.

(** [!o] on an object or [null] / [undefined]. *)
Definition isNull {A} (o : option A) : bool :=
  match o with Some _ => false | None => true end.

End JS.

(** ** Pixels, buffers and the canvas collaborator *)

(** [ImageData]: [data] is the [Uint8ClampedArray] of RGBA bytes, four per
    pixel, rows first. *)
Record ImageData := mkImageData {
  width : nat;
  height : nat;
  data : list Z
}.

(** A decoded image ([Image] of the sources): its size and its RGBA bytes. *)
Record Image := mkImage {
  img_width : nat;
  img_height : nat;
  img_data : list Z
}.

(** A [Uint32Array] laid over the bytes of an [ImageData], on a
    little-endian host (which the packing in [hexToInt32] assumes): word [i]
    holds red in its low byte, then green, blue, and alpha in its high byte. *)
Definition wordBytes (w : Z) : list Z :=
  [Z.land w 255; Z.land (Z.shiftr w 8) 255;
   Z.land (Z.shiftr w 16) 255; Z.land (Z.shiftr w 24) 255].

Definition bytesOfWords (ws : list Z) : list Z := ws ≫= wordBytes.

Fixpoint wordsOfBytes (bs : list Z) : list Z :=
  match bs with
  | b0 :: b1 :: b2 :: b3 :: rest =>
      (b0 + 2 ^ 8 * b1 + 2 ^ 16 * b2 + 2 ^ 24 * b3) :: wordsOfBytes rest
  | _ => []
  end.

(** The canvas, after the HTML canvas standard: [createCanvasFromImage]
    draws the image on a fresh canvas of the image's size, and
    [getImageData(0, 0, sw, sh)] returns the [sw] x [sh] rectangle at the
    origin, transparent black outside the canvas.  Both are composed in
    [getImageData] below.  The canvas starts as transparent black and keeps
    its colours multiplied by alpha, so a pixel the image gives alpha 0 is
    read back as transparent black whatever its colour bytes were; the
    other pixels are read back as the image gives them. *)
Definition canvasPixel (c : Image) (x y : nat) : list Z :=
  if decide (x < img_width c ∧ y < img_height c)%nat
  then
    let px := take 4 (drop (4 * (y * img_width c + x)) (img_data c) ++ [0; 0; 0; 0]) in
    if decide (px !! 3%nat = Some 0) then [0; 0; 0; 0] else px
  else [0; 0; 0; 0].

Definition getImageData (c : Image) (sw sh : nat) : ImageData :=
  {| width := sw;
     height := sh;
     data := seq 0 sh ≫= fun y => seq 0 sw ≫= fun x => canvasPixel c x y |}.

(** ** The packed-integer engine ([src/palette-swap.ts]) *)

Module Packed.
Import JS.

Definition HEX := string.

(** [type VariantName = number | string]; a numeric name is an integer
    below 10^21 in size, which is printed in decimal. *)
Inductive VariantName :=
  | NameNum (n : Z)
  | NameStr (s : string).

#[global] Instance VariantName_eq_dec : EqDecision VariantName.
Proof. solve_decision. Defined.

Definition nameToString (name : VariantName) : string :=
  match name with
  | NameNum n => toString10 n
  | NameStr s => s
  end.

Definition int32ToRgb (color : Z) : Z * Z * Z :=
  let r := band (sar color 16) 255 in
  let g := band (sar color 8) 255 in
  let b := band color 255 in
  (r, g, b).

Definition hexToInt32 (hex : HEX) : Z :=
  let n := band (ToInt32 (parseInt16 (slice1 hex))) 16777215 in
  let '(r, g, b) := int32ToRgb n in
  bor (bor (shl b 16) (shl g 8)) r.

Definition hex (value : float) : string := padStart2 (roundToString16 value).

Definition rgbToHex (rgb : Z * Z * Z) : HEX :=
  let '(r, g, b) := rgb in
  "#" +:+ hex (Z2F r) +:+ hex (Z2F g) +:+ hex (Z2F b).

Definition int32ToHex (color : Z) : HEX := rgbToHex (int32ToRgb color).

(** The body of the loop of [applyHue]: [result[i]]. *)
Definition hueChannel (h t1 t2 i : float) : float :=
  (let t3 := h + (1 / 3) * - (2 - i - 1) in
   let t3 := if t3 <? 0 then t3 + 1 else t3 in
   let t3 := if 1 <? t3 then t3 - 1 else t3 in
   let val :=
     if 6 * t3 <? 1 then t1 + (t2 - t1) * 6 * t3
     else if 2 * t3 <? 1 then t2
     else if 3 * t3 <? 2 then t1 + (t2 - t1) * (2 / 3 - t3) * 6
     else t1 in
   val * 255)%float.

(** [(x << 16) | (y << 8) | z] on numbers. *)
Definition pack3 (x y z : float) : Z :=
  bor (bor (shl (ToInt32 x) 16) (shl (ToInt32 y) 8)) (ToInt32 z).

Definition lightness (min max : float) : float := ((min + max) / 2)%float.

Definition saturation (min max : float) : float :=
  (let delta := max - min in
   let l := lightness min max in
   if max =? min then 0
   else if l <=? 0.5 then delta / (max + min)
   else delta / (2 - max - min))%float.

(** The part of [applyHue] after [s] and [l] are known. *)
Definition rotate (h s l : float) : Z :=
  (if s =? 0 then
     let val := l * 255 in pack3 val val val
   else
     let t2 := if l <? 0.5 then l * (1 + s) else l + s - l * s in
     let t1 := 2 * l - t2 in
     pack3 (hueChannel h t1 t2 0) (hueChannel h t1 t2 1) (hueChannel h t1 t2 2))%float.

Definition applyHue (rgb : Z * Z * Z) (hue : float) : Z :=
  (let h := hue / 360 in
   let r := Z2F rgb.1.1 / 255 in
   let g := Z2F rgb.1.2 / 255 in
   let b := Z2F rgb.2 / 255 in
   let min := Math_min r g b in
   let max := Math_max r g b in
   rotate h (saturation min max) (lightness min max))%float.

Definition equals (a b : ImageData) : bool :=
  if negb (width a =? width b)%nat || negb (height a =? height b)%nat then false
  else
    forallb
      (fun i =>
         match data a !! i, data b !! i with
         | Some x, Some y => x =? y
         | _, _ => false
         end)
      (seq 0 (length (data a))).

(** A variant spec: a colour table (entries in insertion order) or one hue
    for the whole image. *)
Inductive Palette :=
  | Table (entries : list (HEX * HEX))
  | UniformHue (hue : float).

(** [variants[i]] without its buffers: the name and [variants[i][3]]. *)
Definition Entry : Type := VariantName * option float.

(** The first loop of [paletteSwap]: the per-colour replacement arrays. *)
Definition addEntry (i : nat) (palettes : gmap Z (list (option Z))) (kv : HEX * HEX)
  : gmap Z (list (option Z)) :=
  let k := hexToInt32 kv.1 in
  let v := default [] (palettes !! k) in
  <[k := arraySet v i (hexToInt32 kv.2)]> palettes.

Fixpoint compile (i : nat) (inputVariants : list (VariantName * Palette))
    (palettes : gmap Z (list (option Z))) : gmap Z (list (option Z)) :=
  match inputVariants with
  | [] => palettes
  | (_, Table entries) :: rest => compile (S i) rest (foldl (addEntry i) palettes entries)
  | (_, UniformHue _) :: rest => compile (S i) rest palettes
  end.

Definition variantOf (entry : VariantName * Palette) : Entry :=
  (entry.1, match entry.2 with UniformHue hue => Some hue | Table _ => None end).

(** The state the pixel loop updates: the [Uint32Array] of every variant
    (by position) and the [missing] set.  [missing] holds freshly allocated
    pairs, which a [Set] never identifies, so every [add] appends. *)
Record State := mkState {
  buffers : list (list Z);
  missing : list (VariantName * Z)
}.

Definition store (i index : nat) (v : Z) (st : State) : State :=
  {| buffers := alter (fun buf => <[index := uint32 v]> buf) i (buffers st);
     missing := missing st |}.

Definition addMissing (name : VariantName) (color : Z) (st : State) : State :=
  {| buffers := buffers st; missing := missing st ++ [(name, color)] |}.

(** Truthiness of [variants[i][3]] (a hue or [null]) and of [colors?.[i]]
    (a number or [undefined]). *)
Definition hueTruthy (hue : option float) : bool :=
  match hue with Some h => truthy h | None => false end.

Definition numTruthy (c : option Z) : bool :=
  match c with Some c => negb (c =? 0) | None => false end.

Section Scan.
Variables (width height : nat).
Variable imageData : list Z.
Variable variants : list Entry.
Variable palettes : gmap Z (list (option Z)).
Variable staticColorNumbers : option (gset Z).
Variable imageName : option string.
Variable ignoreMissing : bool.

(** The body of the loop over the variants, for one pixel. *)
Definition variantStep (index : nat) (originalColor a color : Z) (isStatic : bool)
    (colors : option (list (option Z))) (i : nat) (v : Entry) (st : State) : State :=
  if isStatic then store i index originalColor st
  else
    let hue := v.2 in
    if hueTruthy hue
    then store i index (bor (shl a 24) (applyHue (int32ToRgb color) (default 0%float hue))) st
    else if numTruthy (arrayGet colors i)
    then store i index (bor (shl a 24) (default 0 (arrayGet colors i))) st
    else if isNull staticColorNumbers
    then store i index originalColor st
    else addMissing v.1 color st.

Fixpoint variantsLoop (index : nat) (originalColor a color : Z) (isStatic : bool)
    (colors : option (list (option Z))) (i : nat) (vs : list Entry) (st : State) : State :=
  match vs with
  | [] => st
  | v :: vs' =>
      variantsLoop index originalColor a color isStatic colors (S i) vs'
        (variantStep index originalColor a color isStatic colors i v st)
  end.

(** The body of the loop over [x]. *)
Definition pixel (index : nat) (st : State) : State :=
  let originalColor := default 0 (imageData !! index) in
  let a := band (sar originalColor 24) 255 in
  if a =? 0 then st
  else
    let color := band originalColor 16777215 in
    let isStatic :=
      match staticColorNumbers with
      | Some s => bool_decide (color ∈ s)
      | None => false
      end in
    let colors := if isStatic then None else palettes !! color in
    variantsLoop index originalColor a color isStatic colors 0 variants st.

Definition row (y : nat) (st : State) : State :=
  foldl (fun st x => pixel (y * width + x) st) st (seq 0 width).

Definition message (missing : list (VariantName * Z)) : string :=
  "There is no mapping for "
  +:+ join (setFrom ((fun p => int32ToHex p.2) <$> missing))
  +:+ " in the palette for "
  +:+ match imageName with
      | Some (String c n) => "image '" +:+ String c n +:+ "' "
      | _ => ""
      end
  +:+ "variant(s) '"
  +:+ join (nameToString <$> setFrom (fst <$> missing))
  +:+ "'.".

(** The loop over [y]; [inl] is the thrown [Error]. *)
Fixpoint rows (ys : list nat) (st : State) : string + State :=
  match ys with
  | [] => inr st
  | y :: ys' =>
      let st' := row y st in
      if negb ignoreMissing && negb (bool_decide (missing st' = []))
      then inl (message (missing st'))
      else rows ys' st'
  end.

Definition initial : State :=
  {| buffers := replicate (length variants) (replicate (width * height) 0);
     missing := [] |}.

Definition scan : string + State := rows (seq 0 height) initial.
End Scan.

(** The last loop of [paletteSwap]: a variant enters [results] unless the
    image supplied for it equals the new one. *)
Fixpoint lookupImage (images : list (VariantName * Image)) (name : VariantName)
  : option Image :=
  match images with
  | [] => None
  | (n, image) :: rest => if decide (n = name) then Some image else lookupImage rest name
  end.

Definition included (width height : nat) (images : option (list (VariantName * Image)))
    (name : VariantName) (newImageData : ImageData) : bool :=
  match images ≫= fun m => lookupImage m name with
  | Some existingImage =>
      negb (equals newImageData (getImageData existingImage width height))
  | None => true
  end.

Fixpoint collect (width height : nat) (images : option (list (VariantName * Image)))
    (variants : list Entry) (buffers : list (list Z))
  : list (VariantName * ImageData) :=
  match variants, buffers with
  | v :: vs, buf :: bufs =>
      let newImageData := mkImageData width height (bytesOfWords buf) in
      (if included width height images v.1 newImageData then [(v.1, newImageData)] else [])
      ++ collect width height images vs bufs
  | _, _ => []
  end.

Definition paletteSwap (image : Image) (inputVariants : list (VariantName * Palette))
    (staticColors : option (list HEX)) (images : option (list (VariantName * Image)))
    (imageName : option string) (ignoreMissing : bool)
  : string + list (VariantName * ImageData) :=
  let width := img_width image in
  let height := img_height image in
  let imageData := wordsOfBytes (data (getImageData image width height)) in
  let palettes := compile 0 inputVariants ∅ in
  let variants := variantOf <$> inputVariants in
  let staticColorNumbers :=
    (fun l => (list_to_set (hexToInt32 <$> l) : gset Z)) <$> staticColors in
  match scan width height imageData variants palettes staticColorNumbers
          imageName ignoreMissing with
  | inl msg => inl msg
  | inr st => inr (collect width height images variants (buffers st))
  end.

End Packed.

(** ** The string-keyed engine (the second implementation) *)

Module HexKeyed.
Import JS.

Definition HEX := string.

(** [type Variant = HEX | Hue]: what a table maps a colour to. *)
Inductive Target :=
  | ToHex (color : HEX)
  | ToHue (hue : float).

Inductive Palette :=
  | Table (entries : list (HEX * Target))
  | UniformHue (hue : float).

Definition hex (value : float) : string := padStart2 (roundToString16 value).

(** [rgbaToHex(r, g, b, a)]; [a] is [None] when the argument is left out. *)
Definition rgbaToHex (r g b : float) (a : option float) : HEX :=
  "#" +:+ hex r +:+ hex g +:+ hex b
  +:+ match a with
      | Some a' => if truthy a' && negb (PrimFloat.eqb a' 255%float) then hex a' else ""
      | None => ""
      end.

(** [hexToRgba]; [inl] is the thrown [Error]. *)
Definition hexToRgba (hex : HEX) : string + list float :=
  match matchWW hex with
  | [] => inl ("Invalid color '" +:+ hex +:+ "'.")
  | parts => inr (parseInt16 <$> parts)
  end.

Definition rgbToHsl (rgb : float * float * float) : float * float * float :=
  (let r := rgb.1.1 / 255 in
   let g := rgb.1.2 / 255 in
   let b := rgb.2 / 255 in
   let min := Math_min r g b in
   let max := Math_max r g b in
   let delta := max - min in
   let h :=
     if max =? min then 0
     else if r =? max then (g - b) / delta
     else if g =? max then 2 + (b - r) / delta
     else if b =? max then 4 + (r - g) / delta
     else 0 in
   let h := min2 (h * 60) 360 in
   let h := if h <? 0 then h + 360 else h in
   let l := (min + max) / 2 in
   let s :=
     if max =? min then 0
     else if l <=? 0.5 then delta / (max + min)
     else delta / (2 - max - min) in
   (h, s * 100, l * 100))%float.

(** The body of the loop of [hslToRgb]: [rgb[i]]. *)
Definition hueChannel (h t1 t2 i : float) : float :=
  (let t3 := h + (1 / 3) * - (i - 1) in
   let t3 := if t3 <? 0 then t3 + 1 else t3 in
   let t3 := if 1 <? t3 then t3 - 1 else t3 in
   let val :=
     if 6 * t3 <? 1 then t1 + (t2 - t1) * 6 * t3
     else if 2 * t3 <? 1 then t2
     else if 3 * t3 <? 2 then t1 + (t2 - t1) * (2 / 3 - t3) * 6
     else t1 in
   val * 255)%float.

Definition hslToRgb (hsl : float * float * float) : float * float * float :=
  (let h := hsl.1.1 / 360 in
   let s := hsl.1.2 / 100 in
   let l := hsl.2 / 100 in
   if s =? 0 then
     let val := l * 255 in (val, val, val)
   else
     let t2 := if l <? 0.5 then l * (1 + s) else l + s - l * s in
     let t1 := 2 * l - t2 in
     (hueChannel h t1 t2 0, hueChannel h t1 t2 1, hueChannel h t1 t2 2))%float.

Definition hslToHex (hsl : float * float * float) : HEX :=
  let '(r, g, b) := hslToRgb hsl in
  rgbaToHex r g b None.

Definition applyHue (r g b a hue : float) : HEX :=
  let '(_, s, l) := rgbToHsl (r, g, b) in
  hslToHex (hue, s, l) +:+ hex a.

Definition equals (a b : ImageData) : bool :=
  if negb (width a =? width b)%nat || negb (height a =? height b)%nat then false
  else
    forallb
      (fun i =>
         match data a !! i, data b !! i with
         | Some x, Some y => x =? y
         | _, _ => false
         end)
      (seq 0 (length (data a))).

(** [set(imageData, index, r, g, b, a)] on the bytes of a
    [Uint8ClampedArray]. *)
Definition set (bytes : list Z) (index : nat) (r g b a : float) : list Z :=
  <[(index + 3)%nat := ToUint8Clamp a]>
    (<[(index + 2)%nat := ToUint8Clamp b]>
       (<[(index + 1)%nat := ToUint8Clamp g]>
          (<[index := ToUint8Clamp r]> bytes))).

Fixpoint tableGet (entries : list (HEX * Target)) (key : HEX) : option Target :=
  match entries with
  | [] => None
  | (k, v) :: rest => if decide (k = key) then Some v else tableGet rest key
  end.

(** [staticColors?.has(hex)]. *)
Definition staticHas (staticColors : option (list HEX)) (hex : HEX) : bool :=
  match staticColors with
  | Some s => bool_decide (hex ∈ s)
  | None => false
  end.

(** The state of the pixel loop of one variant: the new bytes and the
    [missing] set (strings, so a [Set] drops repeated ones). *)
Definition LoopState : Type := list Z * list HEX.

Definition setAdd (s : list HEX) (x : HEX) : list HEX :=
  if decide (x ∈ s) then s else s ++ [x].

(** An element of the result of [hexToRgba]; [undefined] converts to NaN
    when it is stored. *)
Definition part (parts : list float) (k : nat) : float :=
  default PrimFloat.nan (parts !! k).

Section PixelLoop.
Variable imageData : list Z.
Variable palette : Palette.
Variable staticColors : option (list HEX).

(** The last two statements of the loop body: parse the new colour and
    store it. *)
Definition writeColor (i : nat) (newColor : HEX) (st : LoopState) : string + LoopState :=
  match hexToRgba newColor with
  | inl err => inl err
  | inr parts =>
      let newA := match parts !! 3%nat with Some x => x | None => 255%float end in
      inr (set st.1 i (part parts 0) (part parts 1) (part parts 2) newA, st.2)
  end.

(** The body of the loop over the pixels; [i] is the offset of the pixel's
    first byte. *)
Definition pixel (i : nat) (st : LoopState) : string + LoopState :=
  let r := Z2F (default 0 (imageData !! i)) in
  let g := Z2F (default 0 (imageData !! (i + 1)%nat)) in
  let b := Z2F (default 0 (imageData !! (i + 2)%nat)) in
  let a := Z2F (default 0 (imageData !! (i + 3)%nat)) in
  let hex := rgbaToHex r g b (Some a) in
  let newColor :=
    match palette with
    | UniformHue hue => Some (ToHue hue)
    | Table entries => tableGet entries hex
    end in
  let keepOrMiss :=
    if isNull staticColors || staticHas staticColors hex
    then inr (set st.1 i r g b a, st.2)
    else inr (st.1, setAdd st.2 hex) in
  match newColor with
  | Some (ToHue hue) =>
      if staticHas staticColors hex then inr (set st.1 i r g b a, st.2)
      else writeColor i (applyHue r g b a hue) st
  | Some (ToHex color) =>
      if bool_decide (color = "") then keepOrMiss else writeColor i color st
  | None => keepOrMiss
  end.

Fixpoint pixels (offsets : list nat) (st : LoopState) : string + LoopState :=
  match offsets with
  | [] => inr st
  | i :: rest =>
      match pixel i st with
      | inl err => inl err
      | inr st' => pixels rest st'
      end
  end.
End PixelLoop.

(** [type VariantName = number | string]; a numeric name is an integer
    below 10^21 in size, which is printed in decimal. *)
Inductive VariantName :=
  | NameNum (n : Z)
  | NameStr (s : string).

#[global] Instance VariantName_eq_dec : EqDecision VariantName.
Proof. solve_decision. Defined.

Definition nameToString (name : VariantName) : string :=
  match name with
  | NameNum n => toString10 n
  | NameStr s => s
  end.

Fixpoint lookupImage (images : list (VariantName * Image)) (name : VariantName)
  : option Image :=
  match images with
  | [] => None
  | (n, image) :: rest => if decide (n = name) then Some image else lookupImage rest name
  end.

Definition message (imageName : option string) (variant : VariantName)
    (missing : list HEX) : string :=
  "There is no mapping for " +:+ join missing +:+ " in the palette for "
  +:+ match imageName with
      | Some (String c n) => "image '" +:+ String c n +:+ "' "
      | _ => ""
      end
  +:+ " variant '" +:+ nameToString variant +:+ "'.".

Section Swap.
Variables (width height : nat).
Variable imageData : list Z.
Variable staticColors : option (list HEX).
Variable images : option (list (VariantName * Image)).
Variable imageName : option string.
Variable ignoreMissing : bool.

(** The offsets [0, 4, 8, ...] below [imageData.data.length]. *)
Definition offsets : list nat := (fun k => 4 * k)%nat <$> seq 0 ((length imageData + 3) / 4)%nat.

(** The body of the loop over the variants: [None] when the variant is left
    out of [results]. *)
Definition variant (name : VariantName) (palette : Palette)
  : string + option (VariantName * ImageData) :=
  match pixels imageData palette staticColors offsets
          (replicate (width * height * 4) 0, []) with
  | inl err => inl err
  | inr (bytes, missing) =>
      if negb ignoreMissing && negb (bool_decide (missing = []))
      then inl (message imageName name missing)
      else
        let newImageData := mkImageData width height bytes in
        match images ≫= fun m => lookupImage m name with
        | Some existingImage =>
            if equals newImageData (getImageData existingImage width height)
            then inr None
            else inr (Some (name, newImageData))
        | None => inr (Some (name, newImageData))
        end
  end.

Fixpoint variantsLoop (variants : list (VariantName * Palette))
  : string + list (VariantName * ImageData) :=
  match variants with
  | [] => inr []
  | (name, palette) :: rest =>
      match variant name palette with
      | inl err => inl err
      | inr r =>
          match variantsLoop rest with
          | inl err => inl err
          | inr rs => inr (match r with Some x => x :: rs | None => rs end)
          end
      end
  end.
End Swap.

Definition paletteSwap (image : Image) (variants : list (VariantName * Palette))
    (staticColors : option (list HEX)) (images : option (list (VariantName * Image)))
    (imageName : option string) (ignoreMissing : bool)
  : string + list (VariantName * ImageData) :=
  let width := img_width image in
  let height := img_height image in
  let imageData := data (getImageData image width height) in
  variantsLoop width height imageData staticColors images imageName ignoreMissing variants.

End HexKeyed.
(** ** Closed forms and example data used by the proofs *)

Module Closed.
Import JS Packed.

(** What one pixel stores for variant [i]: [Some w] when word [w] is stored,
    [None] when the pair is recorded as missing. *)
Definition stepValue (staticColorNumbers : option (gset Z)) (originalColor a color : Z)
    (isStatic : bool) (colors : option (list (option Z))) (i : nat) (v : Entry) : option Z :=
  if isStatic then Some originalColor
  else if hueTruthy v.2
  then Some (bor (shl a 24) (applyHue (int32ToRgb color) (default 0%float v.2)))
  else if numTruthy (arrayGet colors i) then Some (bor (shl a 24) (default 0 (arrayGet colors i)))
  else if isNull staticColorNumbers then Some originalColor
  else None.

Definition writeAt (index : nat) (w : option Z) (buf : list Z) : list Z :=
  match w with Some w => <[index := uint32 w]> buf | None => buf end.

(** The pairs one pixel adds to [missing]. *)
Fixpoint stepMissing (sc : option (gset Z)) (oc a color : Z) (isStatic : bool)
    (colors : option (list (option Z))) (i : nat) (vs : list Entry) : list (VariantName * Z) :=
  match vs with
  | [] => []
  | v :: vs' =>
      match stepValue sc oc a color isStatic colors i v with
      | Some _ => []
      | None => [(v.1, color)]
      end ++ stepMissing sc oc a color isStatic colors (S i) vs'
  end.

(** The alpha byte and the colour key the loop body computes from a word. *)
Definition alphaOf (originalColor : Z) : Z := band (sar originalColor 24) 255.
Definition keyOf (originalColor : Z) : Z := band originalColor 16777215.

Definition isStaticKey (sc : option (gset Z)) (color : Z) : bool :=
  match sc with
  | Some s => bool_decide (color ∈ s)
  | None => false
  end.

Definition colorsOf (palettes : gmap Z (list (option Z))) (sc : option (gset Z)) (color : Z)
  : option (list (option Z)) :=
  if isStaticKey sc color then None else palettes !! color.

(** What the pixel at [index] stores in the buffer of variant [i]; [None]
    when nothing is stored (a transparent pixel, or a missing pair). *)
Definition pixelValue (imageData : list Z) (palettes : gmap Z (list (option Z)))
    (sc : option (gset Z)) (index i : nat) (v : Entry) : option Z :=
  let oc := default 0 (imageData !! index) in
  if alphaOf oc =? 0 then None
  else stepValue sc oc (alphaOf oc) (keyOf oc) (isStaticKey sc (keyOf oc))
         (colorsOf palettes sc (keyOf oc)) i v.

(** The pairs the pixel at [index] adds to [missing]. *)
Definition pixelMissing (imageData : list Z) (variants : list Entry)
    (palettes : gmap Z (list (option Z))) (sc : option (gset Z)) (index : nat)
  : list (VariantName * Z) :=
  let oc := default 0 (imageData !! index) in
  if alphaOf oc =? 0 then []
  else stepMissing sc oc (alphaOf oc) (keyOf oc) (isStaticKey sc (keyOf oc))
         (colorsOf palettes sc (keyOf oc)) 0 variants.

(** The pixel loop over a list of indices. *)
Definition pixelsOver (imageData : list Z) (variants : list Entry)
    (palettes : gmap Z (list (option Z))) (sc : option (gset Z)) (l : list nat) (st : State)
  : State :=
  foldl (fun st index => pixel imageData variants palettes sc index st) st l.

(** The indices of row [y], and of the rows [ys], in the order the loops
    visit them. *)
Definition rowIndices (width y : nat) : list nat := (fun x => y * width + x)%nat <$> seq 0 width.
Definition allIndices (width : nat) (ys : list nat) : list nat := ys ≫= rowIndices width.

(** Position [j] of the input holds a colour table. *)
Definition tableAt (input : list (VariantName * Palette)) (j : nat) : Prop :=
  exists name entries, input !! j = Some (name, Table entries).

(** Every filled slot of every replacement array belongs to a table. *)
Definition slotsFromTables (input : list (VariantName * Palette))
    (palettes : gmap Z (list (option Z))) : Prop :=
  forall k arr j c, palettes !! k = Some arr -> arr !! j = Some (Some c) -> tableAt input j.

(** The 256 channel values, as numbers and as integers. *)
Definition byteNumbers : list float :=
  Eval vm_compute in (fun n => Z2F (Z.of_nat n)) <$> seq 0 256.

Definition byteValues : list Z := Eval vm_compute in Z.of_nat <$> seq 0 256.

(** [x] is within 1 of the channel value [c]. *)
Definition near (x c : float) : bool :=
  (PrimFloat.leb (c - 1) x && PrimFloat.leb x (c + 1))%float.

Definition roundTripNear (r g b : float) : bool :=
  let out := HexKeyed.hslToRgb (HexKeyed.rgbToHsl (r, g, b)) in
  near out.1.1 r && near out.1.2 g && near out.2 b.

(** The word whose three colour bytes are [v]. *)
Definition gray (v : Z) : Z := v * 2 ^ 16 + v * 2 ^ 8 + v.

(** A channel value scaled to [0, 1]. *)
Definition unitOf (v : Z) : float := (Z2F v / 255)%float.

Definition grayPacked (v : Z) : bool :=
  let x := unitOf v in
  let min := Math_min x x x in
  let max := Math_max x x x in
  PrimFloat.eqb (Packed.saturation min max) 0
  && (let val := (Packed.lightness min max * 255)%float in
      Packed.pack3 val val val =? gray v)
  && bool_decide (Packed.int32ToRgb (gray v) = (v, v, v)).

Definition grayHex (v : Z) : bool :=
  let x := Z2F v in
  let hsl := HexKeyed.rgbToHsl (x, x, x) in
  PrimFloat.eqb (hsl.1.2 / 100) 0
  && (let val := (hsl.2 / 100 * 255)%float in
      String.eqb (HexKeyed.rgbaToHex val val val None) (HexKeyed.rgbaToHex x x x None)).

Definition hexDigit (n : Z) : ascii :=
  default "0"%char (list_ascii_of_string "0123456789abcdef" !! Z.to_nat n).

(** The two hex digits of a byte, high digit first. *)
Definition twoDigits (n : Z) : string :=
  String (hexDigit (n / 16)) (String (hexDigit (n mod 16)) EmptyString).

(** A number that is finite and rounds to a byte. *)
Definition roundsToByte (x : float) : Prop :=
  PrimFloat.is_nan x = false /\ PrimFloat.is_infinity x = false /\ 0 <= Math_round x < 256.

(** Two adjacent word characters somewhere in the string. *)
Definition hasWordPair (s : string) : Prop :=
  exists pre c1 c2 post,
    s = (pre +:+ String c1 (String c2 post))%string /\ isWord c1 = true /\ isWord c2 = true.

(** A hex string made of whole byte pairs: [#], then a positive even number
    of hex digits. *)
Fixpoint hexPairs (s : string) : bool :=
  match s with
  | String c1 (String c2 rest) =>
      bool_decide (is_Some (hexDigitValue c1)) && bool_decide (is_Some (hexDigitValue c2))
      && match rest with EmptyString => true | _ => hexPairs rest end
  | _ => false
  end.

Definition wholeBytePairs (s : string) : bool :=
  match s with
  | String "#"%char body => hexPairs body
  | _ => false
  end.

(** The key the pixel loop of the string-keyed engine looks up for the pixel
    at byte offset [i]. *)
Definition keyAt (imageData : list Z) (i : nat) : string :=
  HexKeyed.rgbaToHex (Z2F (default 0 (imageData !! i)))
    (Z2F (default 0 (imageData !! (i + 1)%nat)))
    (Z2F (default 0 (imageData !! (i + 2)%nat)))
    (Some (Z2F (default 0 (imageData !! (i + 3)%nat)))).

(** The target the table [entries] gives the key [k]: the packed value of
    the last entry whose key packs to [k]. *)
Fixpoint lastEntry (entries : list (HEX * HEX)) (k : Z) : option Z :=
  match entries with
  | [] => None
  | kv :: rest =>
      match lastEntry rest k with
      | Some c => Some c
      | None => if decide (hexToInt32 kv.1 = k) then Some (hexToInt32 kv.2) else None
      end
  end.

(** The mantissa and exponent of the number [Zpos p], for [p] below 2^53. *)
Definition mantissaOf (p : positive) : positive :=
  match (53 - Zpos (digits2_pos p))%Z with
  | Zpos k => Pos.iter xO p k
  | _ => p
  end.

Definition alphaShown (a : Z) : bool :=
  Bool.eqb (truthy (Z2F a) && negb (PrimFloat.eqb (Z2F a) 255))
           (negb (a =? 0) && negb (a =? 255)).

(** The text of a colour in lowercase hex digits: [#rrggbb], followed by the
    two digits of alpha when one is given. *)
Definition colorText (r g b : Z) (a : option Z) : string :=
  ("#" +:+ twoDigits r +:+ twoDigits g +:+ twoDigits b
   +:+ match a with Some x => twoDigits x | None => "" end)%string.

Definition clampsToSelf (n : Z) : bool := ToUint8Clamp (Z2F n) =? n.

(** The word a [Uint32Array] shows for the four bytes of a pixel. *)
Definition wordOf (px : list Z) : Z :=
  match px with
  | [b0; b1; b2; b3] => b0 + 2 ^ 8 * b1 + 2 ^ 16 * b2 + 2 ^ 24 * b3
  | _ => 0
  end.

(** A finite positive number as an integer: its value times 2^1074. *)
Definition scaled (m : positive) (e : Z) : Z := Zpos m * 2 ^ (e + 1074).

(** The branch the loop of [applyHue] takes for a channel: it depends on
    the hue and the channel alone. *)
Inductive Ramp :=
  | Rising (t3 : float)
  | Top
  | Falling (t3 : float)
  | Bottom.

Definition rampOf (h i : float) : Ramp :=
  (let t3 := h + (1 / 3) * - (2 - i - 1) in
   let t3 := if t3 <? 0 then t3 + 1 else t3 in
   let t3 := if 1 <? t3 then t3 - 1 else t3 in
   if 6 * t3 <? 1 then Rising t3
   else if 2 * t3 <? 1 then Top
   else if 3 * t3 <? 2 then Falling t3
   else Bottom)%float.

Definition blend (r : Ramp) (t1 t2 : float) : float :=
  (match r with
   | Rising t3 => t1 + (t2 - t1) * 6 * t3
   | Top => t2
   | Falling t3 => t1 + (t2 - t1) * (2 / 3 - t3) * 6
   | Bottom => t1
   end * 255)%float.

(** What [applyHue] keeps of a colour: the value of a gray, or [t1] and
    [t2]; it depends on the smallest and largest channel alone. *)
Inductive Tint :=
  | Gray (val : float)
  | Tints (t1 t2 : float).

Definition tintOf (min max : float) : Tint :=
  (let s := saturation min max in
   let l := lightness min max in
   if s =? 0 then Gray (l * 255)
   else
     let t2 := if l <? 0.5 then l * (1 + s) else l + s - l * s in
     let t1 := 2 * l - t2 in
     Tints t1 t2)%float.

Definition shade (r : Ramp) (t : Tint) : float :=
  match t with
  | Gray v => v
  | Tints t1 t2 => blend r t1 t2
  end.

(** The channel values scaled to [0, 1]; the tints of the pairs of channel
    values, by their difference and then by the smaller one; the integers
    from -1 to 256; the hues 0 to 360 as [applyHue] scales them. *)
Definition unitNumbers : list float :=
  Eval vm_compute in (fun x => (x / 255)%float) <$> byteNumbers.

Definition tintRows : list (list Tint) :=
  Eval vm_compute in
    (fun d => zip_with tintOf unitNumbers (drop d unitNumbers)) <$> seq 0 256.

Definition boundNumbers : list float :=
  Eval vm_compute in (fun n => Z2F (Z.of_nat n - 1)) <$> seq 0 258.

Definition hueNumbers : list float :=
  Eval vm_compute in (fun n => (Z2F (Z.of_nat n) / 360)%float) <$> seq 0 361.

(** [u] is at most [v], as [Math.min] and [Math.max] see them. *)
Definition inOrder (u v : float) : bool :=
  PrimFloat.Leibniz.eqb (min2 u v) u && PrimFloat.Leibniz.eqb (min2 v u) u
  && PrimFloat.Leibniz.eqb (max2 u v) v && PrimFloat.Leibniz.eqb (max2 v u) v.

Fixpoint ascending (l : list float) : bool :=
  match l with
  | [] => true
  | u :: rest => forallb (inOrder u) (u :: rest) && ascending rest
  end.

(** The colour of hue [H] degrees whose smallest and largest channels are
    [lo] and [hi], which is the colour of that hue with the lightness and
    the saturation of any colour having these two: a channel is [lo], [hi],
    or on the line between them, [offsetOf p] sixtieths of the way, where
    [p] is the hue as the channel sees it.  [rotated60] is sixty times the
    channel [c] (0 red, 1 green, 2 blue). *)
Definition offsetOf (p : Z) : Z :=
  if p <? 60 then p else if p <=? 180 then 60 else if p <? 240 then 240 - p else 0.

Definition rotated60 (H lo hi c : Z) : Z :=
  60 * lo + (hi - lo) * offsetOf ((H + 120 * (1 - c)) mod 360).

(** The byte [c] is the exact value [x60 / 60] with its fraction dropped,
    or one less when the exact value is whole. *)
Definition roundedDown (c x60 : Z) : Prop :=
  0 <= c < 256 /\ 60 * c <= x60 <= 60 * c + 60.

(** The check of one ramp against the tints of a row: each value lies
    strictly between its two bounds. *)
Fixpoint walk (r : Ramp) (lows highs : list float) (row : list Tint) : bool :=
  match row, lows, highs with
  | [], _, _ => true
  | t :: row', a :: lows', b :: highs' =>
      let v := shade r t in
      PrimFloat.ltb a v && PrimFloat.ltb v b && walk r lows' highs' row'
  | _, _, _ => false
  end.

Fixpoint checkRows (r : Ramp) (m d : Z) (rows : list (list Tint)) : bool :=
  match rows with
  | [] => true
  | row :: rest =>
      let q := d * m in
      walk r (drop (Z.to_nat ((q + 59) / 60)) boundNumbers)
             (drop (Z.to_nat (q / 60 + 2)) boundNumbers) row
      && checkRows r m (d + 1) rest
  end.

Definition channelOk (H : Z) (h : float) (i : Z) (fi : float) : bool :=
  let m := offsetOf ((H + 120 * (i - 1)) mod 360) in
  match rampOf h fi with
  | Top => m =? 60
  | Bottom => m =? 0
  | r => checkRows r m 0 tintRows
  end.

Fixpoint huesOk (H : Z) (hs : list float) : bool :=
  match hs with
  | [] => true
  | h :: rest =>
      channelOk H h 0 0 && channelOk H h 1 1 && channelOk H h 2 2 && huesOk (H + 1) rest
  end.

End Closed.

(** Example inputs.  Words are written in the order AABBGGRR of their
    bytes. *)
Module Examples.
Import JS Packed.

Definition opaqueRed : Z := 4278190335.
Definition opaqueGreen : Z := 4278255360.
Definition opaqueBlack : Z := 4278190080.

Definition twoVariants : list (VariantName * Palette) :=
  [(NameNum 2, Table [("#ff0000", "#0000ff")]); (NameNum 3, UniformHue 220)].

Definition blackStatic : option (gset Z) := Some {[0]}.

Definition afterStatic : State :=
  {| buffers := [[4278190080; 4294901760]; [4278190080; 4294923264]]; missing := [] |}.

Definition afterClear : State :=
  {| buffers := [[0; 4294901760]; [0; 4294923264]]; missing := [] |}.

Definition afterHue : State :=
  {| buffers := [[4294901760; 4278190080]; [4294923264; 4278190080]]; missing := [] |}.

Definition badTable : list (HexKeyed.VariantName * HexKeyed.Palette) :=
  [(HexKeyed.NameNum 2, HexKeyed.Table [("#ff0000", HexKeyed.ToHex "#q")])].

Definition lenientGreen : State :=
  {| buffers := [[0]; [4294923264]]; missing := [(NameNum 2, 65280)] |}.

Definition redPixel : Image := mkImage 1 1 [255; 0; 0; 255].

Definition redPixelData : ImageData := mkImageData 1 1 [255; 0; 0; 255].

Definition bluePixelData : ImageData := mkImageData 1 1 [0; 0; 255; 255].

Definition redToBlue : list (HexKeyed.VariantName * HexKeyed.Palette) :=
  [(HexKeyed.NameNum 2, HexKeyed.Table [("#ff0000", HexKeyed.ToHex "#0000ff")])].

Definition transparentBlue : Image := mkImage 2 1 [0; 0; 255; 0; 255; 0; 0; 255].

Definition belowRange : list (VariantName * Palette) := [(NameNum 3, UniformHue (-500))].

Definition faintRed : Z := 16777471.

End Examples.

#[global] Arguments Packed.applyHue : simpl never.
#[global] Arguments Packed.hexToInt32 : simpl never.
#[global] Arguments Packed.int32ToRgb : simpl never.
#[global] Arguments Packed.variantStep : simpl never.
#[global] Arguments Packed.pixel : simpl never.
#[global] Arguments JS.band : simpl never.
#[global] Arguments JS.bor : simpl never.
#[global] Arguments JS.shl : simpl never.
#[global] Arguments JS.sar : simpl never.
#[global] Arguments JS.uint32 : simpl never.
#[global] Arguments HexKeyed.applyHue : simpl never.
#[global] Arguments HexKeyed.rgbaToHex : simpl never.
#[global] Arguments HexKeyed.hexToRgba : simpl never.
#[global] Arguments HexKeyed.pixel : simpl never.
#[global] Arguments HexKeyed.variant : simpl never.

Ltac rounds_to_byte :=
  split; [reflexivity|split; [reflexivity|vm_compute; split; [discriminate|reflexivity]]].

Ltac each_ascii c := destruct c as [[] [] [] [] [] [] [] []].
(** ** Verification *)

Import JS Packed Closed Examples.

(** *** Facts about the pixel loop of the packed engine *)

Lemma store_missing i index v st : missing (store i index v st) = missing st.
Proof. reflexivity. Qed.

Lemma addMissing_buffers name color st : buffers (addMissing name color st) = buffers st.
Proof. reflexivity. Qed.

Lemma variantStep_value sc index oc a color isStatic colors i v st :
  variantStep sc index oc a color isStatic colors i v st =
  match stepValue sc oc a color isStatic colors i v with
  | Some w => store i index w st
  | None => addMissing v.1 color st
  end.
Proof.
  unfold variantStep, stepValue.
  destruct isStatic; [done|].
  destruct (hueTruthy v.2); [done|].
  destruct (numTruthy (arrayGet colors i)); [done|].
  by destruct (isNull sc).
Qed.

Lemma stepResult_other sc index oc a color isStatic colors i v st j :
  j <> i ->
  buffers (variantStep sc index oc a color isStatic colors i v st) !! j = buffers st !! j.
Proof.
  intros Hne. rewrite variantStep_value.
  destruct (stepValue sc oc a color isStatic colors i v); simpl; [|done].
  by rewrite list_lookup_alter_ne.
Qed.

Lemma variantsLoop_outside sc index oc a color isStatic colors vs :
  forall i0 st j,
    (j < i0 \/ i0 + length vs <= j)%nat ->
    buffers (variantsLoop sc index oc a color isStatic colors i0 vs st) !! j = buffers st !! j.
Proof.
  induction vs as [|v vs IH]; intros i0 st j Hj; simpl in *; [done|].
  rewrite IH by lia. apply stepResult_other. lia.
Qed.

Lemma variantsLoop_buffers sc index oc a color isStatic colors vs :
  forall i0 st k v,
    vs !! k = Some v ->
    buffers (variantsLoop sc index oc a color isStatic colors i0 vs st) !! (i0 + k)%nat =
    writeAt index (stepValue sc oc a color isStatic colors (i0 + k) v) <$> buffers st !! (i0 + k)%nat.
Proof.
  induction vs as [|v0 vs IH]; intros i0 st k v Hk; [done|].
  destruct k as [|k]; simpl in *.
  - injection Hk as ->. rewrite Nat.add_0_r.
    rewrite variantsLoop_outside by lia.
    rewrite variantStep_value.
    destruct (stepValue sc oc a color isStatic colors i0 v) as [w|]; simpl.
    + by rewrite list_lookup_alter_eq.
    + by destruct (buffers st !! i0).
  - replace (i0 + S k)%nat with (S i0 + k)%nat by lia.
    rewrite (IH _ _ _ _ Hk). f_equal. apply stepResult_other. lia.
Qed.

Lemma variantsLoop_length sc index oc a color isStatic colors vs :
  forall i0 st,
    length (buffers (variantsLoop sc index oc a color isStatic colors i0 vs st)) = length (buffers st).
Proof.
  induction vs as [|v vs IH]; intros i0 st; simpl; [done|].
  rewrite IH, variantStep_value.
  destruct (stepValue sc oc a color isStatic colors i0 v); simpl; [|done].
  by rewrite length_alter.
Qed.

Lemma variantsLoop_missing sc index oc a color isStatic colors vs :
  forall i0 st,
    missing (variantsLoop sc index oc a color isStatic colors i0 vs st) =
    missing st ++ stepMissing sc oc a color isStatic colors i0 vs.
Proof.
  induction vs as [|v vs IH]; intros i0 st; simpl.
  { by rewrite app_nil_r. }
  rewrite IH, variantStep_value.
  destruct (stepValue sc oc a color isStatic colors i0 v); simpl; [done|].
  by rewrite <- app_assoc.
Qed.

Section PixelFacts.
Context (imageData : list Z) (variants : list Entry).
Context (palettes : gmap Z (list (option Z))) (sc : option (gset Z)).

Local Abbreviation valueAt := (pixelValue imageData palettes sc).
Local Abbreviation missingAt := (pixelMissing imageData variants palettes sc).
Local Abbreviation over := (pixelsOver imageData variants palettes sc).

Lemma pixel_buffers index st i v :
  variants !! i = Some v ->
  buffers (pixel imageData variants palettes sc index st) !! i =
  writeAt index (valueAt index i v) <$> buffers st !! i.
Proof.
  intros Hv. unfold pixel, pixelValue.
  fold (alphaOf (default 0 (imageData !! index))).
  destruct (alphaOf (default 0 (imageData !! index)) =? 0).
  { simpl. by destruct (buffers st !! i). }
  fold (keyOf (default 0 (imageData !! index))).
  fold (isStaticKey sc (keyOf (default 0 (imageData !! index)))).
  fold (colorsOf palettes sc (keyOf (default 0 (imageData !! index)))).
  exact (variantsLoop_buffers _ _ _ _ _ _ _ _ 0%nat st i v Hv).
Qed.

Lemma pixel_missing index st :
  missing (pixel imageData variants palettes sc index st) = missing st ++ missingAt index.
Proof.
  unfold pixel, pixelMissing.
  fold (alphaOf (default 0 (imageData !! index))).
  destruct (alphaOf (default 0 (imageData !! index)) =? 0).
  { by rewrite app_nil_r. }
  apply variantsLoop_missing.
Qed.

Lemma pixel_length index st :
  length (buffers (pixel imageData variants palettes sc index st)) = length (buffers st).
Proof.
  unfold pixel. destruct (band (sar (default 0 (imageData !! index)) 24) 255 =? 0); [done|].
  apply variantsLoop_length.
Qed.

Lemma pixelsOver_cons index l st :
  over (index :: l) st = over l (pixel imageData variants palettes sc index st).
Proof. reflexivity. Qed.

Lemma pixelsOver_buffers l : forall st i v,
  variants !! i = Some v ->
  buffers (over l st) !! i =
  (fun buf => foldl (fun buf index => writeAt index (valueAt index i v) buf) buf l)
    <$> buffers st !! i.
Proof.
  induction l as [|index l IH]; intros st i v Hv.
  { cbn [foldl]. change (over [] st) with st. by destruct (buffers st !! i). }
  rewrite pixelsOver_cons, (IH _ _ _ Hv), (pixel_buffers _ _ _ _ Hv).
  cbn [foldl]. by destruct (buffers st !! i).
Qed.

Lemma pixelsOver_missing l : forall st,
  missing (over l st) = missing st ++ (l ≫= missingAt).
Proof.
  induction l as [|index l IH]; intros st.
  { change (over [] st) with st. change ([] ≫= missingAt) with (@nil (VariantName * Z)).
    by rewrite app_nil_r. }
  rewrite pixelsOver_cons, IH, pixel_missing.
  change ((index :: l) ≫= missingAt) with (missingAt index ++ (l ≫= missingAt)).
  by rewrite <- app_assoc.
Qed.

Lemma pixelsOver_app l1 l2 st : over (l1 ++ l2) st = over l2 (over l1 st).
Proof. apply foldl_app. Qed.

End PixelFacts.

Lemma writeAt_length index w buf : length (writeAt index w buf) = length buf.
Proof. destruct w; simpl; [apply length_insert|done]. Qed.

Lemma foldl_writeAt_length (f : nat -> option Z) l : forall buf,
  length (foldl (fun buf index => writeAt index (f index) buf) buf l) = length buf.
Proof.
  induction l as [|k l IH]; intros buf; simpl; [done|].
  by rewrite IH, writeAt_length.
Qed.

Lemma foldl_writeAt_notin (f : nat -> option Z) l : forall buf idx,
  idx ∉ l ->
  foldl (fun buf index => writeAt index (f index) buf) buf l !! idx = buf !! idx.
Proof.
  induction l as [|k l IH]; intros buf idx Hn; simpl; [done|].
  apply not_elem_of_cons in Hn as [Hne Hn].
  rewrite IH by done. destruct (f k); simpl; [|done].
  by rewrite list_lookup_insert_ne.
Qed.

Lemma foldl_writeAt_in (f : nat -> option Z) l : forall buf idx,
  idx ∈ l -> (idx < length buf)%nat ->
  foldl (fun buf index => writeAt index (f index) buf) buf l !! idx =
  match f idx with
  | Some w => Some (uint32 w)
  | None => buf !! idx
  end.
Proof.
  induction l as [|k l IH]; intros buf idx Hin Hlen; simpl.
  { by apply elem_of_nil in Hin. }
  destruct (decide (idx ∈ l)) as [Hl|Hl].
  - rewrite IH by (by rewrite ?writeAt_length).
    destruct (f idx) eqn:Hf; [done|].
    destruct (decide (k = idx)) as [->|Hne].
    + by rewrite Hf.
    + destruct (f k); simpl; [|done]. by rewrite list_lookup_insert_ne.
  - apply elem_of_cons in Hin as [->|Hin]; [|done].
    rewrite foldl_writeAt_notin by done.
    destruct (f k); simpl; [|done].
    by rewrite list_lookup_insert_eq.
Qed.

Section ScanFacts.
Context (width height : nat) (imageData : list Z) (variants : list Entry).
Context (palettes : gmap Z (list (option Z))) (sc : option (gset Z)).
Context (imageName : option string) (ignoreMissing : bool).

Lemma row_pixelsOver y st :
  row width imageData variants palettes sc y st =
  pixelsOver imageData variants palettes sc (rowIndices width y) st.
Proof.
  unfold row, pixelsOver, rowIndices.
  generalize (seq 0 width) st. intros l. induction l as [|x l IH]; intros s; [done|].
  cbn [fmap list_fmap foldl]. apply IH.
Qed.

Lemma rows_inr ys : forall st st',
  rows width imageData variants palettes sc imageName ignoreMissing ys st = inr st' ->
  st' = pixelsOver imageData variants palettes sc (allIndices width ys) st.
Proof.
  induction ys as [|y ys IH]; intros st st' H; cbn [rows] in H.
  { apply (inj inr) in H. by subst st'. }
  destruct (negb ignoreMissing && _); [done|].
  apply IH in H. rewrite H. unfold allIndices. cbn [mbind list_bind].
  by rewrite pixelsOver_app, row_pixelsOver.
Qed.

Lemma elem_of_allIndices idx :
  (idx < width * height)%nat -> idx ∈ allIndices width (seq 0 height).
Proof.
  intros Hlt. unfold allIndices.
  assert (Hw : (0 < width)%nat) by (destruct width; lia).
  apply list_elem_of_bind. exists (idx / width)%nat. split.
  - unfold rowIndices. apply list_elem_of_fmap. exists (idx mod width)%nat. split.
    + rewrite (Nat.div_mod idx width) at 1 by lia. lia.
    + apply elem_of_seq. split; [lia|]. simpl. apply Nat.mod_upper_bound. lia.
  - apply elem_of_seq. split; [lia|]. simpl.
    apply Nat.Div0.div_lt_upper_bound. lia.
Qed.

Lemma initial_buffers i v :
  variants !! i = Some v ->
  buffers (initial width height variants) !! i = Some (replicate (width * height) 0).
Proof.
  intros Hv. unfold initial. simpl. apply lookup_replicate_2.
  by apply lookup_lt_Some in Hv.
Qed.

(** The closed form of a successful scan: every word of every buffer is
    what its own pixel stored, or the initial 0. *)
Lemma scan_buffers st i v idx :
  scan width height imageData variants palettes sc imageName ignoreMissing = inr st ->
  variants !! i = Some v ->
  (idx < width * height)%nat ->
  exists buf,
    buffers st !! i = Some buf /\
    buf !! idx = Some (match pixelValue imageData palettes sc idx i v with
                       | Some w => uint32 w
                       | None => 0
                       end).
Proof.
  intros Hscan Hv Hidx. unfold scan in Hscan. apply rows_inr in Hscan. subst st.
  rewrite (pixelsOver_buffers _ _ _ _ _ _ _ _ Hv), (initial_buffers _ _ Hv).
  cbn [fmap option_fmap option_map].
  eexists. split; [done|].
  rewrite foldl_writeAt_in.
  - destruct (pixelValue imageData palettes sc idx i v); [done|].
    apply lookup_replicate_2. lia.
  - by apply elem_of_allIndices.
  - by rewrite length_replicate.
Qed.

Lemma scan_missing st :
  scan width height imageData variants palettes sc imageName ignoreMissing = inr st ->
  missing st = allIndices width (seq 0 height) ≫= pixelMissing imageData variants palettes sc.
Proof.
  intros Hscan. unfold scan in Hscan. apply rows_inr in Hscan. subst st.
  by rewrite pixelsOver_missing.
Qed.

End ScanFacts.

(** *** Arithmetic of the bit operators *)

Lemma int32_small z : - 2 ^ 31 <= z < 2 ^ 31 -> int32 z = z.
Proof. intros H. unfold int32. rewrite Z.mod_small; lia. Qed.

Lemma int32_range z : - 2 ^ 31 <= int32 z < 2 ^ 31.
Proof. unfold int32. pose proof (Z.mod_pos_bound (z + 2 ^ 31) (2 ^ 32)). lia. Qed.

Lemma int32_mod z : int32 z mod 2 ^ 32 = z mod 2 ^ 32.
Proof.
  unfold int32.
  replace ((z + 2 ^ 31) mod 2 ^ 32 - 2 ^ 31) with ((z + 2 ^ 31) mod 2 ^ 32 + - 2 ^ 31) by lia.
  rewrite Zplus_mod_idemp_l. f_equal. lia.
Qed.

Lemma land_ones_low x n : 0 <= n -> Z.land x (2 ^ n - 1) = x mod 2 ^ n.
Proof.
  intros Hn. rewrite <- Z.land_ones by done. f_equal. rewrite Z.ones_equiv. lia.
Qed.

Lemma mod_mod_pow x m n : 0 <= m <= n -> (x mod 2 ^ n) mod 2 ^ m = x mod 2 ^ m.
Proof.
  intros H. apply Z.mod_mod_divide.
  exists (2 ^ (n - m)). rewrite <- Z.pow_add_r by lia. f_equal. lia.
Qed.

(** [x & m] for a mask [m = 2^n - 1] below 2^31. *)
Lemma band_mask x n : 0 <= n < 31 -> band x (2 ^ n - 1) = x mod 2 ^ n.
Proof.
  intros Hn. unfold band.
  assert (0 < 2 ^ n <= 2 ^ 30) by (split; [lia|apply Z.pow_le_mono_r; lia]).
  rewrite (int32_small (2 ^ n - 1)) by lia.
  rewrite land_ones_low by lia.
  rewrite <- (mod_mod_pow (int32 x) n 32) by lia.
  rewrite int32_mod. apply mod_mod_pow. lia.
Qed.

Lemma keyOf_mod oc : band oc 16777215 = oc mod 2 ^ 24.
Proof. exact (band_mask oc 24 ltac:(lia)). Qed.

Lemma alphaOf_div oc : 0 <= oc < 2 ^ 32 -> band (sar oc 24) 255 = oc / 2 ^ 24.
Proof.
  intros Hoc. rewrite (band_mask _ 8 ltac:(lia)).
  unfold sar. rewrite Z.shiftr_div_pow2 by lia.
  unfold int32.
  destruct (decide (oc < 2 ^ 31)) as [Hlt|Hge].
  - rewrite (Z.mod_small (oc + 2 ^ 31)) by lia.
    replace (oc + 2 ^ 31 - 2 ^ 31) with oc by lia.
    apply Z.mod_small. split; [apply Z.div_pos; lia|].
    apply Z.div_lt_upper_bound; lia.
  - replace ((oc + 2 ^ 31) mod 2 ^ 32) with (oc - 2 ^ 31).
    2:{ apply (Z.mod_unique _ _ 1); lia. }
    replace (oc - 2 ^ 31 - 2 ^ 31) with (oc + (-256) * 2 ^ 24) by lia.
    rewrite Z.div_add by lia.
    replace (oc / 2 ^ 24 + -256) with (oc / 2 ^ 24 + (-1) * 2 ^ 8) by lia.
    rewrite Z.mod_add by lia.
    apply Z.mod_small. split; [apply Z.div_pos; lia|].
    apply Z.div_lt_upper_bound; lia.
Qed.

Lemma land_shiftl_low a n r : 0 <= n -> 0 <= r < 2 ^ n -> Z.land (Z.shiftl a n) r = 0.
Proof.
  intros Hn Hr. apply Z.bits_inj'. intros k Hk.
  rewrite Z.land_spec, Z.bits_0.
  destruct (decide (k < n)) as [Hlt|Hge].
  - rewrite Z.shiftl_spec_low by lia. done.
  - destruct (decide (r = 0)) as [->|Hne]; [by rewrite Z.bits_0, andb_false_r|].
    rewrite (Z.bits_above_log2 r k); [by rewrite andb_false_r|lia|].
    apply Z.log2_lt_pow2; [lia|].
    apply Z.lt_le_trans with (2 ^ n); [lia|]. apply Z.pow_le_mono_r; lia.
Qed.

Lemma lor_shiftl_low a n r : 0 <= n -> 0 <= r < 2 ^ n -> Z.lor (Z.shiftl a n) r = a * 2 ^ n + r.
Proof.
  intros Hn Hr. rewrite <- Z.lxor_lor by (by apply land_shiftl_low).
  rewrite <- Z.add_nocarry_lxor by (by apply land_shiftl_low).
  by rewrite Z.shiftl_mul_pow2.
Qed.

(** [(a << 24) | c] stored in a [Uint32Array], for a byte [a] and 24 bits
    [c]: alpha on top of the colour. *)
Lemma pack_alpha a c :
  0 <= a < 256 -> 0 <= c < 2 ^ 24 -> uint32 (bor (shl a 24) c) = a * 2 ^ 24 + c.
Proof.
  intros Ha Hc. unfold uint32, bor, shl.
  rewrite (int32_small a) by lia. rewrite (int32_small c) by lia.
  rewrite <- Z.land_ones by lia. rewrite Z.land_lor_distr_l.
  rewrite !Z.land_ones by lia. rewrite !int32_mod.
  rewrite Z.shiftl_mul_pow2 by lia.
  rewrite (Z.mod_small (a * 2 ^ 24)) by lia. rewrite (Z.mod_small c) by lia.
  rewrite <- (lor_shiftl_low a 24 c) by lia. by rewrite Z.shiftl_mul_pow2 by lia.
Qed.

Lemma unpack_alpha a c :
  0 <= a < 256 -> 0 <= c < 2 ^ 24 ->
  (a * 2 ^ 24 + c) / 2 ^ 24 = a /\ (a * 2 ^ 24 + c) mod 2 ^ 24 = c.
Proof.
  intros Ha Hc. split.
  - rewrite Z.add_comm, Z.div_add by lia. rewrite Z.div_small; lia.
  - rewrite Z.add_comm, Z.mod_add by lia. apply Z.mod_small; lia.
Qed.

Lemma uint32_small z : 0 <= z < 2 ^ 32 -> uint32 z = z.
Proof. intros H. apply Z.mod_small. lia. Qed.

(** *** The palette compiler never fills the slot of a uniform-hue variant *)

Lemma arraySet_lookup v i x j c :
  arraySet v i x !! j = Some (Some c) -> j = i \/ v !! j = Some (Some c).
Proof.
  unfold arraySet. destruct (decide (i < length v)%nat) as [Hlt|Hge].
  - destruct (decide (j = i)) as [->|Hne]; [by left|].
    rewrite list_lookup_insert_ne by done. by right.
  - intros H. destruct (decide (j < length v)%nat) as [Hj|Hj].
    + rewrite lookup_app_l in H by done. by right.
    + rewrite lookup_app_r in H by lia.
      destruct (decide (j - length v < i - length v)%nat) as [Hin|Hout].
      * rewrite lookup_app_l in H by (by rewrite length_replicate).
        apply lookup_replicate in H as [H _]. done.
      * rewrite lookup_app_r in H by (rewrite length_replicate; lia).
        rewrite length_replicate in H.
        destruct (j - length v - (i - length v))%nat as [|n] eqn:E; [left; lia|].
        by destruct n.
Qed.

Lemma addEntry_slots input i palettes kv :
  tableAt input i -> slotsFromTables input palettes ->
  slotsFromTables input (addEntry i palettes kv).
Proof.
  intros Hi Hinv k arr j c Hk Hj. unfold addEntry in Hk.
  destruct (decide (hexToInt32 kv.1 = k)) as [<-|Hne].
  - rewrite lookup_insert_eq in Hk. apply (inj Some) in Hk. subst arr.
    apply arraySet_lookup in Hj as [->|Hj]; [done|].
    destruct (palettes !! hexToInt32 kv.1) as [arr0|] eqn:E; simpl in Hj.
    + by apply (Hinv _ _ _ _ E Hj).
    + by rewrite lookup_nil in Hj.
  - rewrite lookup_insert_ne in Hk by done. by apply (Hinv _ _ _ _ Hk Hj).
Qed.

Lemma foldl_addEntry_slots input i entries : forall palettes,
  tableAt input i -> slotsFromTables input palettes ->
  slotsFromTables input (foldl (addEntry i) palettes entries).
Proof.
  induction entries as [|kv entries IH]; intros palettes Hi Hinv; simpl; [done|].
  apply IH; [done|]. by apply addEntry_slots.
Qed.

Lemma compile_slots input rest : forall i0 palettes,
  (forall j, rest !! j = input !! (i0 + j)%nat) ->
  slotsFromTables input palettes ->
  slotsFromTables input (compile i0 rest palettes).
Proof.
  induction rest as [|[name p] rest IH]; intros i0 palettes Hrest Hinv; simpl; [done|].
  assert (Hnext : forall j, rest !! j = input !! (S i0 + j)%nat).
  { intros j. specialize (Hrest (S j)). simpl in Hrest. rewrite Hrest. f_equal. lia. }
  destruct p as [entries|hue].
  - apply IH; [done|]. apply foldl_addEntry_slots; [|done].
    exists name, entries. specialize (Hrest 0%nat). simpl in Hrest.
    rewrite Nat.add_0_r in Hrest. done.
  - by apply IH.
Qed.

Lemma compile_uniform_slot input i name hue key :
  input !! i = Some (name, UniformHue hue) ->
  arrayGet (compile 0 input ∅ !! key) i = None.
Proof.
  intros Hi.
  assert (Hinv : slotsFromTables input (compile 0 input ∅)).
  { apply compile_slots; [done|]. intros k arr j c Hk. by rewrite lookup_empty in Hk. }
  unfold arrayGet. destruct (compile 0 input ∅ !! key) as [arr|] eqn:E; simpl; [|done].
  destruct (arr !! i) as [[c|]|] eqn:Ei; simpl; try done.
  destruct (Hinv _ _ _ _ E Ei) as (n & es & Hn). congruence.
Qed.

(** *** Facts about the pairs recorded as missing *)

Lemma stepMissing_elem sc oc a color isStatic colors vs : forall i0 name c,
  (name, c) ∈ stepMissing sc oc a color isStatic colors i0 vs ->
  c = color /\ isStatic = false /\ isNull sc = false.
Proof.
  induction vs as [|v vs IH]; intros i0 name c Hin; simpl in Hin.
  { by apply elem_of_nil in Hin. }
  apply elem_of_app in Hin as [Hin|Hin]; [|by eapply IH].
  unfold stepValue in Hin.
  destruct isStatic; [by apply elem_of_nil in Hin|].
  destruct (hueTruthy v.2); [by apply elem_of_nil in Hin|].
  destruct (numTruthy (arrayGet colors i0)); [by apply elem_of_nil in Hin|].
  destruct (isNull sc); [by apply elem_of_nil in Hin|].
  apply list_elem_of_singleton in Hin. by injection Hin as -> ->.
Qed.

Lemma stepMissing_in sc oc a color isStatic colors vs : forall i0 k v,
  vs !! k = Some v ->
  stepValue sc oc a color isStatic colors (i0 + k) v = None ->
  (v.1, color) ∈ stepMissing sc oc a color isStatic colors i0 vs.
Proof.
  induction vs as [|v0 vs IH]; intros i0 k v Hk Hv; [done|].
  destruct k as [|k]; simpl in *.
  - injection Hk as ->. rewrite Nat.add_0_r in Hv. rewrite Hv.
    apply elem_of_app. left. apply list_elem_of_singleton. done.
  - apply elem_of_app. right. apply (IH (S i0) k v Hk).
    by replace (S i0 + k)%nat with (i0 + S k)%nat by lia.
Qed.

Lemma alpha_byte oc : 0 <= oc < 2 ^ 32 -> 0 <= oc / 2 ^ 24 < 256.
Proof.
  intros H. split; [apply Z.div_pos; lia|]. apply Z.div_lt_upper_bound; lia.
Qed.

Lemma stepValue_static sc oc a color colors i v :
  stepValue sc oc a color true colors i v = Some oc.
Proof. reflexivity. Qed.

Lemma stepValue_hue sc oc a color colors i name hue :
  truthy hue = true ->
  stepValue sc oc a color false colors i (name, Some hue) =
  Some (bor (shl a 24) (applyHue (int32ToRgb color) hue)).
Proof. intros Ht. unfold stepValue, hueTruthy. cbn [snd]. by rewrite Ht. Qed.

Lemma stepValue_unmapped sc oc a color colors i name hue :
  hueTruthy hue = false ->
  arrayGet colors i = None ->
  stepValue sc oc a color false colors i (name, hue) = if isNull sc then Some oc else None.
Proof. intros Ht Hc. unfold stepValue. cbn [snd]. by rewrite Ht, Hc. Qed.

Lemma pixelValue_transparent imageData palettes sc idx oc i v :
  imageData !! idx = Some oc -> 0 <= oc < 2 ^ 32 -> oc / 2 ^ 24 = 0 ->
  pixelValue imageData palettes sc idx i v = None.
Proof.
  intros Hoc Hr Ha. unfold pixelValue, alphaOf. rewrite Hoc.
  change (default 0 (Some oc)) with oc.
  rewrite alphaOf_div by done. by rewrite Ha.
Qed.

Lemma pixelValue_opaque imageData palettes sc idx oc i v :
  imageData !! idx = Some oc -> 0 <= oc < 2 ^ 32 -> oc / 2 ^ 24 <> 0 ->
  pixelValue imageData palettes sc idx i v =
  stepValue sc oc (oc / 2 ^ 24) (oc mod 2 ^ 24) (isStaticKey sc (oc mod 2 ^ 24))
    (colorsOf palettes sc (oc mod 2 ^ 24)) i v.
Proof.
  intros Hoc Hr Ha. unfold pixelValue, alphaOf, keyOf. rewrite Hoc.
  change (default 0 (Some oc)) with oc.
  rewrite alphaOf_div, keyOf_mod by done.
  destruct (oc / 2 ^ 24 =? 0) eqn:E; [|done]. apply Z.eqb_eq in E. done.
Qed.

Lemma pixelMissing_opaque imageData variants palettes sc idx oc :
  imageData !! idx = Some oc -> 0 <= oc < 2 ^ 32 -> oc / 2 ^ 24 <> 0 ->
  pixelMissing imageData variants palettes sc idx =
  stepMissing sc oc (oc / 2 ^ 24) (oc mod 2 ^ 24) (isStaticKey sc (oc mod 2 ^ 24))
    (colorsOf palettes sc (oc mod 2 ^ 24)) 0 variants.
Proof.
  intros Hoc Hr Ha. unfold pixelMissing, alphaOf, keyOf. rewrite Hoc.
  change (default 0 (Some oc)) with oc.
  rewrite alphaOf_div, keyOf_mod by done.
  destruct (oc / 2 ^ 24 =? 0) eqn:E; [|done]. apply Z.eqb_eq in E. done.
Qed.

Lemma isStaticKey_in (s : gset Z) key : key ∈ s -> isStaticKey (Some s) key = true.
Proof. intros H. unfold isStaticKey. by apply bool_decide_eq_true_2. Qed.

Lemma isStaticKey_notin sc key :
  (forall s, sc = Some s -> key ∉ s) -> isStaticKey sc key = false.
Proof.
  intros H. unfold isStaticKey. destruct sc as [s|]; [|done].
  apply bool_decide_eq_false_2. by apply H.
Qed.

(** C5. Static protection: when the scan returns, a non-transparent pixel
    (alpha byte [oc / 2^24] not 0) whose key [oc mod 2^24] is in the static
    set stands unchanged, as the word [oc], in the buffer of every variant,
    and no pair with that key is ever recorded in [missing]. *)
Theorem static_protection width height imageData variants palettes (s : gset Z)
    imageName ignoreMissing st idx oc :
  scan width height imageData variants palettes (Some s) imageName ignoreMissing = inr st ->
  (idx < width * height)%nat ->
  imageData !! idx = Some oc ->
  0 <= oc < 2 ^ 32 ->
  oc / 2 ^ 24 <> 0 ->
  oc mod 2 ^ 24 ∈ s ->
  (forall i v, variants !! i = Some v ->
     exists buf, buffers st !! i = Some buf /\ buf !! idx = Some oc)
  /\ (forall name, (name, oc mod 2 ^ 24) ∉ missing st).
Proof.
  intros Hscan Hidx Hoc Hr Ha Hs. split.
  - intros i v Hv.
    destruct (scan_buffers _ _ _ _ _ _ _ _ _ _ _ _ Hscan Hv Hidx) as (buf & Hb & Hw).
    exists buf. split; [done|]. rewrite Hw.
    rewrite (pixelValue_opaque _ _ _ _ _ _ _ Hoc Hr Ha).
    rewrite (isStaticKey_in _ _ Hs), stepValue_static.
    by rewrite uint32_small.
  - intros name Hin. rewrite (scan_missing _ _ _ _ _ _ _ _ _ Hscan) in Hin.
    apply list_elem_of_bind in Hin as (idx' & Hin & _).
    unfold pixelMissing in Hin.
    destruct (alphaOf _ =? 0); [by apply elem_of_nil in Hin|].
    apply stepMissing_elem in Hin as (Hkey & Hst & _).
    rewrite <- Hkey in Hst. by rewrite (isStaticKey_in _ _ Hs) in Hst.
Qed.

(** A word whose alpha byte is 0 is skipped: when the scan returns, every
    variant's buffer holds the initial word 0 at its index, whatever the
    rules, the static set and the tables are, and the loop body leaves the
    whole state (buffers and [missing]) as it was. *)
Lemma transparent_word_skipped width height imageData variants palettes sc
    imageName ignoreMissing st idx oc :
  scan width height imageData variants palettes sc imageName ignoreMissing = inr st ->
  (idx < width * height)%nat ->
  imageData !! idx = Some oc ->
  0 <= oc < 2 ^ 32 ->
  oc / 2 ^ 24 = 0 ->
  (forall i v, variants !! i = Some v ->
     exists buf, buffers st !! i = Some buf /\ buf !! idx = Some 0)
  /\ (forall st', pixel imageData variants palettes sc idx st' = st').
Proof.
  intros Hscan Hidx Hoc Hr Ha. split.
  - intros i v Hv.
    destruct (scan_buffers _ _ _ _ _ _ _ _ _ _ _ _ Hscan Hv Hidx) as (buf & Hb & Hw).
    exists buf. split; [done|]. rewrite Hw.
    by rewrite (pixelValue_transparent _ _ _ _ _ _ _ Hoc Hr Ha).
  - intros st'. unfold pixel. rewrite Hoc.
    change (default 0 (Some oc)) with oc.
    rewrite alphaOf_div by done. by rewrite Ha.
Qed.

Lemma truthy_zero : truthy 0%float = false.
Proof. reflexivity. Qed.

(** The word stored under a uniform hue: for a variant given as a single
    hue [H] and a non-transparent, non-static pixel, when the scan returns:
    if [H] is truthy the word stored is [(a << 24) | applyHue(rgb, H)],
    which carries the pixel's own alpha byte on top of the rotated colour
    whenever that colour fits 24 bits; if [H] is 0 nothing is rotated: the
    pixel is copied as it is when no static set was given, and otherwise
    left at 0 and recorded as missing. *)
Lemma uniform_hue_word width height imageData inputVariants (sc : option (gset Z))
    imageName ignoreMissing st idx oc i name H :
  scan width height imageData (variantOf <$> inputVariants) (compile 0 inputVariants ∅)
    sc imageName ignoreMissing = inr st ->
  inputVariants !! i = Some (name, UniformHue H) ->
  (idx < width * height)%nat ->
  imageData !! idx = Some oc ->
  0 <= oc < 2 ^ 32 ->
  oc / 2 ^ 24 <> 0 ->
  (forall s, sc = Some s -> oc mod 2 ^ 24 ∉ s) ->
  exists buf, buffers st !! i = Some buf /\
    (truthy H = true ->
       let rotated := applyHue (int32ToRgb (oc mod 2 ^ 24)) H in
       buf !! idx = Some (uint32 (bor (shl (oc / 2 ^ 24) 24) rotated))
       /\ (0 <= rotated < 2 ^ 24 ->
           exists w, buf !! idx = Some w /\ w / 2 ^ 24 = oc / 2 ^ 24 /\ w mod 2 ^ 24 = rotated))
    /\ (H = 0%float ->
        (sc = None -> buf !! idx = Some oc)
        /\ (forall s, sc = Some s ->
              buf !! idx = Some 0 /\ (name, oc mod 2 ^ 24) ∈ missing st)).
Proof.
  intros Hscan Hi Hidx Hoc Hr Ha Hns.
  assert (Hv : (variantOf <$> inputVariants) !! i = Some (name, Some H)).
  { by rewrite list_lookup_fmap, Hi. }
  destruct (scan_buffers _ _ _ _ _ _ _ _ _ _ _ _ Hscan Hv Hidx) as (buf & Hb & Hw).
  exists buf. split; [done|].
  rewrite (pixelValue_opaque _ _ _ _ _ _ _ Hoc Hr Ha) in Hw.
  pose proof (isStaticKey_notin _ _ Hns) as Hstatic.
  rewrite Hstatic in Hw. split.
  - intros Ht. rewrite (stepValue_hue _ _ _ _ _ _ _ _ Ht) in Hw.
    cbv zeta. split; [done|].
    intros Hrot. eexists. split; [exact Hw|].
    rewrite pack_alpha by (auto using alpha_byte).
    apply unpack_alpha; auto using alpha_byte.
  - intros ->.
    assert (Hstep : stepValue sc oc (oc / 2 ^ 24) (oc mod 2 ^ 24) false
              (colorsOf (compile 0 inputVariants ∅) sc (oc mod 2 ^ 24)) i (name, Some 0%float)
            = if isNull sc then Some oc else None).
    { apply stepValue_unmapped; [done|].
      unfold colorsOf. rewrite Hstatic. by apply (compile_uniform_slot _ _ name 0%float). }
    rewrite Hstep in Hw. split.
    + intros ->. cbn [isNull] in Hw. by rewrite uint32_small in Hw.
    + intros s ->. cbn [isNull] in Hw. split; [done|].
      rewrite (scan_missing _ _ _ _ _ _ _ _ _ Hscan).
      apply list_elem_of_bind. exists idx. split; [|by apply elem_of_allIndices].
      rewrite (pixelMissing_opaque _ _ _ _ _ _ Hoc Hr Ha), Hstatic.
      by apply (stepMissing_in _ _ _ _ _ _ _ 0%nat i (name, Some 0%float)).
Qed.

Lemma byteNumbers_eq : byteNumbers = (fun n => Z2F (Z.of_nat n)) <$> seq 0 256.
Proof. vm_compute. reflexivity. Qed.

Lemma byteNumbers_in (c : Z) : 0 <= c < 256 -> In (Z2F c) byteNumbers.
Proof.
  intros Hc. rewrite byteNumbers_eq. apply list_elem_of_In.
  apply list_elem_of_fmap. exists (Z.to_nat c). split.
  - f_equal. lia.
  - apply elem_of_seq. lia.
Qed.

Lemma forallb_cube {A} (f : A -> A -> A -> bool) (l : list A) :
  forallb (fun r => forallb (fun g => forallb (fun b => f r g b) l) l) l = true ->
  forall r g b, In r l -> In g l -> In b l -> f r g b = true.
Proof.
  intros H r g b Hr Hg Hb.
  rewrite forallb_forall in H. specialize (H r Hr).
  rewrite forallb_forall in H. specialize (H g Hg).
  rewrite forallb_forall in H. exact (H b Hb).
Qed.

Lemma roundTripAll_true :
  forallb (fun r => forallb (fun g => forallb (fun b => roundTripNear r g b)
    byteNumbers) byteNumbers) byteNumbers = true.
Proof. vm_cast_no_check (eq_refl true). Qed.

Lemma roundTripNear_bytes (r g b : Z) :
  0 <= r < 256 -> 0 <= g < 256 -> 0 <= b < 256 ->
  roundTripNear (Z2F r) (Z2F g) (Z2F b) = true.
Proof.
  intros Hr Hg Hb.
  exact (forallb_cube roundTripNear byteNumbers roundTripAll_true _ _ _
           (byteNumbers_in r Hr) (byteNumbers_in g Hg) (byteNumbers_in b Hb)).
Qed.

(** *** Achromatic pixels *)

Lemma byteValues_in (c : Z) : 0 <= c < 256 -> In c byteValues.
Proof.
  intros Hc. change byteValues with (Z.of_nat <$> seq 0 256). apply list_elem_of_In.
  apply list_elem_of_fmap. exists (Z.to_nat c). split; [lia|]. apply elem_of_seq. lia.
Qed.

Lemma grayPacked_all : forallb grayPacked byteValues = true.
Proof. vm_compute. reflexivity. Qed.

Lemma rotate_achromatic h s l :
  PrimFloat.eqb s 0 = true ->
  Packed.rotate h s l = Packed.pack3 (l * 255) (l * 255) (l * 255).
Proof. intros Hs. unfold Packed.rotate. by rewrite Hs. Qed.

Lemma packed_applyHue_gray (v : Z) (H : float) :
  0 <= v < 256 -> Packed.applyHue (v, v, v) H = gray v.
Proof.
  intros Hv. pose proof grayPacked_all as Hall.
  rewrite forallb_forall in Hall. specialize (Hall _ (byteValues_in v Hv)).
  unfold grayPacked in Hall. fold (unitOf v) in Hall.
  apply andb_prop in Hall as [Hall _]. apply andb_prop in Hall as [Hs Hp].
  apply Z.eqb_eq in Hp.
  unfold Packed.applyHue. cbn [fst snd]. fold (unitOf v).
  rewrite rotate_achromatic by exact Hs. exact Hp.
Qed.

Lemma int32ToRgb_gray (v : Z) : 0 <= v < 256 -> Packed.int32ToRgb (gray v) = (v, v, v).
Proof.
  intros Hv. pose proof grayPacked_all as Hall.
  rewrite forallb_forall in Hall. specialize (Hall _ (byteValues_in v Hv)).
  unfold grayPacked in Hall. apply andb_prop in Hall as [_ Hall].
  by apply bool_decide_eq_true in Hall.
Qed.

Lemma grayHex_all : forallb grayHex byteValues = true.
Proof. vm_compute. reflexivity. Qed.

Lemma hslToRgb_achromatic h s l :
  PrimFloat.eqb (s / 100) 0 = true ->
  HexKeyed.hslToRgb (h, s, l) = ((l / 100 * 255)%float, (l / 100 * 255)%float, (l / 100 * 255)%float).
Proof. intros Hs. unfold HexKeyed.hslToRgb. cbn [fst snd]. by rewrite Hs. Qed.

Lemma hex_applyHue_unfold r g b a hue :
  HexKeyed.applyHue r g b a hue =
  HexKeyed.hslToHex (hue, (HexKeyed.rgbToHsl (r, g, b)).1.2, (HexKeyed.rgbToHsl (r, g, b)).2)
  +:+ HexKeyed.hex a.
Proof.
  unfold HexKeyed.applyHue. by destruct (HexKeyed.rgbToHsl (r, g, b)) as [[h s] l].
Qed.

Lemma hex_applyHue_gray (v : Z) (a H : float) :
  0 <= v < 256 ->
  HexKeyed.applyHue (Z2F v) (Z2F v) (Z2F v) a H =
  HexKeyed.rgbaToHex (Z2F v) (Z2F v) (Z2F v) None +:+ HexKeyed.hex a.
Proof.
  intros Hv. pose proof grayHex_all as Hall.
  rewrite forallb_forall in Hall. specialize (Hall _ (byteValues_in v Hv)).
  unfold grayHex in Hall. cbv zeta in Hall.
  apply andb_prop in Hall as [Hs Hp]. apply String.eqb_eq in Hp.
  rewrite hex_applyHue_unfold. unfold HexKeyed.hslToHex.
  rewrite hslToRgb_achromatic by exact Hs. by rewrite Hp.
Qed.

Lemma gray_range v : 0 <= v < 256 -> 0 <= gray v < 2 ^ 24.
Proof. unfold gray. lia. Qed.

(** C10. Hue rotation fixes achromatic pixels: for every byte [v] and
    every hue [H], [applyHue] of the packed engine returns the triple
    [(v, v, v)] again, so the word written for a gray pixel is the pixel
    itself; the string-keyed [applyHue] returns the hex of the same
    triple, followed by the alpha byte. *)
Theorem hue_rotation_fixes_gray (v a : Z) (alpha H : float) :
  0 <= v < 256 ->
  0 <= a < 256 ->
  Packed.int32ToRgb (Packed.applyHue (v, v, v) H) = (v, v, v)
  /\ uint32 (bor (shl a 24) (Packed.applyHue (Packed.int32ToRgb (gray v)) H))
     = a * 2 ^ 24 + gray v
  /\ HexKeyed.applyHue (Z2F v) (Z2F v) (Z2F v) alpha H
     = HexKeyed.rgbaToHex (Z2F v) (Z2F v) (Z2F v) None +:+ HexKeyed.hex alpha.
Proof.
  intros Hv Ha. split; [|split].
  - rewrite packed_applyHue_gray by done. by apply int32ToRgb_gray.
  - rewrite int32ToRgb_gray, packed_applyHue_gray by done.
    apply pack_alpha; [done|]. by apply gray_range.
  - by apply hex_applyHue_gray.
Qed.

Lemma hue_rotation_fixes_gray_witness :
  Packed.int32ToRgb (Packed.applyHue (25, 25, 25) 130) = (25, 25, 25)
  /\ uint32 (bor (shl 200 24) (Packed.applyHue (Packed.int32ToRgb (gray 25)) 130))
     = 200 * 2 ^ 24 + gray 25
  /\ HexKeyed.applyHue (Z2F 25) (Z2F 25) (Z2F 25) 200 130
     = HexKeyed.rgbaToHex (Z2F 25) (Z2F 25) (Z2F 25) None +:+ HexKeyed.hex 200.
Proof. apply (hue_rotation_fixes_gray 25 200 200 130); lia. Defined.

(** *** Pure green to hue 0 *)

Lemma green_to_red_packed : Packed.applyHue (0, 255, 0) 0 = 255.
Proof. vm_compute. reflexivity. Qed.

Lemma green_to_red_hex (alpha : float) :
  HexKeyed.applyHue 0 255 0 alpha 0 = "#ff0000" +:+ HexKeyed.hex alpha.
Proof.
  rewrite hex_applyHue_unfold. f_equal.
Qed.

(** C8. Round trip: for every colour with byte channels, [hslToRgb] of
    [rgbToHsl] is within 1 of each channel; and rotating pure green
    (0, 255, 0) to hue 0 gives pure red (255, 0, 0) in both engines, under
    the alpha it was given. *)
Theorem hsl_round_trip (r g b a : Z) (alpha : float) :
  0 <= r < 256 -> 0 <= g < 256 -> 0 <= b < 256 -> 0 <= a < 256 ->
  (let out := HexKeyed.hslToRgb (HexKeyed.rgbToHsl (Z2F r, Z2F g, Z2F b)) in
   near out.1.1 (Z2F r) = true /\ near out.1.2 (Z2F g) = true /\ near out.2 (Z2F b) = true)
  /\ Packed.int32ToRgb (Packed.applyHue (0, 255, 0) 0) = (0, 0, 255)
  /\ uint32 (bor (shl a 24) (Packed.applyHue (0, 255, 0) 0)) = a * 2 ^ 24 + 255
  /\ HexKeyed.applyHue 0 255 0 alpha 0 = "#ff0000" +:+ HexKeyed.hex alpha.
Proof.
  intros Hr Hg Hb Ha. split; [|split; [|split]].
  - pose proof (roundTripNear_bytes r g b Hr Hg Hb) as H.
    unfold roundTripNear in H. cbv zeta in *.
    apply andb_prop in H as [H H3]. apply andb_prop in H as [H1 H2]. done.
  - rewrite green_to_red_packed. vm_compute. reflexivity.
  - rewrite green_to_red_packed. apply pack_alpha; lia.
  - apply green_to_red_hex.
Qed.

(** *** Formatting a channel *)

Lemma padded_bytes :
  forallb (fun n => String.eqb (padStart2 (toString16 n)) (twoDigits n)) byteValues = true.
Proof. vm_compute. reflexivity. Qed.

Lemma hex_byte (x : float) :
  roundsToByte x -> HexKeyed.hex x = twoDigits (Math_round x).
Proof.
  intros (Hn & Hi & Hr). unfold HexKeyed.hex, roundToString16. rewrite Hn, Hi.
  pose proof padded_bytes as H. rewrite forallb_forall in H.
  apply String.eqb_eq. apply H. by apply byteValues_in.
Qed.

Lemma truthy_not_nan (x : float) :
  PrimFloat.is_nan x = false -> truthy x = negb (PrimFloat.eqb x 0).
Proof. intros H. unfold truthy. by rewrite H. Qed.

(** C9, amended. [rgbaToHex] writes each channel that rounds to a byte as
    the two hex digits of [Math.round] of it, zero padded, and appends the
    alpha byte exactly when alpha is given and is neither 0 nor 255. *)
Theorem rgbaToHex_format (r g b : float) (a : option float) :
  roundsToByte r -> roundsToByte g -> roundsToByte b ->
  (forall x, a = Some x -> roundsToByte x) ->
  HexKeyed.rgbaToHex r g b a =
  "#" +:+ twoDigits (Math_round r) +:+ twoDigits (Math_round g) +:+ twoDigits (Math_round b)
  +:+ match a with
      | Some x =>
          if PrimFloat.eqb x 0 || PrimFloat.eqb x 255 then "" else twoDigits (Math_round x)
      | None => ""
      end.
Proof.
  intros Hr Hg Hb Ha. unfold HexKeyed.rgbaToHex.
  rewrite (hex_byte r Hr), (hex_byte g Hg), (hex_byte b Hb).
  do 4 f_equal. destruct a as [x|]; [|done].
  specialize (Ha x eq_refl). rewrite (truthy_not_nan x (proj1 Ha)).
  destruct (PrimFloat.eqb x 0); [done|].
  destruct (PrimFloat.eqb x 255); [done|]. cbn [negb andb orb]. by apply hex_byte.
Qed.

(** *** Parsing a colour *)

Lemma matchWW_nil_tail c s : matchWW (String c s) = [] -> matchWW s = [].
Proof.
  cbn [matchWW]. destruct s as [|c2 rest]; [done|].
  destruct (isWord c && isWord c2); [done|]. done.
Qed.

Lemma matchWW_nil_iff (s : string) : matchWW s = [] <-> ~ hasWordPair s.
Proof.
  induction s as [|c s IH].
  - split; [|done]. intros _ (pre & c1 & c2 & post & Heq & _).
    destruct pre; discriminate.
  - split.
    + intros Hnil (pre & c1 & c2 & post & Heq & H1 & H2).
      destruct pre as [|p pre]; cbn in Heq.
      * injection Heq as -> ->. cbn [matchWW] in Hnil. by rewrite H1, H2 in Hnil.
      * injection Heq as -> ->. apply matchWW_nil_tail in Hnil.
        apply IH in Hnil. apply Hnil. by exists pre, c1, c2, post.
    + intros Hno. cbn [matchWW]. destruct s as [|c2 rest]; [done|].
      destruct (isWord c && isWord c2) eqn:E.
      * exfalso. apply Hno. apply andb_prop in E as [E1 E2].
        by exists EmptyString, c, c2, rest.
      * apply IH. intros (pre & c1 & c3 & post & Heq & H1 & H2). apply Hno.
        exists (String c pre), c1, c3, post. cbn. by rewrite Heq.
Qed.

Lemma hexToRgba_fails_iff (hex : string) :
  (exists msg, HexKeyed.hexToRgba hex = inl msg) <-> ~ hasWordPair hex.
Proof.
  rewrite <- matchWW_nil_iff. unfold HexKeyed.hexToRgba.
  destruct (matchWW hex); split; try done.
  - by eexists.
  - by intros [msg H].
Qed.

(** *** Propagation of a failed parse in the string-keyed engine *)

Lemma writeColor_invalid i color st :
  matchWW color = [] ->
  HexKeyed.writeColor i color st = inl ("Invalid color '" +:+ color +:+ "'.")%string.
Proof. intros H. unfold HexKeyed.writeColor, HexKeyed.hexToRgba. by rewrite H. Qed.

Lemma pixel_invalid imageData entries staticColors i color st :
  HexKeyed.tableGet entries (keyAt imageData i) = Some (HexKeyed.ToHex color) ->
  color <> EmptyString ->
  matchWW color = [] ->
  HexKeyed.pixel imageData (HexKeyed.Table entries) staticColors i st
  = inl ("Invalid color '" +:+ color +:+ "'.")%string.
Proof.
  intros Hget Hne Hnil. unfold HexKeyed.pixel. fold (keyAt imageData i). rewrite Hget.
  rewrite bool_decide_eq_false_2 by done. by apply writeColor_invalid.
Qed.

Lemma pixels_fail imageData palette staticColors offs i :
  i ∈ offs ->
  (forall st, exists err, HexKeyed.pixel imageData palette staticColors i st = inl err) ->
  forall st, exists err, HexKeyed.pixels imageData palette staticColors offs st = inl err.
Proof.
  intros Hin Hfail. induction offs as [|j offs IH]; intros st.
  { by apply elem_of_nil in Hin. }
  cbn [HexKeyed.pixels].
  destruct (HexKeyed.pixel imageData palette staticColors j st) as [err|st'] eqn:E.
  { by exists err. }
  apply elem_of_cons in Hin as [->|Hin].
  - destruct (Hfail st) as [err Herr]. congruence.
  - by apply IH.
Qed.

Lemma variantsLoop_fail width height imageData staticColors images imageName ignoreMissing
    variants k name palette :
  variants !! k = Some (name, palette) ->
  (exists err, HexKeyed.variant width height imageData staticColors images imageName
                 ignoreMissing name palette = inl err) ->
  exists err, HexKeyed.variantsLoop width height imageData staticColors images imageName
                ignoreMissing variants = inl err.
Proof.
  revert k. induction variants as [|[n p] variants IH]; intros k Hk Hfail; [done|].
  cbn [HexKeyed.variantsLoop].
  destruct (HexKeyed.variant width height imageData staticColors images imageName
              ignoreMissing n p) as [err|r] eqn:E.
  { by exists err. }
  destruct k as [|k]; cbn in Hk.
  - injection Hk as -> ->. destruct Hfail as [err Herr]. congruence.
  - destruct (IH k Hk Hfail) as [err Herr]. rewrite Herr. by exists err.
Qed.

(** *** [hexToInt32] always yields 24 bits *)

Lemma band_byte x : 0 <= band x 255 < 256.
Proof.
  change 255 with (2 ^ 8 - 1). rewrite (band_mask x 8 ltac:(lia)).
  apply Z.mod_pos_bound. lia.
Qed.

Lemma pack_bytes r g b :
  0 <= r < 256 -> 0 <= g < 256 -> 0 <= b < 256 ->
  bor (bor (shl b 16) (shl g 8)) r = b * 2 ^ 16 + g * 2 ^ 8 + r.
Proof.
  intros Hr Hg Hb. unfold bor, shl.
  rewrite (int32_small b), (int32_small g), (int32_small r) by lia.
  rewrite !Z.shiftl_mul_pow2 by lia.
  rewrite !(int32_small (b * 2 ^ 16)), !(int32_small (g * 2 ^ 8)) by lia.
  assert (H1 : Z.lor (b * 2 ^ 16) (g * 2 ^ 8) = b * 2 ^ 16 + g * 2 ^ 8).
  { rewrite <- (lor_shiftl_low b 16 (g * 2 ^ 8)) by lia.
    by rewrite Z.shiftl_mul_pow2 by lia. }
  rewrite H1. rewrite int32_small by lia.
  replace (b * 2 ^ 16 + g * 2 ^ 8 + r) with ((b * 2 ^ 8 + g) * 2 ^ 8 + r) by lia.
  rewrite <- (lor_shiftl_low (b * 2 ^ 8 + g) 8 r) by lia.
  rewrite Z.shiftl_mul_pow2 by lia. f_equal. lia.
Qed.

Lemma hexToInt32_range (hex : string) : 0 <= Packed.hexToInt32 hex < 2 ^ 24.
Proof.
  unfold Packed.hexToInt32, Packed.int32ToRgb.
  set (n := band (ToInt32 (parseInt16 (slice1 hex))) 16777215).
  pose proof (band_byte (sar n 16)). pose proof (band_byte (sar n 8)).
  pose proof (band_byte n).
  rewrite pack_bytes by done. lia.
Qed.

(** C7, amended. [hexToRgba] fails exactly on the strings that hold no two
    adjacent word characters; when the table of some variant maps the key of
    some pixel to such a string, the failure leaves the string-keyed
    [paletteSwap] as an error, with no results; and [hexToInt32] of the
    packed engine never fails: it yields 24 bits for every string. *)
Theorem invalid_color_aborts (image : Image) (variants : list (HexKeyed.VariantName * HexKeyed.Palette))
    (staticColors : option (list string)) (images : option (list (HexKeyed.VariantName * Image)))
    (imageName : option string) (ignoreMissing : bool)
    (k : nat) (name : HexKeyed.VariantName) (entries : list (string * HexKeyed.Target))
    (i : nat) (color hex : string) :
  let imageData := data (getImageData image (img_width image) (img_height image)) in
  variants !! k = Some (name, HexKeyed.Table entries) ->
  i ∈ HexKeyed.offsets imageData ->
  HexKeyed.tableGet entries (keyAt imageData i) = Some (HexKeyed.ToHex color) ->
  color <> EmptyString ->
  ~ hasWordPair color ->
  ((exists msg, HexKeyed.hexToRgba hex = inl msg) <-> ~ hasWordPair hex)
  /\ HexKeyed.hexToRgba color = inl ("Invalid color '" +:+ color +:+ "'.")%string
  /\ (exists err, HexKeyed.paletteSwap image variants staticColors images imageName
                    ignoreMissing = inl err)
  /\ 0 <= Packed.hexToInt32 hex < 2 ^ 24.
Proof.
  intros imageData Hk Hi Hget Hne Hno.
  apply matchWW_nil_iff in Hno.
  split; [apply hexToRgba_fails_iff|]. split.
  { unfold HexKeyed.hexToRgba. by rewrite Hno. }
  split; [|apply hexToInt32_range].
  unfold HexKeyed.paletteSwap. fold imageData.
  apply (variantsLoop_fail _ _ _ _ _ _ _ _ k name (HexKeyed.Table entries) Hk).
  destruct (pixels_fail imageData (HexKeyed.Table entries) staticColors
              (HexKeyed.offsets imageData) i Hi) with
    (st := (replicate (img_width image * img_height image * 4) 0, @nil HexKeyed.HEX))
    as [err Herr].
  { intros st. eexists. by apply pixel_invalid. }
  exists err. unfold HexKeyed.variant. by rewrite Herr.
Qed.

Lemma invalid_color_aborts_witness :
  ((exists msg, HexKeyed.hexToRgba "#abc" = inl msg) <-> ~ hasWordPair "#abc")
  /\ HexKeyed.hexToRgba "#q" = inl ("Invalid color '" +:+ "#q" +:+ "'.")%string
  /\ (exists err, HexKeyed.paletteSwap (mkImage 1 1 [255; 0; 0; 255]) badTable None None None
                    false = inl err)
  /\ 0 <= Packed.hexToInt32 "#abc" < 2 ^ 24.
Proof.
  apply (invalid_color_aborts (mkImage 1 1 [255; 0; 0; 255]) badTable None None None false
           0%nat (HexKeyed.NameNum 2) [("#ff0000", HexKeyed.ToHex "#q")] 0%nat "#q" "#abc").
  - reflexivity.
  - vm_compute. apply list_elem_of_singleton. reflexivity.
  - vm_compute. reflexivity.
  - discriminate.
  - apply matchWW_nil_iff. vm_compute. reflexivity.
Defined.

(** *** Concrete runs *)

Lemma static_protection_witness :
  (forall i v, (variantOf <$> twoVariants) !! i = Some v ->
     exists buf, buffers afterStatic !! i = Some buf /\ buf !! 0%nat = Some opaqueBlack)
  /\ (forall name, (name, opaqueBlack mod 2 ^ 24) ∉ missing afterStatic).
Proof.
  apply (static_protection 2 1 [opaqueBlack; opaqueRed] (variantOf <$> twoVariants)
           (compile 0 twoVariants ∅) {[0]} None false afterStatic 0 opaqueBlack).
  - vm_compute. reflexivity.
  - lia.
  - reflexivity.
  - unfold opaqueBlack. lia.
  - vm_compute. discriminate.
  - apply elem_of_singleton. reflexivity.
Defined.

Lemma hsl_round_trip_witness :
  (let out := HexKeyed.hslToRgb (HexKeyed.rgbToHsl (Z2F 229, Z2F 12, Z2F 162)) in
   near out.1.1 (Z2F 229) = true /\ near out.1.2 (Z2F 12) = true
   /\ near out.2 (Z2F 162) = true)
  /\ Packed.int32ToRgb (Packed.applyHue (0, 255, 0) 0) = (0, 0, 255)
  /\ uint32 (bor (shl 128 24) (Packed.applyHue (0, 255, 0) 0)) = 128 * 2 ^ 24 + 255
  /\ HexKeyed.applyHue 0 255 0 128 0 = "#ff0000" +:+ HexKeyed.hex 128.
Proof. apply (hsl_round_trip 229 12 162 128 128); lia. Defined.

Lemma rgbaToHex_format_witness :
  HexKeyed.rgbaToHex 1 2.5 254.5 (Some 128%float) =
  "#" +:+ twoDigits (Math_round 1) +:+ twoDigits (Math_round 2.5)
  +:+ twoDigits (Math_round 254.5)
  +:+ (if PrimFloat.eqb 128 0 || PrimFloat.eqb 128 255 then "" else twoDigits (Math_round 128)).
Proof.
  apply (rgbaToHex_format 1 2.5 254.5 (Some 128%float)); try rounds_to_byte.
  intros x Hx. apply (inj Some) in Hx. subst x. rounds_to_byte.
Defined.

(** C9 as stated fails: an alpha of 0 is given and is not 255, yet it is
    not appended. *)
Lemma alpha_zero_not_appended :
  HexKeyed.rgbaToHex 1 2 3 (Some 0%float) = "#010203"
  /\ HexKeyed.rgbaToHex 1 2 3 (Some 128%float) = "#01020380"
  /\ HexKeyed.rgbaToHex 1 2 3 (Some 255%float) = "#010203".
Proof. vm_compute. done. Qed.

(** C7 as stated fails: [#abc] and [#zz] are not made of whole byte pairs,
    yet neither parser fails on them. *)
Lemma dangling_digit_accepted :
  wholeBytePairs "#abc" = false
  /\ HexKeyed.hexToRgba "#abc" = inr [171%float]
  /\ Packed.hexToInt32 "#abc" = 12323328
  /\ wholeBytePairs "#zz" = false
  /\ HexKeyed.hexToRgba "#zz" = inr [PrimFloat.nan]
  /\ Packed.hexToInt32 "#zz" = 0.
Proof. vm_compute. done. Qed.

(** C1, on the code: the check of [missing] stands inside the loop over
    the rows.  On a 1 x 2 image whose two pixels (red, then green) are both
    unmapped, the error is raised after the first row and names one colour,
    printed in the byte order of the packed key ([#0000ff] for red); the
    whole image records two missing pairs. *)
Lemma missing_raised_after_first_row :
  paletteSwap (mkImage 1 2 [255; 0; 0; 255; 0; 255; 0; 255]) [(NameStr "v", Table [])]
    (Some ["#000000"]) None None false
  = inl "There is no mapping for #0000ff in the palette for variant(s) 'v'."
  /\ (exists st, scan 1 2 [opaqueRed; opaqueGreen] [(NameStr "v", None)] ∅ blackStatic None true
                 = inr st
                 /\ missing st = [(NameStr "v", 255); (NameStr "v", 65280)]).
Proof. split; [vm_compute; reflexivity|]. eexists. split; vm_compute; reflexivity. Qed.

(** C2, on the code: the table entry [#ff0000 -> #000000] packs to 0, which
    the test [colors?.[i]] takes for no entry: the red pixel is copied
    unchanged (no static set) or reported as missing (a static set), where
    the entry [#ff0000 -> #000001] is written as given. *)
Lemma black_target_ignored :
  paletteSwap (mkImage 1 1 [255; 0; 0; 255]) [(NameStr "v", Table [("#ff0000", "#000000")])]
    None None None false
  = inr [(NameStr "v", mkImageData 1 1 [255; 0; 0; 255])]
  /\ paletteSwap (mkImage 1 1 [255; 0; 0; 255]) [(NameStr "v", Table [("#ff0000", "#000000")])]
       (Some []) None None false
     = inl "There is no mapping for #0000ff in the palette for variant(s) 'v'."
  /\ paletteSwap (mkImage 1 1 [255; 0; 0; 255]) [(NameStr "v", Table [("#ff0000", "#000001")])]
       (Some []) None None false
     = inr [(NameStr "v", mkImageData 1 1 [0; 0; 1; 255])].
Proof. vm_compute. done. Qed.

(** C6, on the code: a prior image of 2 x 1 pixels for a 1 x 1 source is
    read over the source's rectangle and found equal, so the variant is left
    out although the sizes differ; a prior image differing in one byte, or
    none at all, keeps the variant in. *)
Lemma larger_prior_image_suppresses :
  paletteSwap (mkImage 1 1 [255; 0; 0; 255]) [(NameStr "v", Table [])] None
    (Some [(NameStr "v", mkImage 2 1 [255; 0; 0; 255; 0; 255; 0; 255])]) None false
  = inr []
  /\ paletteSwap (mkImage 1 1 [255; 0; 0; 255]) [(NameStr "v", Table [])] None
       (Some [(NameStr "v", mkImage 1 1 [255; 0; 0; 254])]) None false
     = inr [(NameStr "v", mkImageData 1 1 [255; 0; 0; 255])]
  /\ paletteSwap (mkImage 1 1 [255; 0; 0; 255]) [(NameStr "v", Table [])] None None None false
     = inr [(NameStr "v", mkImageData 1 1 [255; 0; 0; 255])].
Proof. vm_compute. done. Qed.

(** ** Further properties of the two engines *)

(** *** [equals] *)

(** X1: [equals], which both engines define alike, compares the sizes and then
    only the bytes of its first argument: it holds exactly when the sizes
    agree and every byte of [a] is found, at its index, in [b]; bytes of [b]
    past the end of [a] are never read. *)
Theorem equals_prefix (a b : ImageData) :
  let agree := width a = width b /\ height a = height b
               /\ (forall i x, data a !! i = Some x -> data b !! i = Some x) in
  (Packed.equals a b = true <-> agree) /\ (HexKeyed.equals a b = true <-> agree).
Proof.
  cbv zeta.
  assert (H : Packed.equals a b = true <->
              width a = width b /\ height a = height b
              /\ (forall i x, data a !! i = Some x -> data b !! i = Some x)).
  { unfold Packed.equals.
    destruct (decide (width a = width b)) as [Hw|Hw];
      [rewrite (proj2 (Nat.eqb_eq _ _) Hw)|rewrite (proj2 (Nat.eqb_neq _ _) Hw)];
      cbn [negb orb]; [|split; [done|by intros [? _]]].
    destruct (decide (height a = height b)) as [Hh|Hh];
      [rewrite (proj2 (Nat.eqb_eq _ _) Hh)|rewrite (proj2 (Nat.eqb_neq _ _) Hh)];
      cbn [negb]; [|split; [done|by intros (_ & ? & _)]].
    rewrite forallb_forall. split.
    - intros H. split; [done|]. split; [done|]. intros i x Hi.
      assert (Hin : In i (seq 0 (length (data a)))).
      { apply in_seq. apply lookup_lt_Some in Hi. lia. }
      specialize (H i Hin). rewrite Hi in H.
      destruct (data b !! i) as [y|]; [|done]. apply Z.eqb_eq in H. by subst y.
    - intros (_ & _ & H) i Hin. apply in_seq in Hin.
      destruct (lookup_lt_is_Some_2 (data a) i ltac:(lia)) as [x Hx].
      rewrite Hx, (H i x Hx). apply Z.eqb_refl. }
  split; [exact H|]. change (HexKeyed.equals a b) with (Packed.equals a b). exact H.
Qed.

(** *** The palette compiler *)

Lemma arrayGet_arraySet v j x i :
  arrayGet (Some (arraySet v j x)) i = if decide (i = j) then Some x else arrayGet (Some v) i.
Proof.
  unfold arrayGet, arraySet. cbn [mbind option_bind].
  destruct (decide (j < length v)%nat) as [Hlt|Hge].
  - destruct (decide (i = j)) as [->|Hne].
    + by rewrite list_lookup_insert_eq.
    + by rewrite list_lookup_insert_ne.
  - destruct (decide (i < length v)%nat) as [Hi|Hi].
    + rewrite lookup_app_l by done. rewrite decide_False by lia. done.
    + rewrite lookup_app_r by lia.
      rewrite (lookup_ge_None_2 v i) by lia.
      destruct (decide (i = j)) as [->|Hne].
      * rewrite lookup_app_r by (rewrite length_replicate; lia).
        rewrite length_replicate. by replace (j - length v - (j - length v))%nat with 0%nat by lia.
      * destruct (decide (i - length v < j - length v)%nat) as [Hin|Hout].
        -- rewrite lookup_app_l by (by rewrite length_replicate).
           by rewrite lookup_replicate_2.
        -- rewrite lookup_app_r by (rewrite length_replicate; lia).
           rewrite length_replicate.
           destruct (i - length v - (j - length v))%nat as [|n] eqn:E; [lia|]. done.
Qed.

Lemma addEntry_slot j palettes kv k i :
  arrayGet (addEntry j palettes kv !! k) i =
  if decide (i = j /\ hexToInt32 kv.1 = k) then Some (hexToInt32 kv.2)
  else arrayGet (palettes !! k) i.
Proof.
  unfold addEntry. destruct (decide (hexToInt32 kv.1 = k)) as [<-|Hne].
  - rewrite lookup_insert_eq, arrayGet_arraySet.
    destruct (decide (i = j)) as [->|Hij].
    + by rewrite decide_True.
    + rewrite decide_False by (by intros [? _]).
      by destruct (palettes !! hexToInt32 kv.1).
  - rewrite lookup_insert_ne by done. by rewrite decide_False by (by intros [_ ?]).
Qed.

Lemma foldl_addEntry_slot j entries : forall palettes k i,
  arrayGet (foldl (addEntry j) palettes entries !! k) i =
  if decide (i = j)
  then match lastEntry entries k with
       | Some c => Some c
       | None => arrayGet (palettes !! k) i
       end
  else arrayGet (palettes !! k) i.
Proof.
  induction entries as [|kv entries IH]; intros palettes k i; cbn [foldl lastEntry].
  { by destruct (decide (i = j)). }
  rewrite IH, addEntry_slot.
  destruct (decide (i = j)) as [->|Hne].
  - destruct (lastEntry entries k); [done|].
    destruct (decide (hexToInt32 kv.1 = k)) as [Hk|Hk].
    + by rewrite decide_True.
    + by rewrite decide_False by (by intros [_ ?]).
  - by rewrite decide_False by (by intros [? _]).
Qed.

Lemma compile_slot rest : forall i0 palettes k i,
  arrayGet (compile i0 rest palettes !! k) i =
  match (if decide (i0 <= i)%nat then rest !! (i - i0)%nat else None) with
  | Some (_, Table entries) =>
      match lastEntry entries k with
      | Some c => Some c
      | None => arrayGet (palettes !! k) i
      end
  | _ => arrayGet (palettes !! k) i
  end.
Proof.
  induction rest as [|[name p] rest IH]; intros i0 palettes k i; cbn [compile].
  { by destruct (decide (i0 <= i)%nat). }
  destruct (decide (i = i0)) as [->|Hne].
  - rewrite decide_True by lia. replace (i0 - i0)%nat with 0%nat by lia. cbn [lookup list_lookup].
    destruct p as [entries|hue]; rewrite IH, decide_False by lia.
    + rewrite foldl_addEntry_slot. by rewrite decide_True.
    + done.
  - destruct (decide (i0 <= i)%nat) as [Hle|Hgt].
    + replace (i - i0)%nat with (S (i - S i0)) by lia. cbn [lookup list_lookup].
      destruct p as [entries|hue]; rewrite IH, decide_True by lia.
      * rewrite foldl_addEntry_slot. by rewrite decide_False.
      * done.
    + destruct p as [entries|hue]; rewrite IH, decide_False by lia.
      * rewrite foldl_addEntry_slot. by rewrite decide_False.
      * done.
Qed.

Lemma compile_table_slot (input : list (VariantName * Palette)) i name entries k :
  input !! i = Some (name, Table entries) ->
  arrayGet (compile 0 input ∅ !! k) i = lastEntry entries k.
Proof.
  intros Hi. rewrite compile_slot, decide_True by lia.
  rewrite Nat.sub_0_r, lookup_empty, Hi. by destruct (lastEntry entries k).
Qed.

(** X2: the compiled palette answers, for variant [i] and key [k], with the last
    entry of that variant's table whose key packs to [k]; a variant given as
    a hue has no slot at all. *)
Theorem compile_lookup (input : list (VariantName * Palette)) (i : nat) (k : Z) :
  arrayGet (compile 0 input ∅ !! k) i =
  match input !! i with
  | Some (_, Table entries) => lastEntry entries k
  | _ => None
  end.
Proof.
  rewrite compile_slot, decide_True by lia. rewrite Nat.sub_0_r, lookup_empty.
  destruct (input !! i) as [[name [entries|hue]]|]; try done.
  by destruct (lastEntry entries k).
Qed.

Lemma lastEntry_range entries k c : lastEntry entries k = Some c -> 0 <= c < 2 ^ 24.
Proof.
  induction entries as [|kv entries IH]; cbn [lastEntry]; [done|].
  destruct (lastEntry entries k) as [c'|]; [intros H; apply (inj Some) in H; subst; auto|].
  destruct (decide (hexToInt32 kv.1 = k)); [|done].
  intros H. apply (inj Some) in H. subst c. apply hexToInt32_range.
Qed.

(** *** Table variants *)

Lemma stepValue_table sc oc a color colors i name c :
  arrayGet colors i = Some c -> c <> 0 ->
  stepValue sc oc a color false colors i (name, None) = Some (bor (shl a 24) c).
Proof.
  intros Hc Hne. unfold stepValue. cbn [snd hueTruthy]. rewrite Hc. cbn [numTruthy default from_option id].
  by rewrite (proj2 (Z.eqb_neq c 0) Hne).
Qed.

Lemma stepValue_table_unmapped sc oc a color colors i name :
  numTruthy (arrayGet colors i) = false ->
  stepValue sc oc a color false colors i (name, None) = if isNull sc then Some oc else None.
Proof. intros Hc. unfold stepValue. cbn [snd hueTruthy]. by rewrite Hc. Qed.

(** X3: a table entry with a target other than [#000000]: when the scan returns,
    the word stored for a non-transparent, non-static pixel whose key the
    table maps is the target under the pixel's own alpha byte. *)
Theorem table_entry_written width height imageData inputVariants (sc : option (gset Z))
    imageName ignoreMissing st idx oc i name entries c :
  scan width height imageData (variantOf <$> inputVariants) (compile 0 inputVariants ∅)
    sc imageName ignoreMissing = inr st ->
  inputVariants !! i = Some (name, Table entries) ->
  (idx < width * height)%nat ->
  imageData !! idx = Some oc ->
  0 <= oc < 2 ^ 32 ->
  oc / 2 ^ 24 <> 0 ->
  (forall s, sc = Some s -> oc mod 2 ^ 24 ∉ s) ->
  lastEntry entries (oc mod 2 ^ 24) = Some c ->
  c <> 0 ->
  exists buf, buffers st !! i = Some buf /\
    buf !! idx = Some (oc / 2 ^ 24 * 2 ^ 24 + c) /\ 0 <= c < 2 ^ 24.
Proof.
  intros Hscan Hi Hidx Hoc Hr Ha Hns Hlast Hc.
  assert (Hv : (variantOf <$> inputVariants) !! i = Some (name, None)).
  { by rewrite list_lookup_fmap, Hi. }
  destruct (scan_buffers _ _ _ _ _ _ _ _ _ _ _ _ Hscan Hv Hidx) as (buf & Hb & Hw).
  exists buf. split; [done|].
  pose proof (lastEntry_range _ _ _ Hlast) as Hrange. split; [|done].
  rewrite (pixelValue_opaque _ _ _ _ _ _ _ Hoc Hr Ha) in Hw.
  pose proof (isStaticKey_notin _ _ Hns) as Hstatic.
  rewrite Hstatic in Hw.
  rewrite (stepValue_table _ _ _ _ _ _ _ c) in Hw; [|
    unfold colorsOf; rewrite Hstatic, (compile_table_slot _ _ _ _ _ Hi); exact Hlast | done].
  rewrite Hw. f_equal. apply pack_alpha; [by apply alpha_byte|done].
Qed.

(** X4: a key the table does not map (no entry, or an entry whose target packs
    to 0): when the scan returns, the pixel is copied as it is if no static
    set was given; with a static set it stays 0 and the pair is recorded. *)
Theorem unmapped_pixel_policy width height imageData inputVariants (sc : option (gset Z))
    imageName ignoreMissing st idx oc i name entries :
  scan width height imageData (variantOf <$> inputVariants) (compile 0 inputVariants ∅)
    sc imageName ignoreMissing = inr st ->
  inputVariants !! i = Some (name, Table entries) ->
  (idx < width * height)%nat ->
  imageData !! idx = Some oc ->
  0 <= oc < 2 ^ 32 ->
  oc / 2 ^ 24 <> 0 ->
  (forall s, sc = Some s -> oc mod 2 ^ 24 ∉ s) ->
  (lastEntry entries (oc mod 2 ^ 24) = None \/ lastEntry entries (oc mod 2 ^ 24) = Some 0) ->
  exists buf, buffers st !! i = Some buf /\
    (sc = None -> buf !! idx = Some oc)
    /\ (forall s, sc = Some s ->
          buf !! idx = Some 0 /\ (name, oc mod 2 ^ 24) ∈ missing st /\ ignoreMissing = true).
Proof.
  intros Hscan Hi Hidx Hoc Hr Ha Hns Hlast.
  assert (Hv : (variantOf <$> inputVariants) !! i = Some (name, None)).
  { by rewrite list_lookup_fmap, Hi. }
  destruct (scan_buffers _ _ _ _ _ _ _ _ _ _ _ _ Hscan Hv Hidx) as (buf & Hb & Hw).
  exists buf. split; [done|].
  rewrite (pixelValue_opaque _ _ _ _ _ _ _ Hoc Hr Ha) in Hw.
  pose proof (isStaticKey_notin _ _ Hns) as Hstatic.
  rewrite Hstatic in Hw.
  assert (Hfalsy : numTruthy (arrayGet (colorsOf (compile 0 inputVariants ∅) sc (oc mod 2 ^ 24)) i)
                   = false).
  { unfold colorsOf. rewrite Hstatic, (compile_table_slot _ _ _ _ _ Hi).
    by destruct Hlast as [-> | ->]. }
  assert (Hstep := stepValue_table_unmapped sc oc (oc / 2 ^ 24) (oc mod 2 ^ 24) _ i name Hfalsy).
  rewrite Hstep in Hw. split.
  - intros ->. cbn [isNull] in Hw. by rewrite uint32_small in Hw.
  - intros s ->. cbn [isNull] in Hw. split; [done|].
    assert (Hin : (name, oc mod 2 ^ 24) ∈ missing st).
    { rewrite (scan_missing _ _ _ _ _ _ _ _ _ Hscan).
      apply list_elem_of_bind. exists idx. split; [|by apply elem_of_allIndices].
      rewrite (pixelMissing_opaque _ _ _ _ _ _ Hoc Hr Ha), Hstatic.
      by apply (stepMissing_in _ _ _ _ _ _ _ 0%nat i (name, None)). }
    split; [done|].
    destruct ignoreMissing; [done|]. exfalso.
    unfold scan in Hscan.
    assert (Hgen : forall ys s0 s1,
      rows width imageData (variantOf <$> inputVariants) (compile 0 inputVariants ∅) (Some s)
        imageName false ys s0 = inr s1 -> missing s0 = [] -> missing s1 = []).
    { induction ys as [|y ys IH]; intros s0 s1 Hrows H0; cbn [rows] in Hrows.
      - apply (inj inr) in Hrows. by subst s1.
      - cbn [negb andb] in Hrows.
        destruct (bool_decide (missing (row width imageData (variantOf <$> inputVariants)
                    (compile 0 inputVariants ∅) (Some s) y s0) = [])) eqn:E; [|done].
        apply bool_decide_eq_true in E. cbn [negb] in Hrows. by apply (IH _ _ Hrows). }
    rewrite (Hgen _ _ _ Hscan eq_refl) in Hin. by apply elem_of_nil in Hin.
Qed.

(** *** When the scan throws *)

Lemma stepMissing_no_static oc a color isStatic colors vs : forall i0,
  stepMissing None oc a color isStatic colors i0 vs = [].
Proof.
  induction vs as [|v vs IH]; intros i0; [done|].
  cbn [stepMissing]. rewrite IH, app_nil_r. unfold stepValue.
  destruct isStatic; [done|]. destruct (hueTruthy v.2); [done|].
  by destruct (numTruthy (arrayGet colors i0)).
Qed.

Lemma pixelMissing_no_static imageData variants palettes l :
  l ≫= pixelMissing imageData variants palettes None = [].
Proof.
  induction l as [|x l IH]; [done|]. cbn [mbind list_bind]. rewrite IH, app_nil_r.
  unfold pixelMissing. destruct (alphaOf _ =? 0); [done|]. apply stepMissing_no_static.
Qed.

Section Throw.
Context (width height : nat) (imageData : list Z) (variants : list Entry).
Context (palettes : gmap Z (list (option Z))) (sc : option (gset Z)).
Context (imageName : option string).

Local Abbreviation over := (pixelsOver imageData variants palettes sc).
Local Abbreviation rowsOf := (rows width imageData variants palettes sc imageName).

Lemma rows_ignore ys : forall st, rowsOf true ys st = inr (over (allIndices width ys) st).
Proof.
  induction ys as [|y ys IH]; intros st; cbn [rows]; [done|].
  cbn [negb andb]. rewrite IH. unfold allIndices. cbn [mbind list_bind].
  by rewrite pixelsOver_app, row_pixelsOver.
Qed.

Lemma rows_strict_cons y ys st :
  rowsOf false (y :: ys) st =
  if bool_decide (missing (over (rowIndices width y) st) = [])
  then rowsOf false ys (over (rowIndices width y) st)
  else inl (message imageName (missing (over (rowIndices width y) st))).
Proof.
  cbn [rows negb andb]. rewrite row_pixelsOver.
  by destruct (bool_decide (missing (over (rowIndices width y) st) = [])).
Qed.

Lemma rows_strict_inr ys : forall st st',
  rowsOf false ys st = inr st' -> missing st = [] -> missing st' = [].
Proof.
  induction ys as [|y ys IH]; intros st st' H H0.
  { cbn [rows] in H. apply (inj inr) in H. by subst st'. }
  rewrite rows_strict_cons in H.
  destruct (bool_decide (missing (over (rowIndices width y) st) = [])) eqn:E; [|done].
  apply bool_decide_eq_true in E. by apply (IH _ _ H).
Qed.

Lemma rows_strict_inl n : forall a st msg,
  missing st = [] ->
  rowsOf false (seq a n) st = inl msg ->
  exists k, (k < n)%nat
    /\ missing (over (allIndices width (seq a k)) st) = []
    /\ missing (over (allIndices width (seq a (S k))) st) <> []
    /\ msg = message imageName (missing (over (allIndices width (seq a (S k))) st)).
Proof.
  induction n as [|n IH]; intros a st msg Hst H; [done|].
  cbn [seq] in H. rewrite rows_strict_cons in H.
  assert (Hsplit : forall m, over (allIndices width (seq a (S m))) st
                   = over (allIndices width (seq (S a) m)) (over (rowIndices width a) st)).
  { intros m. cbn [seq]. unfold allIndices at 1. cbn [mbind list_bind].
    by rewrite pixelsOver_app. }
  destruct (bool_decide (missing (over (rowIndices width a) st) = [])) eqn:E.
  - apply bool_decide_eq_true in E.
    destruct (IH _ _ _ E H) as (k & Hk & Hbefore & Hafter & Hmsg).
    exists (S k). split; [lia|]. by rewrite !Hsplit.
  - apply bool_decide_eq_false in E. apply (inj inl) in H. subst msg.
    exists 0%nat. split; [lia|]. rewrite Hsplit. split; [done|]. done.
Qed.

(** X5: with [ignoreMissing], or with no static set, the scan never throws. *)
Theorem scan_lenient (ignoreMissing : bool) :
  ignoreMissing = true \/ sc = None ->
  exists st, scan width height imageData variants palettes sc imageName ignoreMissing = inr st
    /\ st = over (allIndices width (seq 0 height)) (initial width height variants)
    /\ (sc = None -> missing st = []).
Proof.
  intros Hl.
  assert (Hnone : sc = None -> forall l st, missing (over l st) = missing st).
  { intros Hsc l st. rewrite pixelsOver_missing, Hsc.
    by rewrite pixelMissing_no_static, app_nil_r. }
  eexists. split; [|split; [reflexivity|]].
  - unfold scan. destruct ignoreMissing; [apply rows_ignore|].
    destruct Hl as [?|Hsc]; [done|].
    generalize (seq 0 height) (initial width height variants) (eq_refl : missing (initial width height variants) = []).
    intros ys. induction ys as [|y ys IHy]; intros st Hst; [done|].
    rewrite rows_strict_cons. rewrite (Hnone Hsc), Hst.
    rewrite bool_decide_eq_true_2 by done.
    rewrite IHy by (by rewrite (Hnone Hsc)).
    unfold allIndices. cbn [mbind list_bind]. by rewrite pixelsOver_app.
  - intros Hsc. by rewrite (Hnone Hsc).
Qed.

(** X6: without [ignoreMissing], a scan that returns has recorded nothing. *)
Theorem scan_strict_clean st :
  scan width height imageData variants palettes sc imageName false = inr st ->
  missing st = [].
Proof. intros H. by apply (rows_strict_inr _ _ _ H). Qed.

(** X7: the error comes from the first row that records a pair: the rows before
    it recorded nothing, it did, and the message is built from the pairs
    recorded up to the end of that row; later rows are never reached. *)
Theorem scan_throws_at_first_row ignoreMissing msg :
  scan width height imageData variants palettes sc imageName ignoreMissing = inl msg ->
  ignoreMissing = false
  /\ exists y, (y < height)%nat
       /\ missing (over (allIndices width (seq 0 y)) (initial width height variants)) = []
       /\ missing (over (allIndices width (seq 0 (S y))) (initial width height variants)) <> []
       /\ msg = message imageName
                  (missing (over (allIndices width (seq 0 (S y))) (initial width height variants))).
Proof.
  intros H. unfold scan in H. destruct ignoreMissing.
  { by rewrite rows_ignore in H. }
  split; [done|].
  by apply (rows_strict_inl height 0%nat (initial width height variants) msg).
Qed.

End Throw.

(** *** The results *)

Lemma collect_elem width height images vs : forall bufs name img,
  (name, img) ∈ collect width height images vs bufs <->
  exists i v buf, vs !! i = Some v /\ bufs !! i = Some buf /\ name = v.1
    /\ img = mkImageData width height (bytesOfWords buf)
    /\ included width height images name img = true.
Proof.
  induction vs as [|v vs IH]; intros bufs name img.
  { split; [by intros H; apply elem_of_nil in H|]. by intros (i & v & buf & H & _). }
  destruct bufs as [|buf bufs].
  { split; [by intros H; apply elem_of_nil in H|]. by intros (i & v' & buf & _ & H & _). }
  cbn [collect]. rewrite elem_of_app, IH. split.
  - intros [H|(i & v' & buf' & H1 & H2 & H3)].
    + destruct (included width height images v.1 _) eqn:E; [|by apply elem_of_nil in H].
      apply list_elem_of_singleton in H. injection H as -> ->.
      by exists 0%nat, v, buf.
    + by exists (S i), v', buf'.
  - intros (i & v' & buf' & H1 & H2 & -> & -> & H5). destruct i as [|i]; cbn in H1, H2.
    + injection H1 as ->. injection H2 as ->. left. rewrite H5.
      by apply list_elem_of_singleton.
    + right. by exists i, v', buf'.
Qed.

Lemma collect_names_sublist width height images vs : forall bufs,
  fst <$> collect width height images vs bufs `sublist_of` fst <$> vs.
Proof.
  induction vs as [|v vs IH]; intros bufs; [done|].
  destruct bufs as [|buf bufs]; [apply sublist_nil_l|].
  cbn [collect]. rewrite fmap_app, fmap_cons.
  destruct (included width height images v.1 _); cbn [fmap list_fmap app].
  - by apply sublist_skip.
  - by apply sublist_cons.
Qed.

Lemma collect_all width height vs : forall bufs,
  length bufs = length vs ->
  fst <$> collect width height None vs bufs = fst <$> vs.
Proof.
  induction vs as [|v vs IH]; intros bufs Hlen; [done|].
  destruct bufs as [|buf bufs]; [done|].
  cbn [collect included mbind option_bind app]. rewrite !fmap_cons. cbn [fst].
  cbn in Hlen. f_equal. apply IH. lia.
Qed.

Lemma pixelsOver_length imageData variants palettes sc l : forall st,
  length (buffers (pixelsOver imageData variants palettes sc l st)) = length (buffers st).
Proof.
  induction l as [|x l IH]; intros st; [done|].
  rewrite pixelsOver_cons, IH. apply pixel_length.
Qed.

Lemma scan_buffers_length width height imageData variants palettes sc imageName
    ignoreMissing st :
  scan width height imageData variants palettes sc imageName ignoreMissing = inr st ->
  length (buffers st) = length variants.
Proof.
  intros H. unfold scan in H. apply rows_inr in H. subst st.
  rewrite pixelsOver_length. unfold initial. cbn [buffers]. apply length_replicate.
Qed.

(** X8: what [paletteSwap] returns: an entry of the results is a variant of the
    input, with the size of the source and the bytes of its buffer, for
    which no prior image was given or whose prior image, read over the
    source's rectangle, is not [equals] to it; every such variant is in the
    results, and the results keep the order of the variants. *)
Theorem paletteSwap_results image inputVariants staticColors images imageName ignoreMissing
    results :
  paletteSwap image inputVariants staticColors images imageName ignoreMissing = inr results ->
  let width := img_width image in
  let height := img_height image in
  exists st,
    scan width height (wordsOfBytes (data (getImageData image width height)))
      (variantOf <$> inputVariants) (compile 0 inputVariants ∅)
      ((fun l => (list_to_set (hexToInt32 <$> l) : gset Z)) <$> staticColors)
      imageName ignoreMissing = inr st
    /\ (forall name img,
          (name, img) ∈ results <->
          exists i palette buf,
            inputVariants !! i = Some (name, palette) /\ buffers st !! i = Some buf
            /\ img = mkImageData width height (bytesOfWords buf)
            /\ (forall prior, images ≫= (fun m => lookupImage m name) = Some prior ->
                  Packed.equals img (getImageData prior width height) = false))
    /\ fst <$> results `sublist_of` fst <$> inputVariants
    /\ (images = None -> fst <$> results = fst <$> inputVariants).
Proof.
  intros H width height. unfold paletteSwap in H. fold width height in H.
  destruct (scan width height _ _ _ _ imageName ignoreMissing) as [msg|st] eqn:E; [done|].
  apply (inj inr) in H. subst results. exists st. split; [done|]. split; [|split].
  - intros name img. rewrite collect_elem. split.
    + intros (i & v & buf & Hv & Hb & -> & -> & Hinc).
      rewrite list_lookup_fmap in Hv.
      destruct (inputVariants !! i) as [[n p]|] eqn:Ei; [|done].
      apply (inj Some) in Hv. subst v. cbn [variantOf fst].
      exists i, p, buf. split; [done|]. split; [done|]. split; [done|].
      intros prior Hp. unfold included in Hinc. cbn [variantOf fst] in Hinc.
      rewrite Hp in Hinc. by apply negb_true_iff in Hinc.
    + intros (i & p & buf & Hi & Hb & -> & Hprior).
      exists i, (variantOf (name, p)), buf. split; [by rewrite list_lookup_fmap, Hi|].
      split; [done|]. split; [done|]. split; [done|].
      unfold included.
      destruct (images ≫= fun m => lookupImage m name) as [prior|] eqn:Ep; [|done].
      apply negb_true_iff. by apply Hprior.
  - pose proof (collect_names_sublist width height images (variantOf <$> inputVariants)
                  (buffers st)) as Hs.
    rewrite <- list_fmap_compose in Hs.
    assert (Heq : fst ∘ variantOf = fst) by reflexivity.
    by rewrite Heq in Hs.
  - intros ->. rewrite collect_all.
    + by rewrite <- list_fmap_compose.
    + rewrite (scan_buffers_length _ _ _ _ _ _ _ _ _ E). done.
Qed.

(** *** Integers below 2^53 are numbers *)

Lemma digits2_pos_lower p : 2 ^ (Zpos (digits2_pos p) - 1) <= Zpos p.
Proof.
  induction p as [p IH|p IH|]; cbn [digits2_pos]; [| |done].
  - rewrite Pos2Z.inj_succ. replace (Z.succ (Zpos (digits2_pos p)) - 1)
      with (Z.succ (Zpos (digits2_pos p) - 1)) by lia.
    rewrite Z.pow_succ_r by lia. lia.
  - rewrite Pos2Z.inj_succ. replace (Z.succ (Zpos (digits2_pos p)) - 1)
      with (Z.succ (Zpos (digits2_pos p) - 1)) by lia.
    rewrite Z.pow_succ_r by lia. lia.
Qed.

Lemma digits2_pos_bound p : Zpos p < 2 ^ 53 -> Zpos (digits2_pos p) <= 53.
Proof.
  intros Hp. pose proof (digits2_pos_lower p) as Hl.
  destruct (decide (Zpos (digits2_pos p) <= 53)) as [|Hn]; [done|].
  assert (2 ^ 53 <= 2 ^ (Zpos (digits2_pos p) - 1)) by (apply Z.pow_le_mono_r; lia). lia.
Qed.

Lemma iter_xO_digits p k :
  Zpos (digits2_pos (Pos.iter xO p k)) = Zpos (digits2_pos p) + Zpos k.
Proof.
  induction k as [|k IH] using Pos.peano_ind.
  - cbn [Pos.iter digits2_pos]. lia.
  - rewrite Pos.iter_succ. cbn [digits2_pos]. lia.
Qed.

Lemma iter_xO_value p k : Zpos (Pos.iter xO p k) = Zpos p * 2 ^ Zpos k.
Proof.
  induction k as [|k IH] using Pos.peano_ind.
  - cbn [Pos.iter]. lia.
  - rewrite Pos.iter_succ, Pos2Z.inj_xO, IH, Pos2Z.inj_succ, Z.pow_succ_r by lia. lia.
Qed.

Lemma shr_fexp_full m e :
  Zpos (digits2_pos m) = 53 -> -1074 <= e ->
  shr_fexp prec emax (Zpos m) e loc_Exact
  = ({| shr_m := Zpos m; shr_r := false; shr_s := false |}, e).
Proof.
  intros Hd He. unfold shr_fexp, fexp, Zdigits2, SpecFloat.emin, prec, emax. rewrite Hd.
  replace (Z.max (53 + e - 53) (3 - 1024 - 53) - e) with 0 by lia. reflexivity.
Qed.

Lemma binary_round_aux_full m e :
  Zpos (digits2_pos m) = 53 -> -1074 <= e <= 971 ->
  binary_round_aux prec emax false (Zpos m) e loc_Exact = S754_finite false m e.
Proof.
  intros Hd He. unfold binary_round_aux. rewrite (shr_fexp_full m e Hd) by lia.
  cbn [shr_m loc_of_shr_record round_nearest_even].
  rewrite (shr_fexp_full m e Hd) by lia. cbn [shr_m].
  unfold prec, emax. by rewrite (proj2 (Z.leb_le e (1024 - 53))) by lia.
Qed.

Lemma binary_normalize_exact p :
  Zpos p < 2 ^ 53 ->
  binary_normalize prec emax (Zpos p) 0 false
  = S754_finite false (mantissaOf p) (Zpos (digits2_pos p) - 53).
Proof.
  intros Hp. pose proof (digits2_pos_bound p Hp) as Hd.
  cbn [binary_normalize]. unfold binary_round, shl_align, mantissaOf.
  assert (Hf : fexp prec emax (Zpos (digits2_pos p) + 0) = Zpos (digits2_pos p) - 53).
  { unfold fexp, SpecFloat.emin, prec, emax. lia. }
  rewrite Hf. rewrite Z.sub_0_r.
  destruct (Zpos (digits2_pos p) - 53) as [|k|k] eqn:E.
  - replace (53 - Zpos (digits2_pos p)) with 0 by lia.
    apply binary_round_aux_full; lia.
  - lia.
  - replace (53 - Zpos (digits2_pos p)) with (Zpos k) by lia.
    apply binary_round_aux_full; [rewrite iter_xO_digits|]; lia.
Qed.

Lemma mantissaOf_digits p : Zpos p < 2 ^ 53 -> Zpos (digits2_pos (mantissaOf p)) = 53.
Proof.
  intros Hp. pose proof (digits2_pos_bound p Hp) as Hd. unfold mantissaOf.
  destruct (53 - Zpos (digits2_pos p)) as [|k|k] eqn:E; [lia| |lia].
  rewrite iter_xO_digits. lia.
Qed.

Lemma Prim2SF_Z2F_pos p :
  Zpos p < 2 ^ 53 ->
  Prim2SF (Z2F (Zpos p)) = S754_finite false (mantissaOf p) (Zpos (digits2_pos p) - 53).
Proof.
  intros Hp. unfold Z2F. rewrite (binary_normalize_exact p Hp).
  apply Prim2SF_SF2Prim. cbn [valid_binary]. unfold bounded, canonical_mantissa.
  rewrite (mantissaOf_digits p Hp).
  pose proof (digits2_pos_bound p Hp) as Hd.
  assert (0 < Zpos (digits2_pos p)) by lia.
  apply andb_true_intro. split.
  - apply Z.eqb_eq. unfold fexp, SpecFloat.emin, prec, emax. lia.
  - apply Z.leb_le. unfold prec, emax. lia.
Qed.

Lemma mantissaOf_value p :
  Zpos p < 2 ^ 53 ->
  Zpos (mantissaOf p) = Zpos p * 2 ^ (53 - Zpos (digits2_pos p)).
Proof.
  intros Hp. pose proof (digits2_pos_bound p Hp) as Hd. unfold mantissaOf.
  destruct (53 - Zpos (digits2_pos p)) as [|k|k] eqn:E; [lia| |lia].
  apply iter_xO_value.
Qed.

Lemma trunc_Z2F n : 0 <= n < 2 ^ 53 -> trunc (Z2F n) = n.
Proof.
  intros Hn. destruct n as [|p|p]; [reflexivity| |lia].
  unfold trunc. rewrite (Prim2SF_Z2F_pos p) by lia.
  pose proof (digits2_pos_bound p ltac:(lia)) as Hd.
  rewrite (mantissaOf_value p) by lia.
  destruct (0 <=? Zpos (digits2_pos p) - 53) eqn:E.
  - apply Z.leb_le in E. replace (Zpos (digits2_pos p) - 53) with 0 by lia.
    replace (53 - Zpos (digits2_pos p)) with 0 by lia. rewrite Z.shiftl_0_r. lia.
  - rewrite Z.shiftr_div_pow2 by lia.
    replace (- (Zpos (digits2_pos p) - 53)) with (53 - Zpos (digits2_pos p)) by lia.
    apply Z.div_mul. apply Z.pow_nonzero; lia.
Qed.

Lemma Math_round_Z2F n : 0 <= n < 2 ^ 53 -> Math_round (Z2F n) = n.
Proof.
  intros Hn. destruct n as [|p|p]; [reflexivity| |lia].
  unfold Math_round. rewrite (Prim2SF_Z2F_pos p) by lia.
  pose proof (digits2_pos_bound p ltac:(lia)) as Hd.
  rewrite (mantissaOf_value p) by lia.
  set (k := 53 - Zpos (digits2_pos p)).
  destruct (0 <=? Zpos (digits2_pos p) - 53) eqn:E.
  - apply Z.leb_le in E. replace (Zpos (digits2_pos p) - 53) with 0 by lia.
    subst k. replace (53 - Zpos (digits2_pos p)) with 0 by lia. rewrite Z.shiftl_0_r. lia.
  - apply Z.leb_gt in E.
    replace (- (Zpos (digits2_pos p) - 53)) with k by lia.
    replace (1 - (Zpos (digits2_pos p) - 53)) with (k + 1) by lia.
    rewrite Z.shiftr_div_pow2, Z.shiftl_mul_pow2 by lia.
    rewrite Z.pow_add_r by lia.
    assert (Hk : 0 < 2 ^ k) by (apply Z.pow_pos_nonneg; lia).
    replace (2 * (Zpos p * 2 ^ k) + 1 * 2 ^ k) with (2 ^ k + Zpos p * (2 ^ k * 2 ^ 1)) by lia.
    rewrite Z.div_add by lia. rewrite Z.div_small by lia. lia.
Qed.

Lemma finite_Z2F n :
  0 <= n < 2 ^ 53 -> PrimFloat.is_nan (Z2F n) = false /\ PrimFloat.is_infinity (Z2F n) = false.
Proof.
  intros Hn. destruct n as [|p|p]; [done| |lia].
  pose proof (Prim2SF_Z2F_pos p ltac:(lia)) as H.
  unfold Prim2SF in H.
  destruct (PrimFloat.is_nan (Z2F (Zpos p))); [done|].
  destruct (PrimFloat.is_zero (Z2F (Zpos p))); [done|].
  by destruct (PrimFloat.is_infinity (Z2F (Zpos p))).
Qed.

(** *** Hex strings of bytes *)

Lemma append_cons c (s r : string) : (String c s +:+ r)%string = String c (s +:+ r)%string.
Proof. reflexivity. Qed.

Lemma append_nil (r : string) : ("" +:+ r)%string = r.
Proof. reflexivity. Qed.

Lemma hexDigit_value d : 0 <= d < 16 -> hexDigitValue (hexDigit d) = Some d.
Proof.
  intros Hd. assert (H : In d (Z.of_nat <$> seq 0 16)).
  { apply list_elem_of_In, list_elem_of_fmap. exists (Z.to_nat d). split; [lia|].
    apply elem_of_seq. lia. }
  cbn in H. repeat (destruct H as [<-|H]; [reflexivity|]). done.
Qed.

Lemma hexDigit_word d : 0 <= d < 16 -> isWord (hexDigit d) = true.
Proof.
  intros Hd. assert (H : In d (Z.of_nat <$> seq 0 16)).
  { apply list_elem_of_In, list_elem_of_fmap. exists (Z.to_nat d). split; [lia|].
    apply elem_of_seq. lia. }
  cbn in H. repeat (destruct H as [<-|H]; [reflexivity|]). done.
Qed.

Lemma hex_not_space c d : hexDigitValue c = Some d -> isWhiteSpace c = false.
Proof. each_ascii c; try reflexivity; discriminate. Qed.

Lemma hex_not_sign c d (r : string) :
  hexDigitValue c = Some d ->
  match String c r with
  | String "-"%char r' => (true, r')
  | String "+"%char r' => (false, r')
  | _ => (false, String c r)
  end = (false, String c r).
Proof. each_ascii c; try reflexivity; discriminate. Qed.

Lemma hex_not_prefix c1 c2 d (r : string) :
  hexDigitValue c2 = Some d -> strip0x (String c1 (String c2 r)) = String c1 (String c2 r).
Proof.
  intros H. each_ascii c1; try reflexivity.
  each_ascii c2; try reflexivity; discriminate.
Qed.

Lemma parseInt16_digits c1 c2 d1 d2 (r : string) :
  hexDigitValue c1 = Some d1 -> hexDigitValue c2 = Some d2 ->
  parseInt16 (String c1 (String c2 r)) =
  match parseDigits (String c1 (String c2 r)) None with
  | None => PrimFloat.nan
  | Some n => Z2F n
  end.
Proof.
  intros H1 H2. unfold parseInt16. cbn [trimStart]. rewrite (hex_not_space c1 d1 H1).
  rewrite (hex_not_sign c1 d1 _ H1). by rewrite (hex_not_prefix c1 c2 d2 r H2).
Qed.

Lemma parseDigits_twoDigits n (rest : string) acc :
  0 <= n < 256 ->
  parseDigits (twoDigits n +:+ rest) acc = parseDigits rest (Some (256 * default 0 acc + n)).
Proof.
  intros Hn. unfold twoDigits. rewrite !append_cons, append_nil. cbn [parseDigits].
  assert (H1 : 0 <= n / 16 < 16) by (split; [apply Z.div_pos; lia|apply Z.div_lt_upper_bound; lia]).
  assert (H2 : 0 <= n mod 16 < 16) by (apply Z.mod_pos_bound; lia).
  rewrite (hexDigit_value _ H1), (hexDigit_value _ H2). cbn [default from_option id].
  do 2 f_equal. pose proof (Z.div_mod n 16 ltac:(lia)). lia.
Qed.

Lemma parseInt16_twoDigits n (rest : string) :
  0 <= n < 256 ->
  parseInt16 (twoDigits n +:+ rest) =
  match parseDigits rest (Some n) with
  | None => PrimFloat.nan
  | Some m => Z2F m
  end.
Proof.
  intros Hn.
  assert (H1 : 0 <= n / 16 < 16) by (split; [apply Z.div_pos; lia|apply Z.div_lt_upper_bound; lia]).
  assert (H2 : 0 <= n mod 16 < 16) by (apply Z.mod_pos_bound; lia).
  unfold twoDigits at 1. rewrite !append_cons, append_nil.
  rewrite (parseInt16_digits _ _ _ _ _ (hexDigit_value _ H1) (hexDigit_value _ H2)).
  change (String (hexDigit (n / 16)) (String (hexDigit (n mod 16)) rest))
    with (twoDigits n +:+ rest).
  rewrite parseDigits_twoDigits by done. cbn [default from_option id].
  by replace (256 * 0 + n) with n by lia.
Qed.

Lemma packed_hex_byte n : 0 <= n < 256 -> Packed.hex (Z2F n) = twoDigits n.
Proof.
  intros Hn. change (Packed.hex (Z2F n)) with (HexKeyed.hex (Z2F n)).
  rewrite hex_byte.
  - by rewrite Math_round_Z2F by lia.
  - destruct (finite_Z2F n ltac:(lia)) as [H1 H2]. split; [done|]. split; [done|].
    by rewrite Math_round_Z2F by lia.
Qed.

Lemma rgbToHex_bytes r g b :
  0 <= r < 256 -> 0 <= g < 256 -> 0 <= b < 256 ->
  rgbToHex (r, g, b) = ("#" +:+ twoDigits r +:+ twoDigits g +:+ twoDigits b)%string.
Proof.
  intros Hr Hg Hb. unfold rgbToHex.
  by rewrite (packed_hex_byte r Hr), (packed_hex_byte g Hg), (packed_hex_byte b Hb).
Qed.

Lemma sar_small x n : 0 <= x < 2 ^ 31 -> 0 <= n -> sar x n = x / 2 ^ n.
Proof. intros Hx Hn. unfold sar. rewrite int32_small by lia. by apply Z.shiftr_div_pow2. Qed.

Lemma int32ToRgb_bytes r g b :
  0 <= r < 256 -> 0 <= g < 256 -> 0 <= b < 256 ->
  int32ToRgb (r * 2 ^ 16 + g * 2 ^ 8 + b) = (r, g, b).
Proof.
  intros Hr Hg Hb. unfold int32ToRgb.
  rewrite !sar_small by lia.
  change 255 with (2 ^ 8 - 1). rewrite !(band_mask _ 8) by lia.
  f_equal; [f_equal|].
  - replace (r * 2 ^ 16 + g * 2 ^ 8 + b) with (g * 2 ^ 8 + b + r * 2 ^ 16) by lia.
    rewrite Z.div_add by lia. rewrite (Z.div_small (g * 2 ^ 8 + b)) by lia.
    apply Z.mod_small. lia.
  - replace (r * 2 ^ 16 + g * 2 ^ 8 + b) with (b + (r * 2 ^ 8 + g) * 2 ^ 8) by lia.
    rewrite Z.div_add by lia. rewrite (Z.div_small b) by lia.
    replace (0 + (r * 2 ^ 8 + g)) with (g + r * 2 ^ 8) by lia.
    rewrite Z.mod_add by lia. apply Z.mod_small. lia.
  - replace (r * 2 ^ 16 + g * 2 ^ 8 + b) with (b + (r * 2 ^ 8 + g) * 2 ^ 8) by lia.
    rewrite Z.mod_add by lia. apply Z.mod_small. lia.
Qed.

Lemma hexToInt32_packs r g b :
  0 <= r < 256 -> 0 <= g < 256 -> 0 <= b < 256 ->
  hexToInt32 (rgbToHex (r, g, b)) = b * 2 ^ 16 + g * 2 ^ 8 + r.
Proof.
  intros Hr Hg Hb.
  rewrite rgbToHex_bytes by done. unfold hexToInt32. rewrite append_cons, append_nil.
  cbn [slice1].
  rewrite parseInt16_twoDigits by done.
  rewrite parseDigits_twoDigits by done. cbn [default from_option id].
  replace (twoDigits b) with (twoDigits b +:+ "")%string
    by (unfold twoDigits; reflexivity).
  rewrite parseDigits_twoDigits by done. cbn [parseDigits default from_option id].
  set (n := 256 * (256 * r + g) + b).
  assert (Hn : 0 <= n < 2 ^ 24) by (subst n; lia).
  unfold ToInt32. rewrite trunc_Z2F by lia. rewrite int32_small by lia.
  change 16777215 with (2 ^ 24 - 1). rewrite (band_mask n 24) by lia.
  rewrite Z.mod_small by lia.
  replace n with (r * 2 ^ 16 + g * 2 ^ 8 + b) by (subst n; lia).
  rewrite int32ToRgb_bytes by done. by apply pack_bytes.
Qed.

(** X9: [hexToInt32] on the hex of a colour: the three bytes packed with red
    lowest, as a [Uint32Array] shows an RGBA pixel; [int32ToHex] does not
    undo it: it prints the packed key with red and blue exchanged. *)
Theorem hexToInt32_rgbToHex r g b :
  0 <= r < 256 -> 0 <= g < 256 -> 0 <= b < 256 ->
  hexToInt32 (rgbToHex (r, g, b)) = b * 2 ^ 16 + g * 2 ^ 8 + r
  /\ int32ToRgb (hexToInt32 (rgbToHex (r, g, b))) = (b, g, r)
  /\ int32ToHex (hexToInt32 (rgbToHex (r, g, b))) = rgbToHex (b, g, r).
Proof.
  intros Hr Hg Hb. rewrite hexToInt32_packs by done.
  split; [done|]. unfold int32ToHex. by rewrite int32ToRgb_bytes by done.
Qed.

Lemma hexToInt32_rgbToHex_witness :
  hexToInt32 (rgbToHex (255, 128, 0)) = 0 * 2 ^ 16 + 128 * 2 ^ 8 + 255
  /\ int32ToRgb (hexToInt32 (rgbToHex (255, 128, 0))) = (0, 128, 255)
  /\ int32ToHex (hexToInt32 (rgbToHex (255, 128, 0))) = rgbToHex (0, 128, 255).
Proof. apply (hexToInt32_rgbToHex 255 128 0); lia. Defined.

(** *** [hexToRgba] after [rgbaToHex] *)

Lemma matchWW_twoDigits n (rest : string) :
  0 <= n < 256 -> matchWW (twoDigits n +:+ rest) = twoDigits n :: matchWW rest.
Proof.
  intros Hn.
  assert (H1 : 0 <= n / 16 < 16) by (split; [apply Z.div_pos; lia|apply Z.div_lt_upper_bound; lia]).
  assert (H2 : 0 <= n mod 16 < 16) by (apply Z.mod_pos_bound; lia).
  unfold twoDigits. rewrite !append_cons, append_nil. cbn [matchWW].
  by rewrite (hexDigit_word _ H1), (hexDigit_word _ H2).
Qed.

Lemma matchWW_hash (s : string) : matchWW (String "#"%char s) = matchWW s.
Proof. cbn [matchWW]. destruct s as [|c rest]; [done|]. reflexivity. Qed.

Lemma parseInt16_byte n : 0 <= n < 256 -> parseInt16 (twoDigits n) = Z2F n.
Proof.
  intros Hn. replace (twoDigits n) with (twoDigits n +:+ "")%string by reflexivity.
  by rewrite parseInt16_twoDigits.
Qed.

Lemma alphaShown_all : forallb alphaShown byteValues = true.
Proof. vm_compute. reflexivity. Qed.

Lemma alpha_guard a :
  0 <= a < 256 ->
  truthy (Z2F a) && negb (PrimFloat.eqb (Z2F a) 255) = negb (a =? 0) && negb (a =? 255).
Proof.
  intros Ha. pose proof alphaShown_all as H. rewrite forallb_forall in H.
  specialize (H a (byteValues_in a Ha)). by apply Bool.eqb_prop in H.
Qed.

Lemma hexkeyed_hex_byte n : 0 <= n < 256 -> HexKeyed.hex (Z2F n) = twoDigits n.
Proof. intros Hn. exact (packed_hex_byte n Hn). Qed.

(** The key of a pixel: [rgbaToHex] of four bytes is [#rrggbb], followed by
    the two digits of alpha unless alpha is 0 or 255. *)
Lemma rgbaToHex_bytes r g b a :
  0 <= r < 256 -> 0 <= g < 256 -> 0 <= b < 256 -> 0 <= a < 256 ->
  HexKeyed.rgbaToHex (Z2F r) (Z2F g) (Z2F b) (Some (Z2F a)) =
  ("#" +:+ twoDigits r +:+ twoDigits g +:+ twoDigits b
   +:+ (if orb (Z.eqb a 0) (Z.eqb a 255) then "" else twoDigits a))%string.
Proof.
  intros Hr Hg Hb Ha. unfold HexKeyed.rgbaToHex.
  rewrite (hexkeyed_hex_byte r Hr), (hexkeyed_hex_byte g Hg), (hexkeyed_hex_byte b Hb).
  rewrite (alpha_guard a Ha), (hexkeyed_hex_byte a Ha).
  by destruct (a =? 0), (a =? 255).
Qed.

Lemma hexToRgba_colorText r g b (a : option Z) :
  0 <= r < 256 -> 0 <= g < 256 -> 0 <= b < 256 ->
  (forall x, a = Some x -> 0 <= x < 256) ->
  HexKeyed.hexToRgba (colorText r g b a) =
  inr ([Z2F r; Z2F g; Z2F b] ++ match a with Some x => [Z2F x] | None => [] end).
Proof.
  intros Hr Hg Hb Ha. unfold colorText, HexKeyed.hexToRgba.
  rewrite append_cons, append_nil, matchWW_hash.
  rewrite !matchWW_twoDigits by done.
  destruct a as [x|].
  - replace (twoDigits x) with (twoDigits x +:+ "")%string by reflexivity.
    rewrite matchWW_twoDigits by (by apply Ha).
    cbn [matchWW fmap list_fmap app]. rewrite !parseInt16_byte by done.
    by rewrite (parseInt16_byte x) by (by apply Ha).
  - cbn [matchWW fmap list_fmap app]. by rewrite !parseInt16_byte by done.
Qed.

Lemma rgbaToHex_colorText r g b a :
  0 <= r < 256 -> 0 <= g < 256 -> 0 <= b < 256 -> 0 <= a < 256 ->
  HexKeyed.rgbaToHex (Z2F r) (Z2F g) (Z2F b) (Some (Z2F a)) =
  colorText r g b (if (a =? 0) || (a =? 255) then None else Some a).
Proof.
  intros Hr Hg Hb Ha. rewrite rgbaToHex_bytes by done. unfold colorText.
  by destruct ((a =? 0) || (a =? 255)).
Qed.

(** X10: [hexToRgba] reads back what [rgbaToHex] wrote: the three colour
    bytes, and the alpha byte when it was written (alpha other than 0 and
    255). *)
Theorem hexToRgba_rgbaToHex r g b a :
  0 <= r < 256 -> 0 <= g < 256 -> 0 <= b < 256 -> 0 <= a < 256 ->
  HexKeyed.hexToRgba (HexKeyed.rgbaToHex (Z2F r) (Z2F g) (Z2F b) (Some (Z2F a))) =
  inr (if (a =? 0) || (a =? 255) then [Z2F r; Z2F g; Z2F b]
       else [Z2F r; Z2F g; Z2F b; Z2F a]).
Proof.
  intros Hr Hg Hb Ha. rewrite rgbaToHex_colorText by done.
  rewrite hexToRgba_colorText; [by destruct ((a =? 0) || (a =? 255))|done|done|done|].
  intros x Hx. destruct ((a =? 0) || (a =? 255)); [done|].
  apply (inj Some) in Hx. by subst x.
Qed.

Lemma hexToRgba_rgbaToHex_witness :
  HexKeyed.hexToRgba (HexKeyed.rgbaToHex (Z2F 1) (Z2F 2) (Z2F 3) (Some (Z2F 128))) =
  inr (if (128 =? 0) || (128 =? 255) then [Z2F 1; Z2F 2; Z2F 3]
       else [Z2F 1; Z2F 2; Z2F 3; Z2F 128]).
Proof. apply (hexToRgba_rgbaToHex 1 2 3 128); lia. Defined.

(** *** The pixel loop of the string-keyed engine *)

Lemma clampsToSelf_all : forallb clampsToSelf byteValues = true.
Proof. vm_compute. reflexivity. Qed.

Lemma ToUint8Clamp_byte n : 0 <= n < 256 -> ToUint8Clamp (Z2F n) = n.
Proof.
  intros Hn. pose proof clampsToSelf_all as H. rewrite forallb_forall in H.
  specialize (H n (byteValues_in n Hn)). by apply Z.eqb_eq in H.
Qed.

Lemma hexkeyed_set_bytes bytes i r g b a :
  0 <= r < 256 -> 0 <= g < 256 -> 0 <= b < 256 -> 0 <= a < 256 ->
  HexKeyed.set bytes i (Z2F r) (Z2F g) (Z2F b) (Z2F a) =
  <[(i + 3)%nat := a]> (<[(i + 2)%nat := b]> (<[(i + 1)%nat := g]> (<[i := r]> bytes))).
Proof. intros. unfold HexKeyed.set. by rewrite !ToUint8Clamp_byte. Qed.

(** X11: a pixel whose key the table maps to a colour text [#rrggbb] or
    [#rrggbbaa] is given that colour, with the alpha the text gives and
    alpha 255 when it gives none; the static colours are not consulted, and
    [missing] is left as it was. *)
Theorem hexkeyed_table_hit imageData entries staticColors (i : nat) (st : HexKeyed.LoopState)
    r g b a r' g' b' (a' : option Z) :
  imageData !! i = Some r -> imageData !! (i + 1)%nat = Some g ->
  imageData !! (i + 2)%nat = Some b -> imageData !! (i + 3)%nat = Some a ->
  0 <= r < 256 -> 0 <= g < 256 -> 0 <= b < 256 -> 0 <= a < 256 ->
  0 <= r' < 256 -> 0 <= g' < 256 -> 0 <= b' < 256 ->
  (forall x, a' = Some x -> 0 <= x < 256) ->
  HexKeyed.tableGet entries (HexKeyed.rgbaToHex (Z2F r) (Z2F g) (Z2F b) (Some (Z2F a)))
    = Some (HexKeyed.ToHex (colorText r' g' b' a')) ->
  HexKeyed.pixel imageData (HexKeyed.Table entries) staticColors i st =
  inr (<[(i + 3)%nat := default 255 a']>
         (<[(i + 2)%nat := b']> (<[(i + 1)%nat := g']> (<[i := r']> st.1))), st.2).
Proof.
  intros H0 H1 H2 H3 Hr Hg Hb Ha Hr' Hg' Hb' Ha' Hget.
  unfold HexKeyed.pixel. rewrite H0, H1, H2, H3. cbn [default from_option]. unfold id. cbv zeta.
  rewrite Hget.
  rewrite bool_decide_eq_false_2 by (unfold colorText; by rewrite append_cons).
  unfold HexKeyed.writeColor. rewrite hexToRgba_colorText by done.
  destruct a' as [x|].
  - cbn [app lookup list_lookup HexKeyed.part default from_option]. unfold id.
    by rewrite hexkeyed_set_bytes by (try done; by apply Ha').
  - cbn [app lookup list_lookup HexKeyed.part default from_option]. unfold id.
    change 255%float with (Z2F 255). by rewrite hexkeyed_set_bytes by (done || lia).
Qed.

Lemma hexkeyed_table_hit_witness :
  HexKeyed.pixel [255; 0; 0; 255]
    (HexKeyed.Table [("#ff0000"%string, HexKeyed.ToHex (colorText 0 0 255 (Some 0)))])
    (Some ["#ff0000"%string]) 0 ([0; 0; 0; 0], []) =
  inr (<[(0 + 3)%nat := default 255 (Some 0)]>
         (<[(0 + 2)%nat := 255]> (<[(0 + 1)%nat := 0]> (<[0%nat := 0]> [0; 0; 0; 0]))), []).
Proof.
  apply (hexkeyed_table_hit [255; 0; 0; 255]
           [("#ff0000"%string, HexKeyed.ToHex (colorText 0 0 255 (Some 0)))]
           (Some ["#ff0000"%string]) 0 ([0; 0; 0; 0], []) 255 0 0 255 0 0 255 (Some 0));
    try reflexivity; try lia.
  intros x Hx. apply (inj Some) in Hx. subst x. lia.
Defined.

(** X12: a pixel the table has no colour for (no entry, or an empty one): with no
    static colours given, or with its key among them, its four bytes are
    copied; otherwise nothing is written and its key joins [missing]. *)
Theorem hexkeyed_unmapped_pixel imageData entries staticColors (i : nat)
    (st : HexKeyed.LoopState) r g b a :
  imageData !! i = Some r -> imageData !! (i + 1)%nat = Some g ->
  imageData !! (i + 2)%nat = Some b -> imageData !! (i + 3)%nat = Some a ->
  0 <= r < 256 -> 0 <= g < 256 -> 0 <= b < 256 -> 0 <= a < 256 ->
  let key := HexKeyed.rgbaToHex (Z2F r) (Z2F g) (Z2F b) (Some (Z2F a)) in
  (HexKeyed.tableGet entries key = None
   \/ HexKeyed.tableGet entries key = Some (HexKeyed.ToHex "")) ->
  HexKeyed.pixel imageData (HexKeyed.Table entries) staticColors i st =
  inr (match staticColors with
       | Some s =>
           if bool_decide (key ∈ s)
           then (<[(i + 3)%nat := a]> (<[(i + 2)%nat := b]> (<[(i + 1)%nat := g]> (<[i := r]> st.1))),
                 st.2)
           else (st.1, HexKeyed.setAdd st.2 key)
       | None =>
           (<[(i + 3)%nat := a]> (<[(i + 2)%nat := b]> (<[(i + 1)%nat := g]> (<[i := r]> st.1))),
            st.2)
       end).
Proof.
  intros H0 H1 H2 H3 Hr Hg Hb Ha key Hget.
  assert (Hkeep :
    HexKeyed.pixel imageData (HexKeyed.Table entries) staticColors i st =
    if isNull staticColors || HexKeyed.staticHas staticColors key
    then inr (<[(i + 3)%nat := a]> (<[(i + 2)%nat := b]> (<[(i + 1)%nat := g]> (<[i := r]> st.1))), st.2)
    else inr (st.1, HexKeyed.setAdd st.2 key)).
  { unfold HexKeyed.pixel. rewrite H0, H1, H2, H3. cbn [default from_option]. unfold id.
    cbv zeta. fold key. rewrite hexkeyed_set_bytes by done.
    destruct Hget as [Hget|Hget]; rewrite Hget; [done|].
    by rewrite bool_decide_eq_true_2. }
  rewrite Hkeep.
  destruct staticColors as [s|]; cbn [isNull HexKeyed.staticHas orb]; [|done].
  by destruct (bool_decide (key ∈ s)).
Qed.

Lemma hexkeyed_unmapped_pixel_witness :
  let key := HexKeyed.rgbaToHex (Z2F 0) (Z2F 255) (Z2F 0) (Some (Z2F 255)) in
  HexKeyed.pixel [0; 255; 0; 255] (HexKeyed.Table [("#ff0000"%string, HexKeyed.ToHex "#0000ff")])
    (Some ["#000000"%string]) 0 ([0; 0; 0; 0], []) =
  inr (match Some ["#000000"%string] with
       | Some s =>
           if bool_decide (key ∈ s)
           then (<[(0 + 3)%nat := 255]> (<[(0 + 2)%nat := 0]> (<[(0 + 1)%nat := 255]> (<[0%nat := 0]> [0; 0; 0; 0]))),
                 [])
           else ([0; 0; 0; 0], HexKeyed.setAdd [] key)
       | None =>
           (<[(0 + 3)%nat := 255]> (<[(0 + 2)%nat := 0]> (<[(0 + 1)%nat := 255]> (<[0%nat := 0]> [0; 0; 0; 0]))),
            [])
       end).
Proof.
  apply (hexkeyed_unmapped_pixel [0; 255; 0; 255] [("#ff0000"%string, HexKeyed.ToHex "#0000ff")]
           (Some ["#000000"%string]) 0 ([0; 0; 0; 0], []) 0 255 0 255);
    try reflexivity; try lia.
  left. vm_compute. reflexivity.
Defined.

Lemma table_entry_written_witness :
  exists buf, buffers afterHue !! 0%nat = Some buf /\
    buf !! 0%nat = Some (opaqueRed / 2 ^ 24 * 2 ^ 24 + 16711680) /\ 0 <= 16711680 < 2 ^ 24.
Proof.
  apply (table_entry_written 2 1 [opaqueRed; opaqueBlack] twoVariants blackStatic None false
           afterHue 0 opaqueRed 0 (NameNum 2) [("#ff0000"%string, "#0000ff"%string)] 16711680).
  - vm_compute. reflexivity.
  - reflexivity.
  - lia.
  - reflexivity.
  - unfold opaqueRed. lia.
  - vm_compute. discriminate.
  - intros s Hs. apply (inj Some) in Hs. subst s.
    rewrite elem_of_singleton. vm_compute. discriminate.
  - vm_compute. reflexivity.
  - lia.
Defined.

Lemma unmapped_pixel_policy_witness :
  exists buf, buffers lenientGreen !! 0%nat = Some buf /\
    (blackStatic = None -> buf !! 0%nat = Some opaqueGreen)
    /\ (forall s, blackStatic = Some s ->
          buf !! 0%nat = Some 0 /\ (NameNum 2, opaqueGreen mod 2 ^ 24) ∈ missing lenientGreen
          /\ true = true).
Proof.
  apply (unmapped_pixel_policy 1 1 [opaqueGreen] twoVariants blackStatic None true
           lenientGreen 0 opaqueGreen 0 (NameNum 2) [("#ff0000"%string, "#0000ff"%string)]).
  - vm_compute. reflexivity.
  - reflexivity.
  - lia.
  - reflexivity.
  - unfold opaqueGreen. lia.
  - vm_compute. discriminate.
  - intros s Hs. apply (inj Some) in Hs. subst s.
    rewrite elem_of_singleton. vm_compute. discriminate.
  - left. vm_compute. reflexivity.
Defined.

Lemma scan_lenient_witness :
  exists st, scan 1 1 [opaqueGreen] (variantOf <$> twoVariants) (compile 0 twoVariants ∅)
               blackStatic None true = inr st
    /\ st = pixelsOver [opaqueGreen] (variantOf <$> twoVariants) (compile 0 twoVariants ∅)
              blackStatic (allIndices 1 (seq 0 1)) (initial 1 1 (variantOf <$> twoVariants))
    /\ (blackStatic = None -> missing st = []).
Proof.
  apply (scan_lenient 1 1 [opaqueGreen] (variantOf <$> twoVariants) (compile 0 twoVariants ∅)
           blackStatic None true).
  left. reflexivity.
Defined.

Lemma scan_strict_clean_witness : missing afterHue = [].
Proof.
  apply (scan_strict_clean 2 1 [opaqueRed; opaqueBlack] (variantOf <$> twoVariants)
           (compile 0 twoVariants ∅) blackStatic None afterHue).
  vm_compute. reflexivity.
Defined.

Lemma scan_throws_at_first_row_witness :
  false = false
  /\ exists y, (y < 2)%nat
       /\ missing (pixelsOver [opaqueRed; opaqueGreen] (variantOf <$> twoVariants)
                     (compile 0 twoVariants ∅) blackStatic (allIndices 1 (seq 0 y))
                     (initial 1 2 (variantOf <$> twoVariants))) = []
       /\ missing (pixelsOver [opaqueRed; opaqueGreen] (variantOf <$> twoVariants)
                     (compile 0 twoVariants ∅) blackStatic (allIndices 1 (seq 0 (S y)))
                     (initial 1 2 (variantOf <$> twoVariants))) <> []
       /\ message None [(NameNum 2, 65280)]
          = message None
              (missing (pixelsOver [opaqueRed; opaqueGreen] (variantOf <$> twoVariants)
                          (compile 0 twoVariants ∅) blackStatic (allIndices 1 (seq 0 (S y)))
                          (initial 1 2 (variantOf <$> twoVariants)))).
Proof.
  apply (scan_throws_at_first_row 1 2 [opaqueRed; opaqueGreen] (variantOf <$> twoVariants)
           (compile 0 twoVariants ∅) blackStatic None false (message None [(NameNum 2, 65280)])).
  vm_compute. reflexivity.
Defined.

Lemma paletteSwap_results_witness :
  exists st,
    scan 1 1 (wordsOfBytes (data (getImageData (mkImage 1 1 [255; 0; 0; 255]) 1 1)))
      (variantOf <$> [(NameStr "v", Table [])]) (compile 0 [(NameStr "v", Table [])] ∅)
      ((fun l => (list_to_set (hexToInt32 <$> l) : gset Z)) <$> None)
      None false = inr st
    /\ (forall name img,
          (name, img) ∈ [(NameStr "v", mkImageData 1 1 [255; 0; 0; 255])] <->
          exists i palette buf,
            [(NameStr "v", Table [])] !! i = Some (name, palette) /\ buffers st !! i = Some buf
            /\ img = mkImageData 1 1 (bytesOfWords buf)
            /\ (forall prior,
                  Some [(NameStr "v", mkImage 1 1 [255; 0; 0; 254])]
                    ≫= (fun m => lookupImage m name) = Some prior ->
                  Packed.equals img (getImageData prior 1 1) = false))
    /\ fst <$> [(NameStr "v", mkImageData 1 1 [255; 0; 0; 255])]
         `sublist_of` fst <$> [(NameStr "v", Table [])]
    /\ (Some [(NameStr "v", mkImage 1 1 [255; 0; 0; 254])] = None ->
        fst <$> [(NameStr "v", mkImageData 1 1 [255; 0; 0; 255])]
        = fst <$> [(NameStr "v", Table [])]).
Proof.
  apply (paletteSwap_results (mkImage 1 1 [255; 0; 0; 255]) [(NameStr "v", Table [])] None
           (Some [(NameStr "v", mkImage 1 1 [255; 0; 0; 254])]) None false
           [(NameStr "v", mkImageData 1 1 [255; 0; 0; 255])]).
  vm_compute. reflexivity.
Defined.

(** *** The shape of the images returned *)

Lemma store_lengths n i index v st :
  Forall (fun buf => length buf = n) (buffers st) ->
  Forall (fun buf => length buf = n) (buffers (store i index v st)).
Proof.
  intros H. unfold store. cbn [buffers]. apply Forall_alter; [done|].
  intros buf _ Hb. by rewrite length_insert.
Qed.

Lemma variantStep_lengths n sc index oc a color isStatic colors i v st :
  Forall (fun buf => length buf = n) (buffers st) ->
  Forall (fun buf => length buf = n)
    (buffers (variantStep sc index oc a color isStatic colors i v st)).
Proof.
  intros H. unfold variantStep.
  repeat (match goal with |- context [if ?c then _ else _] => destruct c end);
    try (by apply store_lengths); done.
Qed.

Lemma variantsLoop_lengths n sc index oc a color isStatic colors vs : forall i st,
  Forall (fun buf => length buf = n) (buffers st) ->
  Forall (fun buf => length buf = n)
    (buffers (variantsLoop sc index oc a color isStatic colors i vs st)).
Proof.
  induction vs as [|v vs IH]; intros i st H; [done|].
  cbn [variantsLoop]. apply IH. by apply variantStep_lengths.
Qed.

Lemma pixel_lengths n imageData variants palettes sc index st :
  Forall (fun buf => length buf = n) (buffers st) ->
  Forall (fun buf => length buf = n) (buffers (pixel imageData variants palettes sc index st)).
Proof.
  intros H. unfold pixel. cbv zeta.
  destruct (band (sar (default 0 (imageData !! index)) 24) 255 =? 0); [done|].
  by apply variantsLoop_lengths.
Qed.

Lemma pixelsOver_lengths n imageData variants palettes sc l : forall st,
  Forall (fun buf => length buf = n) (buffers st) ->
  Forall (fun buf => length buf = n) (buffers (pixelsOver imageData variants palettes sc l st)).
Proof.
  induction l as [|x l IH]; intros st H; [done|].
  rewrite pixelsOver_cons. apply IH. by apply pixel_lengths.
Qed.

Lemma bytesOfWords_length ws : length (bytesOfWords ws) = (4 * length ws)%nat.
Proof.
  unfold bytesOfWords. induction ws as [|w ws IH]; [done|].
  cbn [mbind list_bind]. rewrite length_app, IH. cbn [wordBytes length]. lia.
Qed.

Lemma bytesOfWords_bytes ws : Forall (fun x => 0 <= x < 256) (bytesOfWords ws).
Proof.
  unfold bytesOfWords. induction ws as [|w ws IH]; [done|].
  cbn [mbind list_bind]. apply Forall_app. split; [|done].
  assert (Hb : forall x, 0 <= Z.land x 255 < 256).
  { intros x. change 255 with (Z.ones 8). rewrite Z.land_ones by lia.
    apply Z.mod_pos_bound. lia. }
  unfold wordBytes. repeat constructor; apply Hb.
Qed.

(** X13: every image [paletteSwap] returns has the size of the source and
    four bytes for each of its pixels, each in the range of a byte. *)
Theorem packed_image_shape image inputVariants staticColors images imageName ignoreMissing
    results name img :
  paletteSwap image inputVariants staticColors images imageName ignoreMissing = inr results ->
  (name, img) ∈ results ->
  width img = img_width image /\ height img = img_height image
  /\ length (data img) = (4 * (img_width image * img_height image))%nat
  /\ Forall (fun x => 0 <= x < 256) (data img).
Proof.
  intros H Hin. unfold paletteSwap in H.
  destruct (scan (img_width image) (img_height image) _ _ _ _ imageName ignoreMissing)
    as [msg|st] eqn:E; [done|].
  apply (inj inr) in H. subst results.
  apply collect_elem in Hin as (i & v & buf & _ & Hb & _ & -> & _).
  cbn [width height data]. split; [done|]. split; [done|].
  split; [|apply bytesOfWords_bytes].
  rewrite bytesOfWords_length. f_equal.
  unfold scan in E. apply rows_inr in E. subst st.
  refine (Forall_lookup_1 (fun b => length b = (img_width image * img_height image)%nat)
            _ _ _ _ Hb).
  apply pixelsOver_lengths. unfold initial. cbn [buffers].
  apply Forall_replicate. apply length_replicate.
Qed.

Lemma packed_image_shape_witness :
  width redPixelData = img_width redPixel /\ height redPixelData = img_height redPixel
  /\ length (data redPixelData) = (4 * (img_width redPixel * img_height redPixel))%nat
  /\ Forall (fun x => 0 <= x < 256) (data redPixelData).
Proof.
  apply (packed_image_shape redPixel [(NameStr "v", Table [])] None None
           None false [(NameStr "v", redPixelData)] (NameStr "v")).
  - vm_compute. reflexivity.
  - apply list_elem_of_singleton. reflexivity.
Defined.

(** *** What the string-keyed [paletteSwap] returns *)

Lemma hexkeyed_set_length bytes i r g b a :
  length (HexKeyed.set bytes i r g b a) = length bytes.
Proof. unfold HexKeyed.set. by rewrite !length_insert. Qed.

Lemma hexkeyed_pixel_length imageData palette sc i st st' :
  HexKeyed.pixel imageData palette sc i st = inr st' -> length st'.1 = length st.1.
Proof.
  unfold HexKeyed.pixel, HexKeyed.writeColor. cbv zeta. intros H.
  repeat (match type of H with
          | context [match ?c with _ => _ end] => destruct c
          end);
    try discriminate; apply (inj inr) in H; subst st'; cbn [fst];
    by rewrite ?hexkeyed_set_length.
Qed.

Lemma hexkeyed_pixels_length imageData palette sc offs : forall st st',
  HexKeyed.pixels imageData palette sc offs st = inr st' -> length st'.1 = length st.1.
Proof.
  induction offs as [|i offs IH]; intros st st' H; cbn [HexKeyed.pixels] in H.
  { apply (inj inr) in H. by subst. }
  destruct (HexKeyed.pixel imageData palette sc i st) as [err|st1] eqn:E; [done|].
  rewrite (IH _ _ H). by apply (hexkeyed_pixel_length _ _ _ _ _ _ E).
Qed.

Section Results.
Context (width height : nat) (imageData : list Z) (staticColors : option (list HexKeyed.HEX)).
Context (images : option (list (HexKeyed.VariantName * Image))).
Context (imageName : option string) (ignoreMissing : bool).

Local Abbreviation run := (fun palette =>
  HexKeyed.pixels imageData palette staticColors (HexKeyed.offsets imageData)
    (replicate (width * height * 4) 0, [])).
Local Abbreviation differs := (fun name img =>
  forall prior, images ≫= (fun m => HexKeyed.lookupImage m name) = Some prior ->
    HexKeyed.equals img (getImageData prior width height) = false).

Lemma variant_inr name palette r :
  HexKeyed.variant width height imageData staticColors images imageName ignoreMissing
    name palette = inr r ->
  exists bytes missing,
    run palette = inr (bytes, missing)
    /\ length bytes = (width * height * 4)%nat
    /\ (ignoreMissing = false -> missing = [])
    /\ (forall img, r = Some (name, img) <->
          img = mkImageData width height bytes /\ differs name img)
    /\ (forall x, r = Some x -> x.1 = name)
    /\ (images = None -> r <> None).
Proof.
  unfold HexKeyed.variant. intros H.
  destruct (HexKeyed.pixels _ _ _ _ _) as [err|[bytes missing]] eqn:E; [done|].
  exists bytes, missing. split; [done|].
  split.
  { pose proof (hexkeyed_pixels_length _ _ _ _ _ _ E) as Hl. cbn [fst] in Hl.
    rewrite Hl. apply length_replicate. }
  destruct (negb ignoreMissing && negb (bool_decide (missing = []))) eqn:Eg; [done|].
  split.
  { intros ->. cbn [negb andb] in Eg. apply negb_false_iff in Eg.
    by apply bool_decide_eq_true_1 in Eg. }
  destruct (images ≫= fun m => HexKeyed.lookupImage m name) as [prior|] eqn:Ep.
  - destruct (HexKeyed.equals (mkImageData width height bytes) (getImageData prior width height))
      eqn:Ee; apply (inj inr) in H; subst r.
    + split; [|split; [done|]].
      * intros img. split; [done|]. intros [-> Hd]. specialize (Hd prior eq_refl). congruence.
      * intros ->. done.
    + split; [|split].
      * intros img. split.
        -- intros Hi. apply (inj Some) in Hi. injection Hi as <-. split; [done|].
           intros prior' Hp. apply (inj Some) in Hp. by subst.
        -- by intros [-> _].
      * intros x Hx. apply (inj Some) in Hx. by subst.
      * done.
  - apply (inj inr) in H. subst r. split; [|split].
    + intros img. split.
      * intros Hi. apply (inj Some) in Hi. injection Hi as <-. by split.
      * by intros [-> _].
    + intros x Hx. apply (inj Some) in Hx. by subst.
    + done.
Qed.

Lemma variantsLoop_inr variants : forall results,
  HexKeyed.variantsLoop width height imageData staticColors images imageName ignoreMissing
    variants = inr results ->
  (forall name palette, (name, palette) ∈ variants ->
     exists bytes missing, run palette = inr (bytes, missing)
       /\ length bytes = (width * height * 4)%nat
       /\ (ignoreMissing = false -> missing = []))
  /\ (forall name img, (name, img) ∈ results <->
        exists palette bytes missing, (name, palette) ∈ variants
          /\ run palette = inr (bytes, missing)
          /\ img = mkImageData width height bytes /\ differs name img)
  /\ fst <$> results `sublist_of` fst <$> variants
  /\ (images = None -> fst <$> results = fst <$> variants).
Proof.
  induction variants as [|[n p] variants IH]; intros results H; cbn [HexKeyed.variantsLoop] in H.
  { apply (inj inr) in H. subst results. split; [|split; [|done]].
    - intros name palette Hin. by apply elem_of_nil in Hin.
    - intros name img. split; [by intros Hin; apply elem_of_nil in Hin|].
      intros (palette & _ & _ & Hin & _). by apply elem_of_nil in Hin. }
  destruct (HexKeyed.variant width height imageData staticColors images imageName
              ignoreMissing n p) as [err|r] eqn:E; [done|].
  destruct (HexKeyed.variantsLoop width height imageData staticColors images imageName
              ignoreMissing variants) as [err|rs] eqn:El; [done|].
  apply (inj inr) in H. subst results.
  destruct (IH rs eq_refl) as (IH1 & IH2 & IH3 & IH4).
  destruct (variant_inr n p r E) as (bytes & missing & Hrun & Hlen & Hmiss & Hr & Hname & Hnone).
  split; [|split; [|split]].
  - intros name palette Hin. apply elem_of_cons in Hin as [Heq|Hin].
    + injection Heq as -> ->. by exists bytes, missing.
    + by apply (IH1 name).
  - intros name img. split.
    + intros Hin.
      assert (Hcase : r = Some (name, img) \/ (name, img) ∈ rs).
      { destruct r as [x|]; [|by right].
        apply elem_of_cons in Hin as [->|Hin]; [by left|by right]. }
      destruct Hcase as [Hx|Hin'].
      * pose proof (Hname _ Hx) as Hn. cbn [fst] in Hn. subst n.
        apply Hr in Hx as [-> Hd]. exists p, bytes, missing.
        split; [apply elem_of_cons; by left|done].
      * apply IH2 in Hin' as (palette & bytes' & missing' & Hin' & Hrest).
        exists palette, bytes', missing'. split; [apply elem_of_cons; by right|done].
    + intros (palette & bytes' & missing' & Hin & Hrun' & -> & Hd).
      apply elem_of_cons in Hin as [Heq|Hin].
      * injection Heq as -> ->. rewrite Hrun in Hrun'. apply (inj inr) in Hrun'.
        injection Hrun' as <- <-.
        assert (Hx : r = Some (n, mkImageData width height bytes)) by (by apply Hr).
        rewrite Hx. apply elem_of_cons. by left.
      * assert (Hin' : (name, mkImageData width height bytes') ∈ rs).
        { apply IH2. by exists palette, bytes', missing'. }
        destruct r; [apply elem_of_cons; by right|done].
  - destruct r as [x|]; rewrite !fmap_cons; cbn [fst].
    + rewrite (Hname x eq_refl). by apply sublist_skip.
    + by apply sublist_cons.
  - intros Hi. destruct r as [x|]; [|by destruct (Hnone Hi)].
    rewrite !fmap_cons. cbn [fst]. rewrite (Hname x eq_refl). f_equal. by apply IH4.
Qed.

End Results.

(** X14: what the string-keyed [paletteSwap] returns: every variant's pixel loop
    ran to its end over an array of four bytes for each pixel and, without
    [ignoreMissing], found nothing missing; the results are the variants
    whose new bytes have no prior image or differ from it, in the variants'
    order, and all of them when no prior images are given. *)
Theorem hexkeyed_paletteSwap_results image variants staticColors images imageName
    ignoreMissing results :
  HexKeyed.paletteSwap image variants staticColors images imageName ignoreMissing
    = inr results ->
  let width := img_width image in
  let height := img_height image in
  let imageData := data (getImageData image width height) in
  let run := fun palette =>
    HexKeyed.pixels imageData palette staticColors (HexKeyed.offsets imageData)
      (replicate (width * height * 4) 0, []) in
  (forall name palette, (name, palette) ∈ variants ->
     exists bytes missing, run palette = inr (bytes, missing)
       /\ length bytes = (width * height * 4)%nat
       /\ (ignoreMissing = false -> missing = []))
  /\ (forall name img, (name, img) ∈ results <->
        exists palette bytes missing, (name, palette) ∈ variants
          /\ run palette = inr (bytes, missing)
          /\ img = mkImageData width height bytes
          /\ (forall prior, images ≫= (fun m => HexKeyed.lookupImage m name) = Some prior ->
                HexKeyed.equals img (getImageData prior width height) = false))
  /\ fst <$> results `sublist_of` fst <$> variants
  /\ (images = None -> fst <$> results = fst <$> variants).
Proof. intros H. cbv zeta. exact (variantsLoop_inr _ _ _ _ _ imageName _ _ _ H). Qed.

Lemma hexkeyed_paletteSwap_results_witness :
  let run := fun palette =>
    HexKeyed.pixels (data (getImageData redPixel 1 1)) palette None
      (HexKeyed.offsets (data (getImageData redPixel 1 1))) (replicate (1 * 1 * 4) 0, []) in
  (forall name palette, (name, palette) ∈ redToBlue ->
     exists bytes missing, run palette = inr (bytes, missing)
       /\ length bytes = (1 * 1 * 4)%nat
       /\ (false = false -> missing = []))
  /\ (forall name img, (name, img) ∈ [(HexKeyed.NameNum 2, bluePixelData)] <->
        exists palette bytes missing, (name, palette) ∈ redToBlue
          /\ run palette = inr (bytes, missing)
          /\ img = mkImageData 1 1 bytes
          /\ (forall prior, None ≫= (fun m => HexKeyed.lookupImage m name) = Some prior ->
                HexKeyed.equals img (getImageData prior 1 1) = false))
  /\ fst <$> [(HexKeyed.NameNum 2, bluePixelData)] `sublist_of` fst <$> redToBlue
  /\ (@None (list (HexKeyed.VariantName * Image)) = None ->
      fst <$> [(HexKeyed.NameNum 2, bluePixelData)] = fst <$> redToBlue).
Proof.
  apply (hexkeyed_paletteSwap_results redPixel redToBlue None None None false
           [(HexKeyed.NameNum 2, bluePixelData)]).
  vm_compute. reflexivity.
Defined.

(** *** Keys and pixels *)

(** X15: a colour key and the pixels it names: the word a [Uint32Array] shows for
    the bytes [r, g, b, a] has [a] as its alpha and, as its colour, what
    [hexToInt32] gives for the hex of [r, g, b]; and the word the engine
    builds from an alpha and such a packed colour is stored as the bytes
    [r, g, b, a]. *)
Theorem key_matches_pixel r g b a :
  0 <= r < 256 -> 0 <= g < 256 -> 0 <= b < 256 -> 0 <= a < 256 ->
  let w := r + 2 ^ 8 * g + 2 ^ 16 * b + 2 ^ 24 * a in
  wordsOfBytes [r; g; b; a] = [w]
  /\ band w 16777215 = hexToInt32 (rgbToHex (r, g, b))
  /\ band (sar w 24) 255 = a
  /\ wordBytes (uint32 (bor (shl a 24) (hexToInt32 (rgbToHex (r, g, b))))) = [r; g; b; a].
Proof.
  intros Hr Hg Hb Ha w. rewrite hexToInt32_packs by done.
  assert (Hw : 0 <= w < 2 ^ 32) by (subst w; lia).
  split; [reflexivity|]. split; [|split].
  - rewrite keyOf_mod. subst w.
    replace (r + 2 ^ 8 * g + 2 ^ 16 * b + 2 ^ 24 * a)
      with (b * 2 ^ 16 + g * 2 ^ 8 + r + a * 2 ^ 24) by lia.
    rewrite Z.mod_add by lia. apply Z.mod_small. lia.
  - rewrite (alphaOf_div w Hw). subst w.
    replace (r + 2 ^ 8 * g + 2 ^ 16 * b + 2 ^ 24 * a)
      with (r + 2 ^ 8 * g + 2 ^ 16 * b + a * 2 ^ 24) by lia.
    rewrite Z.div_add by lia. rewrite Z.div_small by lia. lia.
  - rewrite pack_alpha by lia. unfold wordBytes.
    change 255 with (Z.ones 8). rewrite !Z.land_ones by lia.
    rewrite !Z.shiftr_div_pow2 by lia.
    change (2 ^ 24) with 16777216. change (2 ^ 16) with 65536. change (2 ^ 8) with 256.
    f_equal; [|f_equal; [|f_equal; [|f_equal]]]; Z.to_euclidean_division_equations; lia.
Qed.

Lemma key_matches_pixel_witness :
  let w := 255 + 2 ^ 8 * 128 + 2 ^ 16 * 0 + 2 ^ 24 * 255 in
  wordsOfBytes [255; 128; 0; 255] = [w]
  /\ band w 16777215 = hexToInt32 (rgbToHex (255, 128, 0))
  /\ band (sar w 24) 255 = 255
  /\ wordBytes (uint32 (bor (shl 255 24) (hexToInt32 (rgbToHex (255, 128, 0)))))
     = [255; 128; 0; 255].
Proof. apply (key_matches_pixel 255 128 0 255); lia. Defined.

(** *** Static colours under a hue, in the string-keyed engine *)

(** X16: under a hue, given for the whole variant or by the table for this key, a
    pixel whose key is among the static colours has its four bytes copied,
    and [missing] is left as it was. *)
Theorem hexkeyed_static_under_hue imageData palette (s : list HexKeyed.HEX) (i : nat)
    (st : HexKeyed.LoopState) r g b a hue :
  imageData !! i = Some r -> imageData !! (i + 1)%nat = Some g ->
  imageData !! (i + 2)%nat = Some b -> imageData !! (i + 3)%nat = Some a ->
  0 <= r < 256 -> 0 <= g < 256 -> 0 <= b < 256 -> 0 <= a < 256 ->
  let key := HexKeyed.rgbaToHex (Z2F r) (Z2F g) (Z2F b) (Some (Z2F a)) in
  (palette = HexKeyed.UniformHue hue
   \/ exists entries, palette = HexKeyed.Table entries
        /\ HexKeyed.tableGet entries key = Some (HexKeyed.ToHue hue)) ->
  key ∈ s ->
  HexKeyed.pixel imageData palette (Some s) i st =
  inr (<[(i + 3)%nat := a]> (<[(i + 2)%nat := b]> (<[(i + 1)%nat := g]> (<[i := r]> st.1))),
       st.2).
Proof.
  intros H0 H1 H2 H3 Hr Hg Hb Ha key Hp Hin.
  unfold HexKeyed.pixel. rewrite H0, H1, H2, H3. cbn [default from_option]. unfold id.
  cbv zeta. fold key. rewrite hexkeyed_set_bytes by done.
  assert (Hs : HexKeyed.staticHas (Some s) key = true).
  { unfold HexKeyed.staticHas. by apply bool_decide_eq_true_2. }
  destruct Hp as [->|(entries & -> & Hget)].
  - by rewrite Hs.
  - by rewrite Hget, Hs.
Qed.

Lemma hexkeyed_static_under_hue_witness :
  HexKeyed.pixel [255; 0; 0; 255] (HexKeyed.UniformHue 220) (Some ["#ff0000"%string]) 0
    ([0; 0; 0; 0], []) =
  inr (<[(0 + 3)%nat := 255]> (<[(0 + 2)%nat := 0]> (<[(0 + 1)%nat := 0]>
         (<[0%nat := 255]> [0; 0; 0; 0]))), []).
Proof.
  apply (hexkeyed_static_under_hue [255; 0; 0; 255] (HexKeyed.UniformHue 220)
           ["#ff0000"%string] 0 ([0; 0; 0; 0], []) 255 0 0 255 220);
    try reflexivity; try lia.
  - by left.
  - apply list_elem_of_singleton. vm_compute. reflexivity.
Defined.

(** *** Transparent pixels, as the canvas gives them *)

Lemma canvasPixel_cases c x y :
  canvasPixel c x y = [0; 0; 0; 0]
  \/ (canvasPixel c x y
      = take 4 (drop (4 * (y * img_width c + x)) (img_data c) ++ [0; 0; 0; 0])
      /\ canvasPixel c x y !! 3%nat <> Some 0).
Proof.
  unfold canvasPixel. destruct (decide _); [|by left]. cbv zeta.
  destruct (decide _) as [H0|H0]; [by left|by right].
Qed.

Lemma canvasPixel_quad c x y : exists b0 b1 b2 b3, canvasPixel c x y = [b0; b1; b2; b3].
Proof.
  destruct (canvasPixel_cases c x y) as [->|[-> _]]; [by exists 0, 0, 0, 0|].
  set (l := drop _ _ ++ _).
  assert (Hlen : (4 <= length l)%nat).
  { subst l. rewrite length_app. cbn [length]. lia. }
  destruct l as [|b0 [|b1 [|b2 [|b3 rest]]]]; cbn [length] in Hlen; try lia.
  by exists b0, b1, b2, b3.
Qed.

Lemma canvasPixel_length c x y : length (canvasPixel c x y) = 4%nat.
Proof. by destruct (canvasPixel_quad c x y) as (b0 & b1 & b2 & b3 & ->). Qed.

Lemma canvasPixel_bytes c x y :
  Forall (fun b => 0 <= b < 256) (img_data c) ->
  Forall (fun b => 0 <= b < 256) (canvasPixel c x y).
Proof.
  intros Hb.
  assert (Hz : Forall (fun b => 0 <= b < 256) [0; 0; 0; 0]) by (repeat constructor; lia).
  destruct (canvasPixel_cases c x y) as [->|[-> _]]; [done|].
  apply Forall_take, Forall_app. split; [by apply Forall_drop|done].
Qed.

Lemma wordsOfBytes_quad px rest :
  length px = 4%nat -> wordsOfBytes (px ++ rest) = wordOf px :: wordsOfBytes rest.
Proof.
  intros H. destruct px as [|b0 [|b1 [|b2 [|b3 [|]]]]]; cbn [length] in H; try lia.
  reflexivity.
Qed.

Lemma wordsOfBytes_row {A} (f : A -> list Z) (xs : list A) rest :
  (forall a, length (f a) = 4%nat) ->
  wordsOfBytes ((xs ≫= f) ++ rest) = ((fun a => wordOf (f a)) <$> xs) ++ wordsOfBytes rest.
Proof.
  intros Hf. induction xs as [|a xs IH]; [done|].
  cbn [mbind list_bind fmap list_fmap]. rewrite <- app_assoc.
  rewrite wordsOfBytes_quad by done. cbn [app]. f_equal. exact IH.
Qed.

Lemma wordsOfBytes_grid {A B} (f : A -> B -> list Z) (ys : list A) (xs : list B) :
  (forall y x, length (f y x) = 4%nat) ->
  wordsOfBytes (ys ≫= fun y => xs ≫= f y)
  = ys ≫= fun y => (fun x => wordOf (f y x)) <$> xs.
Proof.
  intros Hf.
  assert (H : forall rest,
    wordsOfBytes ((ys ≫= fun y => xs ≫= f y) ++ rest)
    = (ys ≫= fun y => (fun x => wordOf (f y x)) <$> xs) ++ wordsOfBytes rest).
  { induction ys as [|y ys IH]; intros rest; [done|].
    cbn [mbind list_bind]. rewrite <- !app_assoc.
    rewrite wordsOfBytes_row by (intros; apply Hf). f_equal. apply IH. }
  specialize (H []). by rewrite !app_nil_r in H.
Qed.

Lemma canvas_words c sw sh :
  wordsOfBytes (data (getImageData c sw sh))
  = seq 0 sh ≫= fun y => (fun x => wordOf (canvasPixel c x y)) <$> seq 0 sw.
Proof.
  unfold getImageData. cbn [data].
  apply (wordsOfBytes_grid (fun y x => canvasPixel c x y)).
  intros. apply canvasPixel_length.
Qed.

Lemma canvas_word_transparent c x y :
  Forall (fun b => 0 <= b < 256) (img_data c) ->
  band (sar (wordOf (canvasPixel c x y)) 24) 255 = 0 ->
  wordOf (canvasPixel c x y) = 0.
Proof.
  intros Hb Ha. pose proof (canvasPixel_bytes c x y Hb) as Hbytes.
  destruct (canvasPixel_cases c x y) as [Hz|[_ Hne]]; [by rewrite Hz|].
  destruct (canvasPixel_quad c x y) as (b0 & b1 & b2 & b3 & Hq).
  rewrite Hq in Ha, Hbytes, Hne.
  apply Forall_cons in Hbytes as [H0 Hbytes]. apply Forall_cons in Hbytes as [H1 Hbytes].
  apply Forall_cons in Hbytes as [H2 Hbytes]. apply Forall_cons in Hbytes as [H3 _].
  cbn [wordOf] in Ha. rewrite alphaOf_div in Ha by lia.
  replace (b0 + 2 ^ 8 * b1 + 2 ^ 16 * b2 + 2 ^ 24 * b3)
    with (b0 + 2 ^ 8 * b1 + 2 ^ 16 * b2 + b3 * 2 ^ 24) in Ha by lia.
  rewrite Z.div_add in Ha by lia. rewrite Z.div_small in Ha by lia.
  destruct Hne. cbn. f_equal. lia.
Qed.

(** C4. A pixel of alpha 0 is copied through unchanged: the canvas hands
    such a pixel to the loop as the word 0, the loop skips it, so every
    variant's buffer holds that same word at its index when the scan
    returns, whatever the rules, the static colours and the tables are; and
    the loop body leaves the whole state, [missing] included, as it was. *)
Theorem transparent_pixels_unchanged image variants palettes sc imageName ignoreMissing
    st idx oc :
  let width := img_width image in
  let height := img_height image in
  let imageData := wordsOfBytes (data (getImageData image width height)) in
  Forall (fun b => 0 <= b < 256) (img_data image) ->
  scan width height imageData variants palettes sc imageName ignoreMissing = inr st ->
  imageData !! idx = Some oc ->
  band (sar oc 24) 255 = 0 ->
  oc = 0
  /\ (forall i v, variants !! i = Some v ->
        exists buf, buffers st !! i = Some buf /\ buf !! idx = Some oc)
  /\ (forall st', pixel imageData variants palettes sc idx st' = st').
Proof.
  intros width height imageData Hb Hscan Hoc Ha.
  assert (Hlen : length imageData = (width * height)%nat).
  { subst imageData. rewrite canvas_words.
    assert (Hrow : forall (ys : list nat),
      length (ys ≫= fun y => (fun x => wordOf (canvasPixel image x y)) <$> seq 0 width)
      = (length ys * width)%nat).
    { induction ys as [|y ys IH]; [done|].
      cbn [mbind list_bind]. rewrite length_app, IH, length_fmap, length_seq.
      cbn [length]. lia. }
    rewrite Hrow, length_seq. lia. }
  assert (Hidx : (idx < width * height)%nat).
  { rewrite <- Hlen. by apply lookup_lt_Some in Hoc. }
  assert (Hz : oc = 0).
  { pose proof Hoc as Hin. subst imageData. rewrite canvas_words in Hin.
    apply list_elem_of_lookup_2 in Hin.
    apply list_elem_of_bind in Hin as (y & Hin & _).
    apply list_elem_of_fmap in Hin as (x & -> & _).
    by apply canvas_word_transparent. }
  split; [done|].
  assert (Hr : 0 <= oc < 2 ^ 32) by (subst oc; lia).
  assert (Hd : oc / 2 ^ 24 = 0) by (by subst oc).
  destruct (transparent_word_skipped _ _ _ _ _ _ _ _ _ _ _ Hscan Hidx Hoc Hr Hd) as [H1 H2].
  split; [|done].
  intros i v Hv. destruct (H1 i v Hv) as (buf & Hbuf & Hw).
  exists buf. split; [done|]. by rewrite Hz.
Qed.

Lemma transparent_pixels_unchanged_witness :
  let imageData := wordsOfBytes (data (getImageData transparentBlue 2 1)) in
  0 = 0
  /\ (forall i v, (variantOf <$> twoVariants) !! i = Some v ->
        exists buf, buffers afterClear !! i = Some buf /\ buf !! 0%nat = Some 0)
  /\ (forall st', pixel imageData (variantOf <$> twoVariants) (compile 0 twoVariants ∅)
                    blackStatic 0 st' = st').
Proof.
  apply (transparent_pixels_unchanged transparentBlue (variantOf <$> twoVariants)
           (compile 0 twoVariants ∅) blackStatic None false afterClear 0 0).
  - repeat constructor; lia.
  - vm_compute. reflexivity.
  - vm_compute. reflexivity.
  - vm_compute. reflexivity.
Defined.

(** *** Numbers between two integers *)

Lemma digits2_pos_upper p : Zpos p < 2 ^ Zpos (digits2_pos p).
Proof.
  induction p as [p IH|p IH|]; cbn [digits2_pos]; [| |done].
  - rewrite Pos2Z.inj_succ, Z.pow_succ_r by lia. lia.
  - rewrite Pos2Z.inj_succ, Z.pow_succ_r by lia. lia.
Qed.

Lemma valid_finite s m e :
  valid_binary (S754_finite s m e) = true ->
  -1074 <= e <= 971 /\ Zpos m < 2 ^ 53 /\ (-1074 < e -> 2 ^ 52 <= Zpos m).
Proof.
  cbn [valid_binary]. unfold bounded, canonical_mantissa, fexp, SpecFloat.emin, prec, emax.
  intros H. apply andb_prop in H as [H1 H2]. apply Z.eqb_eq in H1. apply Z.leb_le in H2.
  pose proof (digits2_pos_upper m) as Hu. pose proof (digits2_pos_lower m) as Hl.
  split; [lia|]. split.
  - apply Z.lt_le_trans with (2 ^ Zpos (digits2_pos m)); [done|].
    apply Z.pow_le_mono_r; lia.
  - intros He. replace (Zpos (digits2_pos m)) with 53 in Hl by lia. exact Hl.
Qed.

Lemma compare_cont_lt p q : PosDef.Pos.compare_cont Eq p q = Lt -> Zpos p < Zpos q.
Proof. intros H. apply Pos2Z.pos_lt_pos. by apply Pos.compare_lt_iff. Qed.

Lemma compare_cont_gt p q : PosDef.Pos.compare_cont Eq p q = Gt -> Zpos q < Zpos p.
Proof. intros H. apply Pos2Z.pos_lt_pos. by apply Pos.compare_gt_iff. Qed.

Lemma scaled_lt m1 e1 m2 e2 :
  valid_binary (S754_finite false m1 e1) = true ->
  valid_binary (S754_finite false m2 e2) = true ->
  SFltb (S754_finite false m1 e1) (S754_finite false m2 e2) = true ->
  scaled m1 e1 < scaled m2 e2.
Proof.
  intros H1 H2. apply valid_finite in H1 as (He1 & Hm1 & _).
  apply valid_finite in H2 as (He2 & _ & Hm2).
  unfold SFltb, SFcompare, scaled.
  destruct (Z.compare_spec e1 e2) as [->|Hlt|Hgt]; [| |done].
  - destruct (PosDef.Pos.compare_cont Eq m1 m2) eqn:E; try done. intros _.
    apply compare_cont_lt in E.
    apply Z.mul_lt_mono_pos_r; [apply Z.pow_pos_nonneg; lia|done].
  - intros _. specialize (Hm2 ltac:(lia)).
    assert (Hk : 0 < 2 ^ (e1 + 1074)) by (apply Z.pow_pos_nonneg; lia).
    assert (Hstep : 2 * 2 ^ (e1 + 1074) <= 2 ^ (e2 + 1074)).
    { rewrite <- Z.pow_succ_r by lia. apply Z.pow_le_mono_r; lia. }
    change (2 ^ 53) with (2 ^ 52 * 2) in Hm1.
    apply Z.lt_le_trans with (2 ^ 52 * 2 * 2 ^ (e1 + 1074)).
    + apply Z.mul_lt_mono_pos_r; done.
    + rewrite <- Z.mul_assoc.
      apply Z.le_trans with (2 ^ 52 * 2 ^ (e2 + 1074)).
      * apply Z.mul_le_mono_nonneg_l; [lia|done].
      * apply Z.mul_le_mono_nonneg_r; [|done]. lia.
Qed.

Lemma trunc_scaled (x : float) m e :
  Prim2SF x = S754_finite false m e -> -1074 <= e ->
  trunc x = scaled m e / 2 ^ 1074.
Proof.
  intros Hx He. unfold trunc, scaled. rewrite Hx.
  destruct (Z.leb_spec 0 e) as [H0|H0].
  - rewrite Z.shiftl_mul_pow2 by done. rewrite Z.pow_add_r by lia.
    rewrite Z.mul_assoc. by rewrite Z.div_mul by lia.
  - rewrite Z.shiftr_div_pow2 by lia.
    replace 1074 with (- e + (e + 1074)) at 2 by lia.
    rewrite (Z.pow_add_r 2 (- e)) by lia.
    rewrite Z.div_mul_cancel_r; [done| |]; apply Z.pow_nonzero; lia.
Qed.

Lemma scaled_Z2F p :
  Zpos p < 2 ^ 53 ->
  scaled (mantissaOf p) (Zpos (digits2_pos p) - 53) = Zpos p * 2 ^ 1074.
Proof.
  intros Hp. unfold scaled. rewrite mantissaOf_value by done.
  pose proof (digits2_pos_bound p Hp) as Hd.
  rewrite <- Z.mul_assoc, <- Z.pow_add_r by lia. do 2 f_equal. lia.
Qed.

Lemma Prim2SF_valid_Z2F p :
  Zpos p < 2 ^ 53 ->
  valid_binary (S754_finite false (mantissaOf p) (Zpos (digits2_pos p) - 53)) = true.
Proof. intros Hp. rewrite <- (Prim2SF_Z2F_pos p Hp). apply Prim2SF_valid. Qed.

(** A number strictly between the integers [lower] and [upper] (from -1
    on) drops its fraction to an integer from [lower], and from 0, below
    [upper]. *)
Lemma trunc_between (x : float) (lower upper : Z) :
  -1 <= lower -> 1 <= upper < 2 ^ 53 -> lower < upper ->
  PrimFloat.ltb (Z2F lower) x = true -> PrimFloat.ltb x (Z2F upper) = true ->
  Z.max lower 0 <= trunc x < upper.
Proof.
  intros Hlo Hup Hlt. rewrite !ltb_spec.
  pose proof (Prim2SF_valid x) as Hv.
  destruct upper as [|pu|pu]; [lia| |lia].
  rewrite (Prim2SF_Z2F_pos pu) by lia.
  pose proof (Prim2SF_valid_Z2F pu ltac:(lia)) as Hvu.
  destruct (Prim2SF x) as [s|s| |s m e] eqn:Ex.
  - (* zero *)
    intros Hl _. unfold trunc. rewrite Ex.
    destruct lower as [|pl|pl]; [done| |lia].
    by rewrite (Prim2SF_Z2F_pos pl) in Hl by lia.
  - (* infinity *)
    intros Hl Hu. destruct s; [|done].
    destruct lower as [|pl|pl].
    + done.
    + by rewrite (Prim2SF_Z2F_pos pl) in Hl by lia.
    + assert (pl = 1%positive) by lia. subst pl. done.
  - done.
  - destruct s.
    + (* negative *)
      intros Hl _.
      destruct lower as [|pl|pl].
      * done.
      * by rewrite (Prim2SF_Z2F_pos pl) in Hl by lia.
      * assert (pl = 1%positive) by lia. subst pl.
        change (Prim2SF (Z2F (-1))) with (S754_finite true 4503599627370496 (-52)) in Hl.
        apply valid_finite in Hv as (He & Hm & _).
        unfold SFltb, SFcompare in Hl.
        assert (Hcase : e < -52 \/ (e = -52 /\ Zpos m < 2 ^ 52)).
        { destruct (Z.compare_spec (-52) e) as [Heq|Hlt'|Hgt]; [|done|by left].
          right. split; [done|]. cbn [CompOpp] in Hl.
          destruct (PosDef.Pos.compare_cont Eq 4503599627370496 m) eqn:E; try done.
          apply compare_cont_gt in E. change (2 ^ 52) with 4503599627370496. exact E. }
        assert (Hzero : Z.shiftr (Zpos m) (- e) = 0).
        { rewrite Z.shiftr_div_pow2 by lia. apply Z.div_small. split; [lia|].
          destruct Hcase as [He'|[-> Hm']]; [|exact Hm'].
          apply Z.lt_le_trans with (2 ^ 53); [done|]. apply Z.pow_le_mono_r; lia. }
        unfold trunc. rewrite Ex.
        assert (He' : (0 <=? e) = false) by (apply Z.leb_gt; lia).
        rewrite He', Hzero. cbn [Z.opp Z.max]. lia.
    + (* positive *)
      intros Hl Hu. pose proof Hv as Hv'. apply valid_finite in Hv' as (He & _ & _).
      rewrite (trunc_scaled x m e Ex) by lia.
      assert (Hpos : 0 < 2 ^ 1074) by (by apply Z.pow_pos_nonneg).
      split.
      * destruct lower as [|pl|pl].
        -- cbn [Z.max]. apply Z.div_pos; [|done]. unfold scaled.
           apply Z.mul_nonneg_nonneg; [lia|]. apply Z.pow_nonneg. lia.
        -- rewrite (Prim2SF_Z2F_pos pl) in Hl by lia.
           apply scaled_lt in Hl; [|by apply Prim2SF_valid_Z2F; lia|done].
           rewrite scaled_Z2F in Hl by lia.
           rewrite Z.max_l by lia.
           apply Z.div_le_lower_bound; [done|]. lia.
        -- rewrite Z.max_r by lia. apply Z.div_pos; [|done]. unfold scaled.
           apply Z.mul_nonneg_nonneg; [lia|]. apply Z.pow_nonneg. lia.
      * apply scaled_lt in Hu; [|done|done].
        rewrite scaled_Z2F in Hu by lia.
        apply Z.div_lt_upper_bound; [done|]. lia.
Qed.

(** *** The loop of [applyHue], branch by branch *)

Lemma hueChannel_blend h t1 t2 i : hueChannel h t1 t2 i = blend (rampOf h i) t1 t2.
Proof.
  unfold hueChannel, rampOf, blend. cbv zeta.
  repeat match goal with
         | |- context [if ?c then _ else _] => destruct c
         end; reflexivity.
Qed.

Lemma rotate_tint h min max :
  rotate h (saturation min max) (lightness min max)
  = pack3 (shade (rampOf h 0) (tintOf min max)) (shade (rampOf h 1) (tintOf min max))
          (shade (rampOf h 2) (tintOf min max)).
Proof.
  unfold rotate, tintOf. cbv zeta.
  destruct (PrimFloat.eqb (saturation min max) 0); cbn [shade]; [reflexivity|].
  by rewrite !hueChannel_blend.
Qed.

(** *** The tables *)

Lemma unitNumbers_eq : unitNumbers = (fun n => unitOf (Z.of_nat n)) <$> seq 0 256.
Proof. vm_cast_no_check (eq_refl unitNumbers). Qed.

Lemma tintRows_eq :
  tintRows = (fun d => zip_with tintOf unitNumbers (drop d unitNumbers)) <$> seq 0 256.
Proof. vm_cast_no_check (eq_refl tintRows). Qed.

Lemma boundNumbers_eq : boundNumbers = (fun n => Z2F (Z.of_nat n - 1)) <$> seq 0 258.
Proof. vm_cast_no_check (eq_refl boundNumbers). Qed.

Lemma hueNumbers_eq :
  hueNumbers = (fun n => (Z2F (Z.of_nat n) / 360)%float) <$> seq 0 361.
Proof. vm_cast_no_check (eq_refl hueNumbers). Qed.

Lemma ascending_units : ascending unitNumbers = true.
Proof. vm_cast_no_check (eq_refl true). Qed.

Lemma top_checked : checkRows Top 60 0 tintRows = true.
Proof. vm_cast_no_check (eq_refl true). Qed.

Lemma bottom_checked : checkRows Bottom 0 0 tintRows = true.
Proof. vm_cast_no_check (eq_refl true). Qed.

Lemma hues_checked : huesOk 0 hueNumbers = true.
Proof. vm_cast_no_check (eq_refl true). Qed.

Lemma unitNumbers_lookup v :
  0 <= v < 256 -> unitNumbers !! Z.to_nat v = Some (unitOf v).
Proof.
  intros Hv. rewrite unitNumbers_eq, list_lookup_fmap, lookup_seq_lt by lia.
  cbn [fmap option_fmap option_map]. do 2 f_equal. lia.
Qed.

Lemma boundNumbers_lookup k :
  -1 <= k <= 256 -> boundNumbers !! Z.to_nat (k + 1) = Some (Z2F k).
Proof.
  intros Hk. rewrite boundNumbers_eq, list_lookup_fmap, lookup_seq_lt by lia.
  cbn [fmap option_fmap option_map]. do 2 f_equal. lia.
Qed.

Lemma hueNumbers_lookup H :
  0 <= H <= 360 -> hueNumbers !! Z.to_nat H = Some (Z2F H / 360)%float.
Proof.
  intros HH. rewrite hueNumbers_eq, list_lookup_fmap, lookup_seq_lt by lia.
  cbn [fmap option_fmap option_map]. do 3 f_equal. lia.
Qed.

Lemma tintRows_lookup lo hi :
  0 <= lo <= hi -> hi < 256 ->
  exists row, tintRows !! Z.to_nat (hi - lo) = Some row
    /\ row !! Z.to_nat lo = Some (tintOf (unitOf lo) (unitOf hi)).
Proof.
  intros Hlo Hhi. rewrite tintRows_eq, list_lookup_fmap, lookup_seq_lt by lia.
  cbn [fmap option_fmap option_map]. eexists. split; [reflexivity|].
  rewrite lookup_zip_with, lookup_drop.
  replace (0 + Z.to_nat (hi - lo) + Z.to_nat lo)%nat with (Z.to_nat hi) by lia.
  rewrite !unitNumbers_lookup by lia. reflexivity.
Qed.

(** *** [Math.min] and [Math.max] on the channel values *)

Lemma ascending_sound l : ascending l = true ->
  forall j k u v, (j <= k)%nat -> l !! j = Some u -> l !! k = Some v -> inOrder u v = true.
Proof.
  induction l as [|x l IH]; intros H j k u v Hjk Hj Hk; [done|].
  cbn [ascending] in H. apply andb_prop in H as [Hx Hrest].
  destruct j as [|j].
  - cbn in Hj. apply (inj Some) in Hj. subst x.
    rewrite forallb_forall in Hx. apply Hx. apply list_elem_of_In.
    by apply list_elem_of_lookup_2 in Hk.
  - destruct k as [|k]; [lia|]. cbn in Hj, Hk. apply (IH Hrest j k); [lia|done|done].
Qed.

Lemma units_in_order a b :
  0 <= a <= b -> b < 256 ->
  min2 (unitOf a) (unitOf b) = unitOf a /\ min2 (unitOf b) (unitOf a) = unitOf a
  /\ max2 (unitOf a) (unitOf b) = unitOf b /\ max2 (unitOf b) (unitOf a) = unitOf b.
Proof.
  intros Ha Hb.
  pose proof (ascending_sound _ ascending_units (Z.to_nat a) (Z.to_nat b) _ _ ltac:(lia)
                (unitNumbers_lookup a ltac:(lia)) (unitNumbers_lookup b ltac:(lia))) as H.
  unfold inOrder in H. repeat (apply andb_prop in H as [H ?]).
  repeat split; by apply FloatAxioms.Leibniz.eqb_spec.
Qed.

Lemma min2_units a b :
  0 <= a < 256 -> 0 <= b < 256 -> min2 (unitOf a) (unitOf b) = unitOf (Z.min a b).
Proof.
  intros Ha Hb. destruct (Z.le_ge_cases a b) as [Hab|Hab].
  - rewrite Z.min_l by lia. apply units_in_order; lia.
  - rewrite Z.min_r by lia. apply units_in_order; lia.
Qed.

Lemma max2_units a b :
  0 <= a < 256 -> 0 <= b < 256 -> max2 (unitOf a) (unitOf b) = unitOf (Z.max a b).
Proof.
  intros Ha Hb. destruct (Z.le_ge_cases a b) as [Hab|Hab].
  - rewrite Z.max_r by lia. apply units_in_order; lia.
  - rewrite Z.max_l by lia. apply units_in_order; lia.
Qed.

(** *** Soundness of the check *)

Lemma walk_sound r : forall lows highs row, walk r lows highs row = true ->
  forall j t, row !! j = Some t ->
  exists a b, lows !! j = Some a /\ highs !! j = Some b
    /\ PrimFloat.ltb a (shade r t) = true /\ PrimFloat.ltb (shade r t) b = true.
Proof.
  intros lows highs row. revert lows highs.
  induction row as [|t0 row IH]; intros lows highs H j t Hj; [done|].
  destruct lows as [|a lows]; [done|]. destruct highs as [|b highs]; [done|].
  cbn [walk] in H. cbv zeta in H.
  apply andb_prop in H as [H Hrest]. apply andb_prop in H as [Ha Hb].
  destruct j as [|j].
  - cbn in Hj. apply (inj Some) in Hj. subst t0. by exists a, b.
  - cbn in Hj. by apply (IH lows highs Hrest j t).
Qed.

Lemma checkRows_sound r m : forall table d, checkRows r m d table = true ->
  forall k row, table !! k = Some row ->
  walk r (drop (Z.to_nat (((d + Z.of_nat k) * m + 59) / 60)) boundNumbers)
         (drop (Z.to_nat ((d + Z.of_nat k) * m / 60 + 2)) boundNumbers) row = true.
Proof.
  induction table as [|row0 table IH]; intros d H k row Hk; [done|].
  cbn [checkRows] in H. cbv zeta in H. apply andb_prop in H as [H0 Hrest].
  destruct k as [|k].
  - cbn in Hk. apply (inj Some) in Hk. subst row0.
    by replace (d + Z.of_nat 0) with d by lia.
  - cbn in Hk. replace (d + Z.of_nat (S k)) with (d + 1 + Z.of_nat k) by lia.
    by apply IH.
Qed.

Lemma huesOk_sound : forall hs H, huesOk H hs = true ->
  forall k h, hs !! k = Some h ->
  channelOk (H + Z.of_nat k) h 0 0 = true /\ channelOk (H + Z.of_nat k) h 1 1 = true
  /\ channelOk (H + Z.of_nat k) h 2 2 = true.
Proof.
  induction hs as [|h0 hs IH]; intros H Hok k h Hk; [done|].
  cbn [huesOk] in Hok. apply andb_prop in Hok as [Hok Hrest].
  apply andb_prop in Hok as [Hok H2]. apply andb_prop in Hok as [H0 H1].
  destruct k as [|k].
  - cbn in Hk. apply (inj Some) in Hk. subst h0.
    by replace (H + Z.of_nat 0) with H by lia.
  - cbn in Hk. replace (H + Z.of_nat (S k)) with (H + 1 + Z.of_nat k) by lia.
    by apply IH.
Qed.

Lemma channelOk_rows H h i fi :
  channelOk H h i fi = true ->
  checkRows (rampOf h fi) (offsetOf ((H + 120 * (i - 1)) mod 360)) 0 tintRows = true.
Proof.
  unfold channelOk. cbv zeta. destruct (rampOf h fi).
  - intros Hm. exact Hm.
  - intros Hm. apply Z.eqb_eq in Hm. rewrite Hm. exact top_checked.
  - intros Hm. exact Hm.
  - intros Hm. apply Z.eqb_eq in Hm. rewrite Hm. exact bottom_checked.
Qed.

Lemma offsetOf_range p : 0 <= offsetOf p <= 60 \/ p < 0.
Proof.
  unfold offsetOf.
  destruct (Z.ltb_spec p 60); [lia|]. destruct (Z.leb_spec p 180); [lia|].
  destruct (Z.ltb_spec p 240); lia.
Qed.

(** For a whole-degree hue from 0 to 360, the channel [i] of the loop
    (with [fi] the same index as a number) and a colour whose smallest and
    largest channels are [lo] and [hi], the value computed drops its
    fraction to the exact channel value rounded down. *)
Lemma channel_rounded H i fi lo hi :
  0 <= H <= 360 ->
  (i = 0 /\ fi = 0%float) \/ (i = 1 /\ fi = 1%float) \/ (i = 2 /\ fi = 2%float) ->
  0 <= lo <= hi -> hi < 256 ->
  roundedDown
    (trunc (shade (rampOf (Z2F H / 360) fi) (tintOf (unitOf lo) (unitOf hi))))
    (60 * lo + (hi - lo) * offsetOf ((H + 120 * (i - 1)) mod 360)).
Proof.
  intros HH Hi Hlo Hhi.
  destruct (huesOk_sound _ _ hues_checked _ _ (hueNumbers_lookup H HH)) as (H0 & H1 & H2).
  rewrite Z2Nat.id, Z.add_0_l in H0, H1, H2 by lia.
  assert (Hch : channelOk H (Z2F H / 360) i fi = true).
  { destruct Hi as [[-> ->]|[[-> ->]|[-> ->]]]; done. }
  apply channelOk_rows in Hch.
  set (m := offsetOf ((H + 120 * (i - 1)) mod 360)) in *.
  assert (Hm : 0 <= m <= 60).
  { destruct (offsetOf_range ((H + 120 * (i - 1)) mod 360)) as [|Hneg]; [done|].
    pose proof (Z.mod_pos_bound (H + 120 * (i - 1)) 360). lia. }
  destruct (tintRows_lookup lo hi Hlo Hhi) as (row & Hrow & Ht).
  pose proof (checkRows_sound _ _ _ _ Hch _ _ Hrow) as Hwalk.
  rewrite Z2Nat.id, Z.add_0_l in Hwalk by lia.
  destruct (walk_sound _ _ _ _ Hwalk _ _ Ht) as (a & b & Ha & Hb & Hlow & Hhigh).
  set (q := (hi - lo) * m) in *.
  assert (Hq : 0 <= q <= 60 * (hi - lo)) by (subst q; nia).
  pose proof (Z.div_mod q 60 ltac:(lia)) as Hfl.
  pose proof (Z.mod_pos_bound q 60 ltac:(lia)) as Hflr.
  pose proof (Z.div_mod (q + 59) 60 ltac:(lia)) as Hce.
  pose proof (Z.mod_pos_bound (q + 59) 60 ltac:(lia)) as Hcer.
  rewrite lookup_drop in Ha, Hb.
  replace (Z.to_nat ((q + 59) / 60) + Z.to_nat lo)%nat
    with (Z.to_nat ((lo + (q + 59) / 60 - 1) + 1)) in Ha by lia.
  replace (Z.to_nat (q / 60 + 2) + Z.to_nat lo)%nat
    with (Z.to_nat ((lo + q / 60 + 1) + 1)) in Hb by lia.
  rewrite boundNumbers_lookup in Ha by lia. rewrite boundNumbers_lookup in Hb by lia.
  apply (inj Some) in Ha. apply (inj Some) in Hb. subst a b.
  assert (Hbig : 256 < 2 ^ 53) by done.
  pose proof (trunc_between _ (lo + (q + 59) / 60 - 1) (lo + q / 60 + 1)
                ltac:(lia) ltac:(lia) ltac:(lia) Hlow Hhigh) as Htr.
  unfold roundedDown. lia.
Qed.

(** *** [applyHue] at whole degrees *)

Lemma truthy_Z2F n : 0 < n < 2 ^ 53 -> truthy (Z2F n) = true.
Proof.
  intros Hn. destruct n as [|p|p]; [lia| |lia].
  destruct (finite_Z2F (Zpos p) ltac:(lia)) as [Hnan _].
  unfold truthy. rewrite Hnan. rewrite FloatAxioms.eqb_spec.
  rewrite (Prim2SF_Z2F_pos p) by lia.
  reflexivity.
Qed.

Lemma Math_min_units x y z :
  0 <= x < 256 -> 0 <= y < 256 -> 0 <= z < 256 ->
  Math_min (unitOf x) (unitOf y) (unitOf z) = unitOf (Z.min (Z.min x y) z).
Proof. intros Hx Hy Hz. unfold Math_min. rewrite !min2_units by lia. done. Qed.

Lemma Math_max_units x y z :
  0 <= x < 256 -> 0 <= y < 256 -> 0 <= z < 256 ->
  Math_max (unitOf x) (unitOf y) (unitOf z) = unitOf (Z.max (Z.max x y) z).
Proof. intros Hx Hy Hz. unfold Math_max. rewrite !max2_units by lia. done. Qed.

(** [applyHue] at a hue of a whole number of degrees from 0 to 360: the
    three bytes it packs are the channels of the colour of that hue with
    the smallest and largest channel of the colour given, each rounded
    down; the first of the triple is packed highest and comes out as
    blue. *)
Lemma applyHue_whole x y z H :
  0 <= x < 256 -> 0 <= y < 256 -> 0 <= z < 256 -> 0 <= H <= 360 ->
  let lo := Z.min (Z.min x y) z in
  let hi := Z.max (Z.max x y) z in
  exists b g r,
    applyHue (x, y, z) (Z2F H) = b * 2 ^ 16 + g * 2 ^ 8 + r
    /\ roundedDown r (rotated60 H lo hi 0)
    /\ roundedDown g (rotated60 H lo hi 1)
    /\ roundedDown b (rotated60 H lo hi 2).
Proof.
  intros Hx Hy Hz HH lo hi.
  unfold applyHue. cbn [fst snd]. cbv zeta. fold (unitOf x) (unitOf y) (unitOf z).
  rewrite Math_min_units, Math_max_units by done. fold lo hi.
  rewrite rotate_tint.
  assert (Hlo : 0 <= lo <= hi) by lia. assert (Hhi : hi < 256) by lia.
  pose proof (channel_rounded H 0 0 lo hi HH ltac:(by left) Hlo Hhi) as H0.
  pose proof (channel_rounded H 1 1 lo hi HH ltac:(by right; left) Hlo Hhi) as H1.
  pose proof (channel_rounded H 2 2 lo hi HH ltac:(by right; right) Hlo Hhi) as H2.
  set (b := trunc (shade (rampOf (Z2F H / 360) 0) (tintOf (unitOf lo) (unitOf hi)))) in *.
  set (g := trunc (shade (rampOf (Z2F H / 360) 1) (tintOf (unitOf lo) (unitOf hi)))) in *.
  set (r := trunc (shade (rampOf (Z2F H / 360) 2) (tintOf (unitOf lo) (unitOf hi)))) in *.
  exists b, g, r.
  assert (Hb : 0 <= b < 256) by apply H0.
  assert (Hg : 0 <= g < 256) by apply H1.
  assert (Hr : 0 <= r < 256) by apply H2.
  split; [|by unfold rotated60].
  unfold pack3, ToInt32. fold b g r.
  rewrite (int32_small b), (int32_small g), (int32_small r) by lia.
  by apply pack_bytes.
Qed.

Lemma int32ToRgb_word oc :
  0 <= oc < 2 ^ 32 ->
  int32ToRgb (oc mod 2 ^ 24) = (oc / 2 ^ 16 mod 2 ^ 8, oc / 2 ^ 8 mod 2 ^ 8, oc mod 2 ^ 8).
Proof.
  intros Hoc.
  assert (Hk : oc mod 2 ^ 24
               = oc / 2 ^ 16 mod 2 ^ 8 * 2 ^ 16 + oc / 2 ^ 8 mod 2 ^ 8 * 2 ^ 8 + oc mod 2 ^ 8).
  { change (2 ^ 24) with 16777216. change (2 ^ 16) with 65536. change (2 ^ 8) with 256.
    Z.to_euclidean_division_equations. lia. }
  rewrite Hk. apply int32ToRgb_bytes; apply Z.mod_pos_bound; lia.
Qed.



